(** * Hold-and-notify servers of the backend communication patterns

    A shallow embedding of the four demo servers of
    [backend/fundamentals/backend-communication-design-patterns]:

    - [LongPolling]  : long-polling/long-polling.ts
    - [ShortPolling] : short-polling/polling.ts
    - [SSE]          : the server-sent-events server
    - [PushServer]   : push/push-server.ts

    and, around the server-sent-events server,

    - [SSESimulation] : its simulation endpoints and intervals
    - [SSEClient]     : server-sent-events/sse-client.js, the page that
                        listens to the stream

    and two small functions that stand alone: [Debounce] ([debounce])
    and [MostFrequent] ([findMostFrequentNumber] of test.ts).

    Every server is a single-threaded Node process: a handler or a timer
    callback runs to completion before the next one starts.  Each module
    therefore gives the process state as a record, one function per
    handler or callback, and a [step] function that dispatches an event of
    the environment (an HTTP request, a timer that fires, a socket that
    closes) to the code that Node would run for it.  The environment
    picks which armed timer fires next; the scenarios below fire them in
    the order of their deadlines.  An object used as a map ([jobs]) has
    its own entries, under the ids the server mints, and the keys it
    inherits from [Object.prototype], which a request can name
    ([JsObject]). *)

From Stdlib Require Import ZArith.
From stdpp Require Import gmap strings list fin_maps pretty.

(** ** Plain objects used as maps *)
Module JsObject.

(** The keys every plain object inherits from [Object.prototype].  Under
    each of them [obj[key]] finds a function or an object: a truthy value
    that has none of the properties of a job. *)
Definition prototypeKeys : list string :=
  [ "constructor"; "__defineGetter__"; "__defineSetter__"; "hasOwnProperty";
    "__lookupGetter__"; "__lookupSetter__"; "isPrototypeOf";
    "propertyIsEnumerable"; "toString"; "valueOf"; "__proto__";
    "toLocaleString" ].

(** What [obj[key]] yields. *)
Inductive Found (V : Type) :=
| Own (v : V)          (* the object's own entry *)
| Inherited            (* a value of [Object.prototype] *)
| Missing.             (* [undefined] *)

Arguments Own {V} v.
Arguments Inherited {V}.
Arguments Missing {V}.

(** [obj[key]], for an object whose own entries are [own].  The servers
    write own entries under minted ids ([job_<clock>_<random>]) only, and
    no minted id is a key of [Object.prototype]. *)
Definition get {V} (key : string) (own : gmap string V) : Found V :=
  match own !! key with
  | Some v => Own v
  | None => if bool_decide (key ∈ prototypeKeys) then Inherited else Missing
  end.

End JsObject.

(** ** Long polling: job status checker *)
Module LongPolling.
Import JsObject.

(** [Job.status]: 'pending' | 'processing' | 'completed' | 'failed'. *)
Inductive Status := pending | processing | completed | failed.

#[global] Instance Status_eq_dec : EqDecision Status.
Proof. solve_decision. Defined.

Definition status_str (st : Status) : string :=
  match st with
  | pending => "pending"
  | processing => "processing"
  | completed => "completed"
  | failed => "failed"
  end.

Record Job := mkJob {
  id : string;
  status : Status;
  progress : Z;
  result : option string;
  lastUpdated : Z
}.

(** [express.Response] objects are single-use reply handles; a handle is
    identified by the number of the request it belongs to. *)
Definition Res := nat.

(** [lastKnownStatus] holds [currentJob.status]: a status string, or
    [undefined] (written "undefined") when [currentJob] is a value of
    [Object.prototype].  No code of the server reads the field. *)
Record WaitingClient := mkWaiting {
  res : Res;
  jobId : string;
  lastKnownStatus : string;
  timeout : nat
}.

(** The JSON bodies the server sends. *)
Inductive Body :=
| JobCreated (jobId : string)
| JobNotFound
| Immediate (jobId : string) (st : Status) (pr : Z) (rs : option string) (upd : Z)
| StatusChanged (jobId : string) (st : Status) (pr : Z) (rs : option string) (upd : Z)
| TimedOut (jobId : string) (st : Status) (pr : Z)
| ImmediateUndefined (jobId : string)   (* [immediate: true]; status, progress, result
                                           and lastUpdated are undefined and left out *)
| TimedOutUndefined (jobId : string).   (* [timeout: true] and the message; status and
                                           progress are undefined and left out *)

Record Response := mkResponse { code : Z; body : Body }.

(** What a [setTimeout] callback closes over. *)
Inductive Callback :=
| CbProcessJob (jobId : string)
| CbNextStage (jobId : string) (currentStage : nat)
| CbPollTimeout (jobId : string) (r : Res).

Record State := mkState {
  jobs : gmap string Job;
  waitingClients : list WaitingClient;
  timers : gmap nat Callback;      (* armed timers, by timer handle *)
  nextTimer : nat;                 (* next handle [setTimeout] returns *)
  sent : list (Res * Response)     (* every [res.json] call, oldest first;
                                      a handle used twice shows up twice *)
}.

Definition init : State := mkState ∅ [] ∅ 0 [].

Definition set_jobs (f : gmap string Job → gmap string Job) (s : State) : State :=
  mkState (f (jobs s)) (waitingClients s) (timers s) (nextTimer s) (sent s).
Definition set_waitingClients (f : list WaitingClient → list WaitingClient) (s : State) : State :=
  mkState (jobs s) (f (waitingClients s)) (timers s) (nextTimer s) (sent s).
Definition set_timers (f : gmap nat Callback → gmap nat Callback) (s : State) : State :=
  mkState (jobs s) (waitingClients s) (f (timers s)) (nextTimer s) (sent s).

(** [setTimeout(cb, _)]: arms a fresh timer. *)
Definition setTimeout (cb : Callback) (s : State) : State :=
  mkState (jobs s) (waitingClients s) (<[nextTimer s := cb]> (timers s))
          (S (nextTimer s)) (sent s).

(** [clearTimeout(t)]: a cleared timer never runs its callback. *)
Definition clearTimeout (t : nat) (s : State) : State :=
  set_timers (delete t) s.

(** [res.status(c).json(b)] / [res.json(b)]. *)
Definition json (r : Res) (c : Z) (b : Body) (s : State) : State :=
  mkState (jobs s) (waitingClients s) (timers s) (nextTimer s)
          (sent s ++ [(r, mkResponse c b)]).

(** [hasJobStatusChanged] *)
Definition hasJobStatusChanged (job : Job) (lastKnownStatus : string) : bool :=
  bool_decide (lastKnownStatus ≠ "") &&
  bool_decide (status_str (status job) ≠ lastKnownStatus).

(** The loop [for (i = k - 1; i >= 0; i--)] of [removeWaitingClient]:
    the index of the first hit, scanning downwards. *)
Fixpoint scanDown (j : string) (l : list WaitingClient) (k : nat) : option nat :=
  match k with
  | O => None
  | S i =>
      match l !! i with
      | Some c => if decide (jobId c = j) then Some i else scanDown j l i
      | None => scanDown j l i
      end
  end.

(** [removeWaitingClient] *)
Definition removeWaitingClient (j : string) (s : State) : State :=
  match scanDown j (waitingClients s) (length (waitingClients s)) with
  | Some i =>
      match waitingClients s !! i with
      | Some c => set_waitingClients (delete i) (clearTimeout (timeout c) s)
      | None => s
      end
  | None => s
  end.

(** The body of the [forEach] of [notifyWaitingClients]. *)
Definition notifyOne (j : string) (job : Job) (s : State) (client : WaitingClient) : State :=
  json (res client) 200
       (StatusChanged j (status job) (progress job) (result job) (lastUpdated job))
       (clearTimeout (timeout client) s).

(** [notifyWaitingClients] *)
Definition notifyWaitingClients (j : string) (s : State) : State :=
  let clientsForThisJob :=
    filter (λ client, jobId client = j) (waitingClients s) in
  let s1 :=
    match jobs s !! j with
    | Some job => foldl (notifyOne j job) s clientsForThisJob
    | None => s
    end in
  set_waitingClients (filter (λ client, jobId client ≠ j)) s1.

(** The [stages] table of [processJob]: status and progress. *)
Definition stages : list (Status * Z) :=
  [ (processing, 10); (processing, 20); (processing, 30); (processing, 40);
    (processing, 50); (processing, 60); (processing, 70); (processing, 80);
    (processing, 90); (completed, 100) ]%Z.

(** [processJob] up to its [setTimeout(nextStage, 2000)].  It is called
    with the id that [create-job] has minted, as are [nextStage] and
    [notifyWaitingClients]: their [jobs[jobId]] reads an own entry. *)
Definition processJob (j : string) (s : State) : State :=
  match jobs s !! j with
  | None => s
  | Some _ => setTimeout (CbNextStage j 0) s
  end.

(** The assignments of [nextStage] to the job object. *)
Definition applyStage (j : string) (st : Status) (pr : Z) (now : Z) (job : Job) : Job :=
  mkJob (id job) st pr
        (if decide (st = completed)
         then Some ("Job " +:+ j +:+ " completed successfully!")
         else result job)
        now.

(** [nextStage], the closure of [processJob], entered with the closure
    variable [currentStage] at the value it had when the timer was armed.
    The closed-over [job] is the object the store holds under [j]. *)
Definition nextStage (j : string) (currentStage : nat) (now : Z) (s : State) : State :=
  match stages !! currentStage with
  | None => s
  | Some (st, pr) =>
      let s1 := set_jobs (alter (applyStage j st pr now) j) s in
      let s2 := notifyWaitingClients j s1 in
      if decide (S currentStage < length stages)%nat
      then setTimeout (CbNextStage j (S currentStage)) s2
      else s2
  end.

(** [app.post('/create-job')]; [j] is the id minted from the clock and a
    random number. *)
Definition createJob (r : Res) (j : string) (now : Z) (s : State) : State :=
  let s1 := set_jobs (<[j := mkJob j pending 0 None now]>) s in
  let s2 := setTimeout (CbProcessJob j) s1 in
  json r 200 (JobCreated j) s2.

(** [app.get('/poll-job-status')].  A query parameter that is absent
    reads as the empty string: the handler only tests [jobId] for
    falsiness and replaces a falsy [lastStatus] by [''].  [jobs[jobId]]
    also finds the keys that [jobs] inherits; every property the handler
    reads from such a value is [undefined], so that
    [job.status !== lastKnownStatus] holds for every string. *)
Definition poll (r : Res) (j lastStatus : string) (s : State) : State :=
  let lastKnownStatus := lastStatus in
  if decide (j = "") then json r 404 JobNotFound s else
  match get j (jobs s) with
  | Missing => json r 404 JobNotFound s
  | Own currentJob =>
      if hasJobStatusChanged currentJob lastKnownStatus then
        json r 200
             (Immediate j (status currentJob) (progress currentJob)
                        (result currentJob) (lastUpdated currentJob)) s
      else
        let t := nextTimer s in
        let s1 := setTimeout (CbPollTimeout j r) s in
        set_waitingClients
          (λ l, l ++ [mkWaiting r j (status_str (status currentJob)) t]) s1
  | Inherited =>
      if bool_decide (lastKnownStatus ≠ "") then
        json r 200 (ImmediateUndefined j) s
      else
        let t := nextTimer s in
        let s1 := setTimeout (CbPollTimeout j r) s in
        set_waitingClients (λ l, l ++ [mkWaiting r j "undefined" t]) s1
  end.

(** The callback of the poll handler's [setTimeout].  [currentJob] is the
    value the handler read; jobs are mutated in place and never removed,
    so the callback reads it through the store. *)
Definition pollTimeout (j : string) (r : Res) (s : State) : State :=
  let s1 := removeWaitingClient j s in
  match get j (jobs s1) with
  | Own currentJob =>
      json r 200 (TimedOut j (status currentJob) (progress currentJob)) s1
  | Inherited => json r 200 (TimedOutUndefined j) s1
  | Missing => s1
  end.

(** Events of the environment. *)
Inductive Event :=
| CreateJob (r : Res) (j : string) (now : Z)
| Poll (r : Res) (j lastStatus : string)
| Fire (t : nat) (now : Z)        (* the armed timer [t] expires *)
| ClientClose (r : Res).          (* the client of request [r] disconnects *)

Definition fire (t : nat) (now : Z) (s : State) : State :=
  match timers s !! t with
  | None => s
  | Some cb =>
      let s1 := set_timers (delete t) s in
      match cb with
      | CbProcessJob j => processJob j s1
      | CbNextStage j k => nextStage j k now s1
      | CbPollTimeout j r => pollTimeout j r s1
      end
  end.

(** The poll handler registers no listener for the request's 'close'
    event, so a disconnect runs no code of the server. *)
Definition step (s : State) (e : Event) : State :=
  match e with
  | CreateJob r j now => createJob r j now s
  | Poll r j lastStatus => poll r j lastStatus s
  | Fire t now => fire t now s
  | ClientClose _ => s
  end.

Definition run (s : State) (es : list Event) : State := foldl step s es.

(** The replies sent on the handle [r], oldest first. *)
Definition replies (r : Res) (s : State) : list Response :=
  (filter (λ p, p.1 = r) (sent s)).*2.

End LongPolling.

(** ** Short polling: job processing server *)
Module ShortPolling.
Import JsObject.

(** [Job.status]: 'processing' | 'completed' | 'failed'. *)
Inductive Status := processing | completed | failed.

#[global] Instance Status_eq_dec : EqDecision Status.
Proof. solve_decision. Defined.

Record Job := mkJob {
  id : string;
  progress : Z;
  status : Status;
  createdAt : Z          (* milliseconds since the epoch *)
}.

Definition Res := nat.

Inductive Body :=
| Submitted (jobId : string)
| JobIdRequired
| JobNotFound (jobId : string)
| JobStatus (jobId : string) (pr : Z) (st : Status) (created : Z) (isComplete : bool)
| JobStatusUndefined.   (* [isComplete: false]; jobId, progress, status and createdAt
                           are undefined and left out *)

Record Response := mkResponse { code : Z; body : Body }.

Record State := mkState {
  jobs : gmap string Job;
  intervals : gmap nat string;     (* live [updateInterval]s and the job each one drives *)
  nextInterval : nat;
  sent : list (Res * Response)
}.

Definition init : State := mkState ∅ ∅ 0 [].

Definition set_jobs (f : gmap string Job → gmap string Job) (s : State) : State :=
  mkState (f (jobs s)) (intervals s) (nextInterval s) (sent s).

Definition clearInterval (i : nat) (s : State) : State :=
  mkState (jobs s) (delete i (intervals s)) (nextInterval s) (sent s).

Definition json (r : Res) (c : Z) (b : Body) (s : State) : State :=
  mkState (jobs s) (intervals s) (nextInterval s) (sent s ++ [(r, mkResponse c b)]).

(** [job.status === 'completed' || job.status === 'failed'] *)
Definition finished (job : Job) : bool :=
  bool_decide (status job = completed) || bool_decide (status job = failed).

(** [startJobProcessing] up to its [setInterval].  It is called with the
    id that [submit-job] has minted, as is the interval's callback:
    their [jobs[jobId]] reads an own entry. *)
Definition startJobProcessing (j : string) (s : State) : State :=
  match jobs s !! j with
  | None => s
  | Some _ =>
      mkState (jobs s) (<[nextInterval s := j]> (intervals s))
              (S (nextInterval s)) (sent s)
  end.

(** The callback of [updateInterval], for the interval [i]. *)
Definition tick (i : nat) (s : State) : State :=
  match intervals s !! i with
  | None => s
  | Some j =>
      match jobs s !! j with
      | None => clearInterval i s
      | Some currentJob =>
          let p := (progress currentJob + 10)%Z in
          if decide (100 ≤ p)%Z then
            clearInterval i
              (set_jobs (<[j := mkJob (id currentJob) 100 completed
                                      (createdAt currentJob)]>) s)
          else
            set_jobs (<[j := mkJob (id currentJob) p (status currentJob)
                                   (createdAt currentJob)]>) s
      end
  end.

(** [app.post('/submit')] *)
Definition submit (r : Res) (j : string) (now : Z) (s : State) : State :=
  let s1 := set_jobs (<[j := mkJob j 0 processing now]>) s in
  let s2 := startJobProcessing j s1 in
  json r 200 (Submitted j) s2.

(** [app.get('/check-status')]; an absent [jobId] reads as [""].
    [jobs[jobId]] also finds the keys that [jobs] inherits; every
    property the handler reads from such a value is [undefined]. *)
Definition checkStatus (r : Res) (j : string) (s : State) : State :=
  if decide (j = "") then json r 400 JobIdRequired s else
  match get j (jobs s) with
  | Missing => json r 404 (JobNotFound j) s
  | Own job =>
      json r 200 (JobStatus (id job) (progress job) (status job)
                            (createdAt job) (finished job)) s
  | Inherited => json r 200 JobStatusUndefined s
  end.

(** The test of the cleanup loop.  [ageInMinutes] is
    [(now - createdAt) / (1000 * 60)]; the comparison [ageInMinutes > 10]
    is stated on the milliseconds, with the positive divisor cleared. *)
Definition expired (now : Z) (job : Job) : bool :=
  finished job && bool_decide (10 * (1000 * 60) < now - createdAt job)%Z.

(** The callback of the cleanup [setInterval]: the loop runs over the
    snapshot [Object.entries(jobs)] and deletes the expired entries. *)
Definition cleanup (now : Z) (s : State) : State :=
  set_jobs (filter (λ kv, expired now kv.2 = false)) s.

Inductive Event :=
| Submit (r : Res) (j : string) (now : Z)
| CheckStatus (r : Res) (j : string)
| Tick (i : nat)
| Cleanup (now : Z).

Definition step (s : State) (e : Event) : State :=
  match e with
  | Submit r j now => submit r j now s
  | CheckStatus r j => checkStatus r j s
  | Tick i => tick i s
  | Cleanup now => cleanup now s
  end.

Definition run (s : State) (es : list Event) : State := foldl step s es.

End ShortPolling.

(** ** Push: WebSocket chat server *)
Module PushServer.

(** A [websocket.connection] object, as far as the server uses it. *)
Record Connection := mkConnection {
  connected : bool;
  remotePort : Z;            (* [connection.socket.remotePort] *)
  outbox : list string       (* what [send] pushed to this peer, oldest first *)
}.

(** Connection objects live in a store and are named by reference; the
    array [connections] holds references. *)
Record State := mkState {
  connections : list nat;
  heap : gmap nat Connection;
  nextConn : nat
}.

Definition init : State := mkState [] ∅ 0.

Definition allowedOrigins : list string :=
  [ "http://localhost:8080"; "http://127.0.0.1:8080";
    "https://be.ngockhoi96.dev"; "null" ].

(** [originIsAllowed]; an absent origin reads as [""]. *)
Definition originIsAllowed (origin : string) : bool :=
  bool_decide (origin ∈ allowedOrigins) || bool_decide (origin = "").

Definition user (port : Z) : string := "User" +:+ pretty port.

(** The connection object once [text] was pushed to its peer. *)
Definition deliver (text : string) (conn : Connection) : Connection :=
  mkConnection (connected conn) (remotePort conn) (outbox conn ++ [text]).

(** [conn.send(text)] *)
Definition send (c : nat) (text : string) (s : State) : State :=
  mkState (connections s) (alter (deliver text) c (heap s)) (nextConn s).

Definition isConnected (s : State) (c : nat) : bool :=
  match heap s !! c with
  | Some conn => connected conn
  | None => false
  end.

Definition portOf (s : State) (c : nat) : Z :=
  match heap s !! c with
  | Some conn => remotePort conn
  | None => 0
  end.

(** [connections.forEach((conn) => { if (guard conn) conn.send(text) })] *)
Definition sendWhere (guard : State → nat → bool) (text : string) (s : State) : State :=
  foldl (λ acc conn, if guard acc conn then send conn text acc else acc)
        s (connections s).

Inductive Message := Utf8 (utf8Data : string) | Binary.

(** [connection.on('message')] of the connection [c]. *)
Definition onMessage (c : nat) (msg : Message) (s : State) : State :=
  match msg with
  | Utf8 message =>
      sendWhere isConnected (user (portOf s c) +:+ " says: " +:+ message) s
  | Binary => s
  end.

(** [connections.indexOf(c)] *)
Fixpoint indexOf (c : nat) (l : list nat) : option nat :=
  match l with
  | [] => None
  | x :: l' => if decide (x = c) then Some 0%nat else S <$> indexOf c l'
  end.

(** [connection.on('close')] of the connection [c]. *)
Definition onClose (c : nat) (s : State) : State :=
  let s1 :=
    match indexOf c (connections s) with
    | Some index => mkState (delete index (connections s)) (heap s) (nextConn s)
    | None => s
    end in
  sendWhere isConnected (user (portOf s c) +:+ " has left the chat") s1.

(** [wsServer.on('request')]; [req.accept] yields a fresh connection
    object on the socket with remote port [port]. *)
Definition onRequest (origin : string) (port : Z) (s : State) : State :=
  if negb (originIsAllowed origin) then s else
  let connection := nextConn s in
  let s1 := mkState (connections s)
                    (<[connection := mkConnection true port []]> (heap s))
                    (S connection) in
  let s2 := mkState (connections s1 ++ [connection]) (heap s1) (nextConn s1) in
  let s3 :=
    sendWhere (λ acc conn, isConnected acc conn && bool_decide (conn ≠ connection))
              (user port +:+ " has joined the chat") s2 in
  send connection
       ("Welcome! You are " +:+ user port +:+ ". There are " +:+
        pretty (length (connections s3)) +:+ " users online.") s3.

(** The library clears [connected] when the peer closes or the
    connection is dropped; the 'close' event may be emitted later. *)
Definition disconnected (c : nat) (s : State) : State :=
  mkState (connections s)
          (alter (λ conn, mkConnection false (remotePort conn) (outbox conn)) c (heap s))
          (nextConn s).

Inductive Event :=
| Request (origin : string) (port : Z)
| Incoming (c : nat) (msg : Message)
| Disconnected (c : nat)
| Close (c : nat).

Definition step (s : State) (e : Event) : State :=
  match e with
  | Request origin port => onRequest origin port s
  | Incoming c msg => onMessage c msg s
  | Disconnected c => disconnected c s
  | Close c => onClose c s
  end.

Definition run (s : State) (es : list Event) : State := foldl step s es.

End PushServer.

(** ** Server-sent events *)
Module SSE.

Section Server.

(** JavaScript numbers of the payloads (prices, percentages, progress)
    are stored and forwarded, never inspected by the code below. *)
Context {number : Type}.

Record StockPrice := mkStock {
  symbol : string;
  price : number;
  change : number;
  changePercent : number;
  timestamp : Z
}.

Inductive JobStatus := running | completed | failed.

Record JobProgress := mkJobProgress {
  jobId : string;
  progress : number;
  status : JobStatus;
  message : string
}.

(** [SSEEvent.data]: a string or a record. *)
Inductive Data :=
| DString (text : string)
| DConnection (message clientId timestamp : string)
| DStock (stock : StockPrice)
| DJob (job : JobProgress)
| DRecord (fields : list (string * string)).

Record SSEEvent := mkEvent {
  id : option string;
  type : option string;
  data : Data
}.

(** What [res.write] puts on the wire. *)
Inductive Chunk :=
| IdLine (id : string)            (* id: ...\n *)
| EventLine (type : string)       (* event: ...\n *)
| DataLine (data : Data)          (* data: ...\n\n *)
| ErrorLine                       (* data: {"error": "Failed to send event: ..."}\n\n *)
| Heartbeat.                      (* : heartbeat\n\n *)

(** An [express.Response] held open as an event stream. *)
Record Response := mkResponse {
  writableEnded : bool;
  writeThrows : bool;             (* [res.write] raises on this stream *)
  written : list Chunk
}.

(** [Map] objects keep insertion order. *)
Definition JsMap (V : Type) := list (string * V).

Definition map_set {V} (k : string) (v : V) (m : JsMap V) : JsMap V :=
  if bool_decide (k ∈ m.*1)
  then (λ kv, if decide (kv.1 = k) then (k, v) else kv) <$> m
  else m ++ [(k, v)].

Definition map_delete {V} (k : string) (m : JsMap V) : JsMap V :=
  filter (λ kv, kv.1 ≠ k) m.

Record State := mkState {
  connectedClients : JsMap nat;      (* client id ↦ reference of its response *)
  stockPrices : JsMap StockPrice;
  jobProgresses : JsMap JobProgress;
  heap : gmap nat Response;          (* the response objects, by reference *)
  nextRes : nat;
  heartbeats : gset nat              (* responses with a live heartbeat interval *)
}.

Definition init : State := mkState [] [] [] ∅ 0 ∅.

Definition set_connectedClients (f : JsMap nat → JsMap nat) (s : State) : State :=
  mkState (f (connectedClients s)) (stockPrices s) (jobProgresses s)
          (heap s) (nextRes s) (heartbeats s).
Definition set_heap (f : gmap nat Response → gmap nat Response) (s : State) : State :=
  mkState (connectedClients s) (stockPrices s) (jobProgresses s)
          (f (heap s)) (nextRes s) (heartbeats s).

(** A statement either completes or raises; both leave a state behind. *)
Inductive Outcome := Done (s : State) | Thrown (s : State).

Definition state_of (o : Outcome) : State :=
  match o with Done s | Thrown s => s end.

Definition seq (o : Outcome) (k : State → Outcome) : Outcome :=
  match o with Done s => k s | Thrown s => Thrown s end.

(** [try { body } catch { handler }] *)
Definition try_catch (o : Outcome) (handler : State → Outcome) : Outcome :=
  match o with Done s => Done s | Thrown s => handler s end.

(** [res.write(chunk)] *)
Definition write (r : nat) (c : Chunk) (s : State) : Outcome :=
  match heap s !! r with
  | None => Thrown s
  | Some resp =>
      if writeThrows resp then Thrown s
      else Done (set_heap (<[r := mkResponse (writableEnded resp) (writeThrows resp)
                                             (written resp ++ [c])]>) s)
  end.

(** A string is truthy when it is not empty. *)
Definition truthy (o : option string) : option string :=
  match o with
  | Some x => if decide (x = "") then None else Some x
  | None => None
  end.

(** [sendSSEEvent]; the payloads are serialisable, so [JSON.stringify]
    does not raise. *)
Definition sendSSEEvent (r : nat) (event : SSEEvent) (s : State) : Outcome :=
  try_catch
    (seq (match truthy (id event) with
          | Some i => write r (IdLine i) s
          | None => Done s
          end) (λ s1,
     seq (match truthy (type event) with
          | Some t => write r (EventLine t) s1
          | None => Done s1
          end) (λ s2,
     write r (DataLine (data event)) s2)))
    (λ s', write r ErrorLine s').

Definition ended (s : State) (r : nat) : bool :=
  match heap s !! r with
  | Some resp => writableEnded resp
  | None => true
  end.

(** The callback of the [forEach] of [broadcastToAllClients]. *)
Definition broadcastOne (event : SSEEvent) (s : State) (entry : string * nat) : State :=
  let '(clientId, clientRes) := entry in
  state_of
    (try_catch
       (if negb (ended s clientRes)
        then sendSSEEvent clientRes event s
        else Done (set_connectedClients (map_delete clientId) s))
       (λ s', Done (set_connectedClients (map_delete clientId) s'))).

(** [broadcastToAllClients]; the callback deletes at most the entry it
    is visiting, so the loop visits the entries present at the start. *)
Definition broadcastToAllClients (event : SSEEvent) (s : State) : State :=
  foldl (broadcastOne event) s (connectedClients s).

Definition stockEvent (now : Z) (stock : StockPrice) : SSEEvent :=
  mkEvent (Some ("stock_" +:+ symbol stock +:+ "_" +:+ pretty now))
          (Some "stock_price") (DStock stock).

Definition jobEvent (now : Z) (job : JobProgress) : SSEEvent :=
  mkEvent (Some ("job_" +:+ jobId job +:+ "_" +:+ pretty now))
          (Some "job_progress") (DJob job).

(** [xs.forEach((x) => sendSSEEvent(res, ev x))] *)
Definition sendEach {V} (ev : V → SSEEvent) (r : nat) (m : JsMap V) (s : State) : Outcome :=
  foldl (λ o kv, seq o (sendSSEEvent r (ev kv.2))) (Done s) m.

(** [sendCurrentStockPrices] *)
Definition sendCurrentStockPrices (now : Z) (r : nat) (s : State) : Outcome :=
  sendEach (stockEvent now) r (stockPrices s) s.

(** [sendCurrentJobs] *)
Definition sendCurrentJobs (now : Z) (r : nat) (s : State) : Outcome :=
  sendEach (jobEvent now) r (jobProgresses s) s.

Definition welcomeEvent (clientId iso : string) : SSEEvent :=
  mkEvent (Some clientId) (Some "connection")
          (DConnection "Connected to SSE stream successfully!" clientId iso).

(** [app.get('/events')]: [clientId] is minted from the clock and a
    random number, [iso] is the clock as an ISO string, and the response
    object of the request is fresh.  An exception leaves the handler. *)
Definition events (clientId iso : string) (now : Z) (s : State) : Outcome :=
  let r := nextRes s in
  let s0 := mkState (connectedClients s) (stockPrices s) (jobProgresses s)
                    (<[r := mkResponse false false []]> (heap s)) (S r)
                    (heartbeats s) in
  seq (sendSSEEvent r (welcomeEvent clientId iso) s0) (λ s1,
  let s2 := set_connectedClients (map_set clientId r) s1 in
  seq (sendCurrentStockPrices now r s2) (λ s3,
  seq (sendCurrentJobs now r s3) (λ s4,
  Done (mkState (connectedClients s4) (stockPrices s4) (jobProgresses s4)
                (heap s4) (nextRes s4) ({[r]} ∪ heartbeats s4))))).

(** The two [req.on('close')] listeners of the request that minted
    [clientId] and owns the response [r]. *)
Definition onClose (clientId : string) (r : nat) (s : State) : State :=
  mkState (map_delete clientId (connectedClients s)) (stockPrices s)
          (jobProgresses s) (heap s) (nextRes s) (heartbeats s ∖ {[r]}).

(** The callback of the heartbeat interval of the response [r]. *)
Definition heartbeat (r : nat) (s : State) : State :=
  if bool_decide (r ∈ heartbeats s) then
    if ended s r then
      mkState (connectedClients s) (stockPrices s) (jobProgresses s)
              (heap s) (nextRes s) (heartbeats s ∖ {[r]})
    else state_of (write r Heartbeat s)
  else s.

(** The stock update of [/simulate/stock-update] and of the automatic
    simulation, once the new quote is computed. *)
Definition stockUpdate (idPrefix : string) (updatedStock : StockPrice) (now : Z) (s : State) : State :=
  let s1 := mkState (connectedClients s)
                    (map_set (symbol updatedStock) updatedStock (stockPrices s))
                    (jobProgresses s) (heap s) (nextRes s) (heartbeats s) in
  broadcastToAllClients
    (mkEvent (Some (idPrefix +:+ symbol updatedStock +:+ "_" +:+ pretty now))
             (Some "stock_price") (DStock updatedStock)) s1.

(** [jobProgresses.set(jobId, job)] followed by the broadcast of the
    job, as [/simulate/start-job] and its interval do. *)
Definition jobUpdate (evId : string) (job : JobProgress) (s : State) : State :=
  let s1 := mkState (connectedClients s) (stockPrices s)
                    (map_set (jobId job) job (jobProgresses s))
                    (heap s) (nextRes s) (heartbeats s) in
  broadcastToAllClients (mkEvent (Some evId) (Some "job_progress") (DJob job)) s1.

(** The transport ends or breaks a stream. *)
Definition endStream (r : nat) (s : State) : State :=
  set_heap (alter (λ resp, mkResponse true (writeThrows resp) (written resp)) r) s.
Definition breakStream (r : nat) (s : State) : State :=
  set_heap (alter (λ resp, mkResponse (writableEnded resp) true (written resp)) r) s.

Inductive Event :=
| Connect (clientId iso : string) (now : Z)
| ReqClose (clientId : string) (r : nat)
| HeartbeatDue (r : nat)
| Broadcast (event : SSEEvent)
| StockUpdate (idPrefix : string) (updatedStock : StockPrice) (now : Z)
| JobUpdate (evId : string) (job : JobProgress)
| StreamEnds (r : nat)
| StreamBreaks (r : nat).

Definition step (s : State) (e : Event) : State :=
  match e with
  | Connect clientId iso now => state_of (events clientId iso now s)
  | ReqClose clientId r => onClose clientId r s
  | HeartbeatDue r => heartbeat r s
  | Broadcast event => broadcastToAllClients event s
  | StockUpdate idPrefix updatedStock now => stockUpdate idPrefix updatedStock now s
  | JobUpdate evId job => jobUpdate evId job s
  | StreamEnds r => endStream r s
  | StreamBreaks r => breakStream r s
  end.

Definition run (s : State) (es : list Event) : State := foldl step s es.

(** What was written to the response [r] so far. *)
Definition writtenTo (s : State) (r : nat) : list Chunk :=
  match heap s !! r with
  | Some resp => written resp
  | None => []
  end.

(** The frames [sendSSEEvent] writes for an event on a healthy stream. *)
Definition frames (event : SSEEvent) : list Chunk :=
  match truthy (id event) with Some i => [IdLine i] | None => [] end ++
  match truthy (type event) with Some t => [EventLine t] | None => [] end ++
  [DataLine (data event)].

End Server.

Arguments StockPrice : clear implicits.
Arguments JobProgress : clear implicits.
Arguments Data : clear implicits.
Arguments SSEEvent : clear implicits.
Arguments Chunk : clear implicits.
Arguments Response : clear implicits.
Arguments State : clear implicits.
Arguments Outcome : clear implicits.
Arguments Event : clear implicits.

End SSE.

(** ** Server-sent events: the simulation endpoints *)
Module SSESimulation.
Import SSE.

Section Simulation.
Context {number : Type}.

(** [Map.prototype.get]; [undefined] reads as [None]. *)
Fixpoint map_get {V} (k : string) (m : JsMap V) : option V :=
  match m with
  | [] => None
  | (k', v) :: m' => if decide (k' = k) then Some v else map_get k m'
  end.

Definition set_stockPrices
    (f : JsMap (StockPrice number) → JsMap (StockPrice number))
    (s : State number) : State number :=
  mkState (connectedClients s) (f (stockPrices s)) (jobProgresses s)
          (heap s) (nextRes s) (heartbeats s).

(** [initializeStocks]; [price symbol] is the value of
    [Math.random() * 1000 + 100] drawn for [symbol], [zero] the number 0
    and [now] the clock. *)
Definition initializeStocks (price : string → number) (zero : number) (now : Z)
    (s : State number) : State number :=
  foldl (λ acc symbol,
           set_stockPrices
             (map_set symbol (mkStock symbol (price symbol) zero zero now)) acc)
        s ["AAPL"; "GOOGL"; "MSFT"; "TSLA"; "AMZN"].

(** The rounded price, change and change percentage that an update
    computes from the current quote and a draw of [Math.random()]. *)
Definition Quote : Type := StockPrice number → number * number * number.

Definition updatedStock (quote : Quote) (randomSymbol : string)
    (currentStock : StockPrice number) (stamp : Z) : StockPrice number :=
  let '(newPrice, newChange, newPercent) := quote currentStock in
  mkStock randomSymbol newPrice newChange newPercent stamp.

(** [symbols[Math.floor(Math.random() * symbols.length)]] followed by
    [stockPrices.get(randomSymbol)]; [pick] is the index drawn. *)
Definition pickStock (pick : nat) (s : State number) : option (string * StockPrice number) :=
  match (stockPrices s).*1 !! pick with
  | None => None
  | Some randomSymbol =>
      match map_get randomSymbol (stockPrices s) with
      | None => None
      | Some currentStock => Some (randomSymbol, currentStock)
      end
  end.

(** The replies of [/simulate/stock-update]: 404, or the updated quote. *)
Inductive Reply :=
| StockNotFound
| Success (updated : StockPrice number).

(** [app.post('/simulate/stock-update')] *)
Definition simulateStockUpdate (pick : nat) (quote : Quote) (stamp now : Z)
    (s : State number) : State number * Reply :=
  match pickStock pick s with
  | None => (s, StockNotFound)
  | Some (randomSymbol, currentStock) =>
      let updated := updatedStock quote randomSymbol currentStock stamp in
      (stockUpdate "stock_" updated now s, Success updated)
  end.

(** The callback of the first interval of [startAutoSimulation]. *)
Definition autoStockUpdate (pick : nat) (quote : Quote) (stamp now : Z)
    (s : State number) : State number :=
  match connectedClients s with
  | [] => s
  | _ :: _ =>
      match pickStock pick s with
      | None => s
      | Some (randomSymbol, currentStock) =>
          stockUpdate "auto_stock_" (updatedStock quote randomSymbol currentStock stamp) now s
      end
  end.

(** The table of [/simulate/notification]: event type and payload. *)
Definition notificationTable : list (string * list (string * string)) :=
  [ ("user_login", [("user", "Alice"); ("action", "logged in")]);
    ("new_message", [("from", "Bob"); ("message", "Hello everyone!")]);
    ("system_alert", [("level", "info"); ("message", "System maintenance in 1 hour")]);
    ("user_login", [("user", "Charlie"); ("action", "logged out")]) ].

(** The table of the second interval of [startAutoSimulation]; [n] is
    the number drawn for the user name. *)
Definition autoTable (n : nat) : list (string * list (string * string)) :=
  [ ("system_alert", [("level", "info"); ("message", "Auto-generated system update")]);
    ("user_login", [("user", "User_" +:+ pretty n); ("action", "logged in")]) ].

(** The event built from an entry of a table: its payload is the
    entry's, with the clock as [timestamp]. *)
Definition notificationEvent (evId : string) (entry : string * list (string * string))
    (iso : string) : SSEEvent number :=
  mkEvent (Some evId) (Some entry.1) (DRecord (entry.2 ++ [("timestamp", iso)])).

(** [app.post('/simulate/notification')]; [pick] is the index drawn,
    which is below the length of the table.  The reply carries the event
    that was sent. *)
Definition simulateNotification (pick : nat) (iso : string) (now : Z)
    (s : State number) : option (State number * SSEEvent number) :=
  match notificationTable !! pick with
  | None => None
  | Some entry =>
      let event := notificationEvent ("notification_" +:+ pretty now) entry iso in
      Some (broadcastToAllClients event s, event)
  end.

(** The callback of the second interval of [startAutoSimulation]. *)
Definition autoNotification (pick n : nat) (iso : string) (now : Z)
    (s : State number) : option (State number) :=
  match connectedClients s with
  | [] => Some s
  | _ :: _ =>
      match autoTable n !! pick with
      | None => None
      | Some randomEvent =>
          Some (broadcastToAllClients
                  (notificationEvent ("auto_" +:+ randomEvent.1 +:+ "_" +:+ pretty now)
                                     randomEvent iso) s)
      end
  end.

End Simulation.

Arguments Quote : clear implicits.
Arguments Reply : clear implicits.

End SSESimulation.

(** ** Server-sent events: the page that listens *)
Module SSEClient.
Import SSE.

Section Client.
Context {number : Type}.

(** The state of the page: [eventCount], the maps [stocks] and [jobs],
    and the children of the [#notifications] element, first child first,
    each with its message and its class. *)
Record Page := mkPage {
  eventCount : nat;
  stocks : JsMap (StockPrice number);
  jobs : JsMap (JobProgress number);
  notifications : list (string * string)
}.

Definition blank : Page := mkPage 0 [] [] [].

(** [updateEventCount] *)
Definition updateEventCount (p : Page) : Page :=
  mkPage (S (eventCount p)) (stocks p) (jobs p) (notifications p).

(** The loop [while (container.children.length > 10)
    container.removeChild(container.lastChild)], run for at most [fuel]
    turns. *)
Fixpoint keepTen {A} (fuel : nat) (children : list A) : list A :=
  match fuel with
  | O => children
  | S fuel' =>
      if decide (10 < length children)%nat
      then keepTen fuel' (removelast children)
      else children
  end.

(** [addNotification]; every turn of its loop removes a child, so as
    many turns as there are children are enough. *)
Definition addNotification (message type : string) (p : Page) : Page :=
  let children := (message, type) :: notifications p in
  mkPage (eventCount p) (stocks p) (jobs p) (keepTen (length children) children).

(** [data.name] inside a template literal. *)
Definition field (name : string) (fields : list (string * string)) : string :=
  match list_find (λ kv, kv.1 = name) fields with
  | Some (_, kv) => kv.2
  | None => "undefined"
  end.

(** The listeners of [connectSSE].  A listener yields [None] on a
    payload of another shape than the server sends under its event
    type. *)
Definition onMessage (p : Page) : Page := updateEventCount p.

Definition onConnection (d : Data number) (p : Page) : option Page :=
  match d with
  | DConnection _ _ _ => Some (updateEventCount p)
  | _ => None
  end.

Definition onStockPrice (d : Data number) (p : Page) : option Page :=
  match d with
  | DStock stock =>
      Some (updateEventCount
              (mkPage (eventCount p) (map_set (symbol stock) stock (stocks p))
                      (jobs p) (notifications p)))
  | _ => None
  end.

Definition onJobProgress (d : Data number) (p : Page) : option Page :=
  match d with
  | DJob job =>
      Some (updateEventCount
              (mkPage (eventCount p) (stocks p)
                      (map_set (jobId job) job (jobs p)) (notifications p)))
  | _ => None
  end.

Definition onUserLogin (d : Data number) (p : Page) : option Page :=
  match d with
  | DRecord fields =>
      Some (updateEventCount
              (addNotification ("👤 " +:+ field "user" fields +:+ " " +:+
                                field "action" fields) "user" p))
  | _ => None
  end.

Definition onNewMessage (d : Data number) (p : Page) : option Page :=
  match d with
  | DRecord fields =>
      Some (updateEventCount
              (addNotification ("💬 " +:+ field "from" fields +:+ ": " +:+
                                field "message" fields) "message" p))
  | _ => None
  end.

Definition onSystemAlert (d : Data number) (p : Page) : option Page :=
  match d with
  | DRecord fields =>
      Some (updateEventCount
              (addNotification ("⚠️ " +:+ field "message" fields) "alert" p))
  | _ => None
  end.

(** The browser's [EventSource] hands an event to the listener of its
    type, to [onmessage] when the type is 'message' or was not named,
    and to nobody when no listener is registered for the type. *)
Definition listen (type : option string) (d : Data number) (p : Page) : option Page :=
  match type with
  | None => Some (onMessage p)
  | Some t =>
      if decide (t = "message") then Some (onMessage p)
      else if decide (t = "connection") then onConnection d p
      else if decide (t = "stock_price") then onStockPrice d p
      else if decide (t = "job_progress") then onJobProgress d p
      else if decide (t = "user_login") then onUserLogin d p
      else if decide (t = "new_message") then onNewMessage d p
      else if decide (t = "system_alert") then onSystemAlert d p
      else Some p
  end.

(** The browser reads the stream chunk by chunk (ids, types and
    serialised payloads hold no line break): an [event:] line names the
    type of the pending event, a [data:] line with its blank line
    dispatches the pending event, an [id:] line dispatches nothing, and
    the blank line of a comment drops a pending type.  The error line of
    [sendSSEEvent] is a [data:] line whose payload has the one field
    [error]. *)
Definition receive (st : option string * Page) (c : Chunk number) :
    option (option string * Page) :=
  let '(pending, p) := st in
  match c with
  | IdLine _ => Some (pending, p)
  | EventLine t => Some (Some t, p)
  | DataLine d =>
      match listen pending d p with
      | Some p' => Some (None, p')
      | None => None
      end
  | ErrorLine =>
      match listen pending (DRecord [("error", "Failed to send event")]) p with
      | Some p' => Some (None, p')
      | None => None
      end
  | Heartbeat => Some (None, p)
  end.

Definition receiveAll (chunks : list (Chunk number)) (st : option string * Page) :
    option (option string * Page) :=
  foldl (λ o c, match o with Some st' => receive st' c | None => None end)
        (Some st) chunks.

End Client.

Arguments Page : clear implicits.

End SSEClient.

(** ** Debounce *)
Module Debounce.

Section Debounced.
(** What the debounced function is called with. *)
Context {Args : Type}.

(** The closure that one call of [debounce(func, waitTime)] creates, the
    timers it has armed and the calls of [func] so far. *)
Record State := mkState {
  timeout : option nat;        (* the variable [timeout]; [None] while it is undefined *)
  timers : gmap nat Args;      (* armed timers: each will call [func] with these arguments *)
  nextTimer : nat;             (* next handle [setTimeout] returns *)
  invoked : list Args          (* the calls of [func], oldest first *)
}.

Definition init : State := mkState None ∅ 0 [].

Definition clearTimeout (t : nat) (s : State) : State :=
  mkState (timeout s) (delete t (timers s)) (nextTimer s) (invoked s).

(** The function that [debounce] returns; a timer handle is truthy. *)
Definition debounced (args : Args) (s : State) : State :=
  let s1 := match timeout s with
            | Some t => clearTimeout t s
            | None => s
            end in
  mkState (Some (nextTimer s1)) (<[nextTimer s1 := args]> (timers s1))
          (S (nextTimer s1)) (invoked s1).

(** The armed timer [t] expires and runs [() => func(...args)]. *)
Definition fire (t : nat) (s : State) : State :=
  match timers s !! t with
  | None => s
  | Some args =>
      mkState (timeout s) (delete t (timers s)) (nextTimer s) (invoked s ++ [args])
  end.

Inductive Event :=
| Call (args : Args)
| Fire (t : nat).

Definition step (s : State) (e : Event) : State :=
  match e with
  | Call args => debounced args s
  | Fire t => fire t s
  end.

Definition run (s : State) (es : list Event) : State := foldl step s es.

End Debounced.

Arguments State : clear implicits.
Arguments Event : clear implicits.

End Debounce.

(** ** The most frequent number *)
Module MostFrequent.

(** The variables of [findMostFrequentNumber]; the numbers are integers,
    so that two of them share a key of [frequency] exactly when they are
    equal. *)
Record Vars := mkVars {
  frequency : gmap Z nat;
  maxCount : nat;
  mostFrequentNum : option Z      (* [None] is [undefined] *)
}.

(** One turn of the loop, for [nums[i] = currentNum]. *)
Definition turn (v : Vars) (currentNum : Z) : Vars :=
  let frequency' :=
    match frequency v !! currentNum with
    | Some (S c) => <[currentNum := S (S c)]> (frequency v)
    | Some O | None => <[currentNum := 1%nat]> (frequency v)
    end in
  let count := default 0%nat (frequency' !! currentNum) in
  if decide (maxCount v < count)%nat
  then mkVars frequency' count (Some currentNum)
  else mkVars frequency' (maxCount v) (mostFrequentNum v).

Definition findMostFrequentNumber (nums : list Z) : option Z :=
  mostFrequentNum (foldl turn (mkVars ∅ 0 (head nums)) nums).

End MostFrequent.

(** * Properties *)

(** Closed decidable goals ([NoDup] of a concrete list, membership in a
    concrete set) are settled by evaluating their decision procedure. *)
Ltac by_decide := refine (bool_decide_unpack _ _); vm_compute; exact I.

(** ** Plain objects used as maps *)
Module JsObjectFacts.
Import JsObject.

Lemma get_own {V} key (own : gmap string V) v :
  own !! key = Some v → get key own = Own v.
Proof. unfold get. by intros ->. Qed.

Lemma get_inherited {V} key (own : gmap string V) :
  own !! key = None → key ∈ prototypeKeys → get key own = Inherited.
Proof. unfold get. intros -> Hin. by rewrite bool_decide_eq_true_2. Qed.

Lemma get_missing {V} key (own : gmap string V) :
  own !! key = None → key ∉ prototypeKeys → get key own = Missing.
Proof. unfold get. intros -> Hin. by rewrite bool_decide_eq_false_2. Qed.

(** [obj[key]] is [undefined] exactly for a key that is neither an own
    entry nor inherited. *)
Lemma get_Missing_iff {V} key (own : gmap string V) :
  get key own = Missing ↔ own !! key = None ∧ key ∉ prototypeKeys.
Proof.
  unfold get. destruct (own !! key) as [v|]; [split; [done|by intros [? _]]|].
  case_bool_decide; split; try done. by intros [_ ?].
Qed.

(** Minted ids start with [job_]; no inherited key does. *)
Lemma prototypeKeys_not_minted key rest :
  key = "job_" +:+ rest → key ∉ prototypeKeys.
Proof.
  intros -> Hin. unfold prototypeKeys in Hin.
  repeat (apply elem_of_cons in Hin as [Hin|Hin]; [discriminate Hin|]).
  inversion Hin.
Qed.

End JsObjectFacts.

(** ** Long polling *)
Module LongPollingFacts.
Import JsObject JsObjectFacts LongPolling.

(** States the server can be in. *)
Definition reachable (s : State) : Prop := ∃ es, s = run init es.

Lemma run_snoc s es e : run s (es ++ [e]) = step (run s es) e.
Proof. unfold run. by rewrite foldl_app. Qed.

Lemma reachable_ind (P : State → Prop) :
  P init → (∀ s e, reachable s → P s → P (step s e)) → ∀ s, reachable s → P s.
Proof.
  intros Hinit Hstep s [es ->].
  induction es as [|e es IH] using rev_ind; [done|].
  rewrite run_snoc. apply Hstep; [by exists es | done].
Qed.

Lemma removeWaitingClient_jobs j s : jobs (removeWaitingClient j s) = jobs s.
Proof. unfold removeWaitingClient. repeat case_match; done. Qed.

Lemma removeWaitingClient_sent j s : sent (removeWaitingClient j s) = sent s.
Proof. unfold removeWaitingClient. repeat case_match; done. Qed.

Lemma removeWaitingClient_timers j s t cb :
  timers (removeWaitingClient j s) !! t = Some cb → timers s !! t = Some cb.
Proof.
  unfold removeWaitingClient. repeat case_match; simpl; try done.
  intros Ht. by apply lookup_delete_Some in Ht as [_ ?].
Qed.

Lemma notify_fold_jobs j job l s :
  jobs (foldl (notifyOne j job) s l) = jobs s.
Proof. revert s. induction l as [|c l IH]; intros s; simpl; [done|]. by rewrite IH. Qed.

Lemma notify_fold_timers j job l s t cb :
  timers (foldl (notifyOne j job) s l) !! t = Some cb → timers s !! t = Some cb.
Proof.
  revert s. induction l as [|c l IH]; intros s; simpl; [done|].
  intros H. apply IH in H. simpl in H.
  by apply lookup_delete_Some in H as [_ ?].
Qed.

Lemma notifyWaitingClients_jobs j s : jobs (notifyWaitingClients j s) = jobs s.
Proof.
  unfold notifyWaitingClients. simpl. case_match; [|done]. apply notify_fold_jobs.
Qed.

Lemma notifyWaitingClients_timers j s t cb :
  timers (notifyWaitingClients j s) !! t = Some cb → timers s !! t = Some cb.
Proof.
  unfold notifyWaitingClients. simpl. case_match; [|done]. apply notify_fold_timers.
Qed.

#[local] Arguments notifyWaitingClients : simpl never.
#[local] Arguments removeWaitingClient : simpl never.

Lemma nextStage_jobs j k now s :
  jobs (nextStage j k now s) =
  match stages !! k with
  | Some (st, pr) => alter (applyStage j st pr now) j (jobs s)
  | None => jobs s
  end.
Proof.
  unfold nextStage. destruct (stages !! k) as [[st pr]|]; [|done].
  case_decide; cbn [jobs setTimeout]; by rewrite notifyWaitingClients_jobs.
Qed.

(** No handler or callback of the long-polling server removes a job. *)
Lemma step_keeps_jobs s e j :
  is_Some (jobs s !! j) → is_Some (jobs (step s e) !! j).
Proof.
  intros Hj. destruct e as [r j' now|r j' ls|t now|r]; simpl; [| | |done].
  - rewrite lookup_insert_is_Some. destruct (decide (j' = j)); auto.
  - unfold poll. repeat case_match; done.
  - unfold fire. destruct (timers s !! t) as [[j'|j' k|j' r]|]; [| | |done].
    + unfold processJob. simpl. case_match; done.
    + rewrite nextStage_jobs. simpl. destruct (stages !! k) as [[st pr]|]; [|done].
      by rewrite lookup_alter_is_Some.
    + unfold pollTimeout. case_match; simpl; rewrite removeWaitingClient_jobs; done.
Qed.

(** *** What a notification sends *)

Definition changedReply (j : string) (job : Job) : Response :=
  mkResponse 200
    (StatusChanged j (status job) (progress job) (result job) (lastUpdated job)).

Lemma notify_fold_sent j job l s :
  sent (foldl (notifyOne j job) s l) =
  sent s ++ ((λ client, (res client, changedReply j job)) <$> l).
Proof.
  revert s. induction l as [|c l IH]; intros s; cbn [foldl fmap list_fmap].
  - by rewrite app_nil_r.
  - rewrite IH. cbn. by rewrite <- app_assoc.
Qed.

(** [notifyWaitingClients] answers every waiter of the job, in the
    order of the waiting list, and takes them all off the list; it does
    not consult [lastKnownStatus]. *)
Lemma notifyWaitingClients_sent j s job :
  jobs s !! j = Some job →
  sent (notifyWaitingClients j s) =
  sent s ++ ((λ client, (res client, changedReply j job)) <$>
             filter (λ client, jobId client = j) (waitingClients s)).
Proof.
  intros Hjob. unfold notifyWaitingClients. cbn [sent set_waitingClients].
  rewrite Hjob. apply notify_fold_sent.
Qed.

Lemma notify_fold_waitingClients j job l s :
  waitingClients (foldl (notifyOne j job) s l) = waitingClients s.
Proof. revert s. induction l as [|c l IH]; intros s; cbn; [done|]. by rewrite IH. Qed.

Lemma notifyWaitingClients_waitingClients j s :
  waitingClients (notifyWaitingClients j s) =
  filter (λ client, jobId client ≠ j) (waitingClients s).
Proof.
  unfold notifyWaitingClients. cbn [waitingClients set_waitingClients].
  case_match; [|done]. by rewrite notify_fold_waitingClients.
Qed.

(** *** Requests the server has lost track of *)

(** The reply handle [r] is neither on the waiting list nor held by an
    armed poll timer. *)
Definition forgotten (r : Res) (s : State) : Prop :=
  (∀ w, w ∈ waitingClients s → res w ≠ r) ∧
  (∀ t j, timers s !! t ≠ Some (CbPollTimeout j r)).

(** The event is a new request that comes with the reply handle [r]. *)
Definition brings (r : Res) (e : Event) : Prop :=
  match e with
  | CreateJob r' _ _ | Poll r' _ _ => r' = r
  | Fire _ _ | ClientClose _ => False
  end.

Lemma filter_none {A} (P : A → Prop) `{!∀ x, Decision (P x)} (l : list A) :
  (∀ x, x ∈ l → ¬ P x) → filter P l = [].
Proof.
  induction l as [|x l IH]; intros Hl; [done|].
  rewrite filter_cons_False by (apply Hl; by left).
  apply IH. intros y Hy. apply Hl. by right.
Qed.

Lemma replies_json r r' c b s :
  r' ≠ r → replies r (json r' c b s) = replies r s.
Proof.
  intros Hne. unfold replies, json. cbn [sent].
  rewrite filter_app, filter_cons_False by done.
  by rewrite filter_nil, app_nil_r.
Qed.

Lemma replies_sent r s s' : sent s' = sent s → replies r s' = replies r s.
Proof. unfold replies. by intros ->. Qed.

Lemma removeWaitingClient_waitingClients j s w :
  w ∈ waitingClients (removeWaitingClient j s) → w ∈ waitingClients s.
Proof.
  unfold removeWaitingClient. repeat case_match; try done.
  cbn. intros Hw. eapply sublist_subseteq; [apply sublist_delete|done].
Qed.

Lemma forgotten_notify r j s :
  forgotten r s →
  forgotten r (notifyWaitingClients j s) ∧
  replies r (notifyWaitingClients j s) = replies r s.
Proof.
  intros [Hw Ht]. split; [split|].
  - intros w. rewrite notifyWaitingClients_waitingClients.
    intros Hin. apply list_elem_of_filter in Hin as [_ Hin]. by apply Hw.
  - intros t j' Hcb. apply notifyWaitingClients_timers in Hcb. by apply Ht in Hcb.
  - destruct (jobs s !! j) as [job|] eqn:Hjob.
    + unfold replies. rewrite (notifyWaitingClients_sent j s job Hjob).
      rewrite filter_app.
      assert (filter (λ p : Res * Response, p.1 = r)
                ((λ client, (res client, changedReply j job)) <$>
                 filter (λ client, jobId client = j) (waitingClients s)) = []) as ->;
        [|by rewrite app_nil_r].
      apply filter_none. intros p Hp.
      apply list_elem_of_fmap in Hp as (w & -> & Hin).
      apply list_elem_of_filter in Hin as [_ Hin]. cbn. by apply Hw.
    + apply replies_sent. unfold notifyWaitingClients. by rewrite Hjob.
Qed.

(** Once a request is forgotten, no step other than a new request with
    the same handle ever answers it. *)
Lemma forgotten_step r s e :
  forgotten r s → ¬ brings r e →
  forgotten r (step s e) ∧ replies r (step s e) = replies r s.
Proof.
  intros [Hw Ht] Hno.
  destruct e as [r' j now|r' j ls|t now|r']; cbn [step brings] in *.
  - unfold createJob. rewrite replies_json by done. split; [split|done].
    + done.
    + intros t j'. cbn. rewrite lookup_insert_Some. intros [[_ ?]|[_ Hcb]]; [done|].
      by apply Ht in Hcb.
  - unfold poll. destruct (decide (j = "")).
    { rewrite replies_json by done. done. }
    assert (∀ seen,
              forgotten r (set_waitingClients (λ l, l ++ [mkWaiting r' j seen (nextTimer s)])
                             (setTimeout (CbPollTimeout j r') s))) as Hpark.
    { intros seen. split.
      - intros w. cbn. intros Hin.
        apply elem_of_app in Hin as [Hin|Hin]; [by apply Hw|].
        apply list_elem_of_singleton in Hin as ->. done.
      - intros t j'. cbn. rewrite lookup_insert_Some. intros [[_ Heq]|[_ Hcb]].
        + by simplify_eq.
        + by apply Ht in Hcb. }
    destruct (get j (jobs s)) as [job| |]; [| |by rewrite replies_json by done].
    + destruct (hasJobStatusChanged job ls); [by rewrite replies_json by done|].
      split; [apply Hpark|done].
    + case_bool_decide; [by rewrite replies_json by done|].
      split; [apply Hpark|done].
  - unfold fire. destruct (timers s !! t) as [cb|] eqn:Hcb; [|done].
    assert (forgotten r (set_timers (delete t) s)) as Hforg.
    { split; [done|]. intros t' j'. cbn. rewrite lookup_delete_Some.
      intros [_ Hcb']. by apply Ht in Hcb'. }
    destruct cb as [j|j k|j r'].
    + unfold processJob. cbn [jobs set_timers]. case_match; [|done].
      split; [split|done]; [apply Hforg|].
      intros t' j'. cbn. rewrite lookup_insert_Some. intros [[_ ?]|[_ Hcb']]; [done|].
      apply lookup_delete_Some in Hcb' as [_ Hcb']. by apply Ht in Hcb'.
    + unfold nextStage. destruct (stages !! k) as [[st pr]|]; [|done].
      destruct (forgotten_notify r j
                  (set_jobs (alter (applyStage j st pr now) j) (set_timers (delete t) s)))
        as [[Hw' Ht'] Hrep]; [done|].
      case_decide; [|done].
      split; [split|done]; [done|].
      intros t' j'. cbn [timers setTimeout]. rewrite lookup_insert_Some.
      intros [[_ ?]|[_ Hcb']]; [done|]. by apply Ht' in Hcb'.
    + assert (r' ≠ r) as Hne by (intros ->; by apply Ht in Hcb).
      unfold pollTimeout.
      assert (forgotten r (removeWaitingClient j (set_timers (delete t) s))) as Hforg'.
      { destruct Hforg as [Hw' Ht']. split.
        - intros w Hin. apply removeWaitingClient_waitingClients in Hin. by apply Hw'.
        - intros t' j' Hcb'. apply removeWaitingClient_timers in Hcb'. by apply Ht' in Hcb'. }
      assert (replies r (removeWaitingClient j (set_timers (delete t) s)) = replies r s)
        as Hrep by (apply replies_sent; by rewrite removeWaitingClient_sent).
      case_match; [by rewrite replies_json|by rewrite replies_json|done].
  - done.
Qed.

Lemma forgotten_run r es s :
  forgotten r s → Forall (λ e, ¬ brings r e) es →
  replies r (run s es) = replies r s.
Proof.
  revert s. induction es as [|e es IH]; intros s Hforg Hes; [done|].
  apply Forall_cons in Hes as [He Hes].
  destruct (forgotten_step r s e Hforg He) as [Hforg' Hrep].
  cbn. unfold run in IH. by rewrite IH.
Qed.

(** *** The processing chain of a job *)

Definition job_of (cb : Callback) : string :=
  match cb with CbProcessJob j | CbNextStage j _ | CbPollTimeout j _ => j end.

(** [create-job] mints its id from the clock and a random number: an id
    the store does not hold yet. *)
Definition mints (s : State) (e : Event) : Prop :=
  match e with
  | CreateJob _ j _ => jobs s !! j = None
  | _ => True
  end.

(** A run in which every [create-job] mints a new id. *)
Fixpoint minting (s : State) (es : list Event) : Prop :=
  match es with
  | [] => True
  | e :: es => mints s e ∧ minting (step s e) es
  end.

Definition reachable_minting (s : State) : Prop :=
  ∃ es, minting init es ∧ s = run init es.

(** The timers of [create-job] and [processJob], as opposed to the poll
    deadlines. *)
Definition is_chain (cb : Callback) : Prop :=
  match cb with CbPollTimeout _ _ => False | _ => True end.

(** The progress a job has while the timer [cb] of its chain is armed. *)
Definition expects (cb : Callback) (job : Job) : Prop :=
  match cb with
  | CbProcessJob _ => progress job = 0%Z
  | CbNextStage _ k => progress job = (10 * Z.of_nat k)%Z ∧ (k < 10)%nat
  | CbPollTimeout _ _ => True
  end.

(** No timer of the processing chain of job [j] is armed. *)
Definition lone (j : string) (s : State) : Prop :=
  ∀ t cb, timers s !! t = Some cb → is_chain cb → job_of cb ≠ j.

(** Armed timers have handles that [setTimeout] gave out; a job has at
    most one timer of its chain armed, and its progress is the one of
    the stage before. *)
Definition chained (s : State) : Prop :=
  (∀ t cb, timers s !! t = Some cb → (t < nextTimer s)%nat) ∧
  (∀ t cb, timers s !! t = Some cb → is_chain cb →
           ∃ job, jobs s !! job_of cb = Some job ∧ expects cb job) ∧
  (∀ t t' cb cb', timers s !! t = Some cb → timers s !! t' = Some cb' →
                  is_chain cb → is_chain cb' → job_of cb = job_of cb' → t = t').

(** The replies a step sends. *)
Definition news (s : State) (e : Event) : list (Res * Response) :=
  drop (length (sent s)) (sent (step s e)).

(** The reply says [statusChanged: true] for job [j]. *)
Definition changed_for (j : string) (rsp : Response) : Prop :=
  ∃ st pr rs upd, body rsp = StatusChanged j st pr rs upd.

Lemma minting_snoc s es e :
  minting s (es ++ [e]) ↔ minting s es ∧ mints (run s es) e.
Proof.
  revert s. induction es as [|e' es IH]; intros s; cbn [app minting].
  - cbn. tauto.
  - rewrite IH. cbn. tauto.
Qed.

Lemma reachable_minting_ind (P : State → Prop) :
  P init →
  (∀ s e, reachable_minting s → mints s e → P s → P (step s e)) →
  ∀ s, reachable_minting s → P s.
Proof.
  intros Hinit Hstep s (es & Hes & ->).
  induction es as [|e es IH] using rev_ind; [done|].
  apply minting_snoc in Hes as [Hes He].
  rewrite run_snoc. apply Hstep; [by exists es|done|by apply IH].
Qed.

Lemma stages_row k st pr :
  stages !! k = Some (st, pr) → pr = (10 * Z.of_nat (S k))%Z ∧ (k < 10)%nat.
Proof.
  do 10 (destruct k as [|k]; [intros [= <- <-]; split; [done|lia]|]).
  intros Hk. discriminate Hk.
Qed.

Lemma notify_fold_nextTimer j job l s :
  nextTimer (foldl (notifyOne j job) s l) = nextTimer s.
Proof. revert s. induction l as [|c l IH]; intros s; cbn; [done|]. by rewrite IH. Qed.

Lemma notifyWaitingClients_nextTimer j s :
  nextTimer (notifyWaitingClients j s) = nextTimer s.
Proof.
  unfold notifyWaitingClients. cbn [nextTimer set_waitingClients].
  case_match; [|done]. apply notify_fold_nextTimer.
Qed.

Lemma removeWaitingClient_nextTimer j s :
  nextTimer (removeWaitingClient j s) = nextTimer s.
Proof. unfold removeWaitingClient. repeat case_match; done. Qed.

Lemma chained_sub s s' :
  (nextTimer s ≤ nextTimer s')%nat → jobs s' = jobs s →
  (∀ t cb, timers s' !! t = Some cb → timers s !! t = Some cb) →
  chained s → chained s'.
Proof.
  intros Hn Hj Hsub (Hlt & Hexp & Huniq). unfold chained. rewrite Hj. split_and!.
  - intros t cb Hl. apply Hsub, Hlt in Hl. lia.
  - intros t cb Hl. apply (Hexp t cb). by apply Hsub.
  - intros t t' cb cb' Hl Hl'. apply Huniq; by apply Hsub.
Qed.

Lemma lone_sub j s s' :
  (∀ t cb, timers s' !! t = Some cb → timers s !! t = Some cb) →
  lone j s → lone j s'.
Proof. intros Hsub Hlone t cb Hl. apply (Hlone t cb). by apply Hsub. Qed.

Lemma chained_setTimeout cb s :
  (is_chain cb →
   lone (job_of cb) s ∧ ∃ job, jobs s !! job_of cb = Some job ∧ expects cb job) →
  chained s → chained (setTimeout cb s).
Proof.
  intros Hcb (Hlt & Hexp & Huniq). unfold chained.
  cbn [timers jobs nextTimer setTimeout]. split_and!.
  - intros t cb' Hl. apply lookup_insert_Some in Hl as [[<- _]|[_ Hl]]; [lia|].
    apply Hlt in Hl. lia.
  - intros t cb' Hl Hch. apply lookup_insert_Some in Hl as [[_ <-]|[_ Hl]].
    + by destruct (Hcb Hch) as [_ ?].
    + by apply (Hexp t).
  - intros t t' c c' Hl Hl' Hc Hc' Heq.
    apply lookup_insert_Some in Hl as [[<- <-]|[Hne Hl]];
      apply lookup_insert_Some in Hl' as [[<- <-]|[Hne' Hl']].
    + done.
    + exfalso. destruct (Hcb Hc) as [Hlone _]. by apply (Hlone t' c' Hl' Hc').
    + exfalso. destruct (Hcb Hc') as [Hlone _]. by apply (Hlone t c Hl Hc).
    + by apply (Huniq t t' c c').
Qed.

Lemma chained_fired s t cb :
  timers s !! t = Some cb → chained s →
  chained (set_timers (delete t) s) ∧
  (is_chain cb → lone (job_of cb) (set_timers (delete t) s)).
Proof.
  intros Ht Hch. split.
  - apply (chained_sub s); [done|done| |done].
    intros t' cb' Hl. cbn in Hl. by apply lookup_delete_Some in Hl as [_ ?].
  - intros Hc t' cb' Hl Hc' Heq. cbn in Hl. apply lookup_delete_Some in Hl as [Hne Hl].
    destruct Hch as (_ & _ & Huniq). apply Hne. by apply (Huniq t t' cb cb').
Qed.

Lemma chained_alter f j s :
  lone j s → chained s → chained (set_jobs (alter f j) s).
Proof.
  intros Hlone (Hlt & Hexp & Huniq). unfold chained.
  cbn [timers jobs nextTimer set_jobs]. split_and!; [done| |done].
  intros t cb Hl Hc. destruct (Hexp t cb Hl Hc) as (job & Hjob & He).
  exists job. split; [|done]. rewrite lookup_alter_ne; [done|].
  intros ->. by apply (Hlone t cb Hl Hc).
Qed.

Lemma chained_insert j job s :
  jobs s !! j = None → chained s →
  chained (set_jobs (<[j := job]>) s) ∧ lone j (set_jobs (<[j := job]>) s).
Proof.
  intros Hnone (Hlt & Hexp & Huniq).
  assert (lone j s) as Hlone.
  { intros t cb Hl Hc Heq. destruct (Hexp t cb Hl Hc) as (job' & Hjob' & _).
    rewrite Heq in Hjob'. congruence. }
  split; [|exact Hlone]. unfold chained.
  cbn [timers jobs nextTimer set_jobs]. split_and!; [done| |done].
  intros t cb Hl Hc. destruct (Hexp t cb Hl Hc) as (job' & Hjob' & He).
  exists job'. split; [|done]. rewrite lookup_insert_ne; [done|].
  intros ->. by apply (Hlone t cb Hl Hc).
Qed.

Lemma chained_json r c b s : chained s → chained (json r c b s).
Proof. done. Qed.

Lemma chained_park r j seen s :
  chained s →
  chained (set_waitingClients (λ l, l ++ [mkWaiting r j seen (nextTimer s)])
             (setTimeout (CbPollTimeout j r) s)).
Proof.
  intros Hch. apply (chained_sub (setTimeout (CbPollTimeout j r) s)); [done|done|done|].
  apply chained_setTimeout; [|done]. intros [].
Qed.

Lemma chained_step s e : mints s e → chained s → chained (step s e).
Proof.
  intros Hmint Hch. destruct e as [r j now|r j ls|t now|r]; cbn [step mints] in *;
    [| | |done].
  - unfold createJob. apply chained_json.
    destruct (chained_insert j (mkJob j pending 0 None now) s Hmint Hch) as [Hch' Hlone].
    apply chained_setTimeout; [|done]. intros _. split; [exact Hlone|].
    eexists. cbn. by rewrite lookup_insert_eq.
  - unfold poll. destruct (decide (j = "")); [by apply chained_json|].
    destruct (get j (jobs s)) as [job| |]; [| |by apply chained_json].
    + destruct (hasJobStatusChanged job ls); [by apply chained_json|].
      by apply chained_park.
    + case_bool_decide; [by apply chained_json|]. by apply chained_park.
  - unfold fire. destruct (timers s !! t) as [cb|] eqn:Hcb; [|done].
    destruct (chained_fired s t cb Hcb Hch) as [Hch1 Hlone1].
    assert (is_chain cb → ∃ job, jobs s !! job_of cb = Some job ∧ expects cb job) as Hjob
      by (destruct Hch as (_ & Hexp & _); by apply (Hexp t)).
    destruct cb as [j|j k|j r]; cbn [is_chain job_of expects] in *.
    + destruct Hjob as (job & Hjob & Hpr); [done|].
      unfold processJob. cbn [jobs set_timers]. rewrite Hjob.
      apply chained_setTimeout; [|done]. intros _. split; [by apply Hlone1|].
      exists job. cbn. split; [done|]. split; [lia|lia].
    + destruct Hjob as (job & Hjob & Hpr & Hk); [done|].
      unfold nextStage. destruct (stages !! k) as [[st pr]|] eqn:Hrow; [|done].
      apply stages_row in Hrow as [-> _].
      set (s1 := set_jobs (alter (applyStage j st (10 * Z.of_nat (S k)) now) j)
                   (set_timers (delete t) s)).
      assert (chained s1) as Hs1 by (apply chained_alter; [by apply Hlone1|done]).
      assert (lone j s1) as Hl1 by (by apply Hlone1).
      assert (chained (notifyWaitingClients j s1)) as Hs2.
      { apply (chained_sub s1); [|apply notifyWaitingClients_jobs| |done].
        - by rewrite notifyWaitingClients_nextTimer.
        - intros t' cb'. apply notifyWaitingClients_timers. }
      case_decide as Hmore; [|done].
      apply chained_setTimeout; [|done]. intros _. split.
      * apply (lone_sub j s1); [|done]. intros t' cb'. apply notifyWaitingClients_timers.
      * rewrite notifyWaitingClients_jobs. subst s1. cbn [job_of jobs set_jobs set_timers].
        rewrite lookup_alter_eq, Hjob. eexists. split; [done|]. cbn.
        split; [done|]. cbn in Hmore. lia.
    + unfold pollTimeout.
      assert (chained (removeWaitingClient j (set_timers (delete t) s))) as Hs1.
      { apply (chained_sub (set_timers (delete t) s));
          [|apply removeWaitingClient_jobs| |done].
        - by rewrite removeWaitingClient_nextTimer.
        - intros t' cb'. apply removeWaitingClient_timers. }
      case_match; [by apply chained_json|by apply chained_json|done].
Qed.

Lemma reachable_chained s : reachable_minting s → chained s.
Proof.
  revert s. apply reachable_minting_ind.
  - unfold chained, init. cbn [timers]. split_and!.
    + intros t cb Hl. rewrite lookup_empty in Hl. discriminate Hl.
    + intros t cb Hl. rewrite lookup_empty in Hl. discriminate Hl.
    + intros t t' cb cb' Hl. rewrite lookup_empty in Hl. discriminate Hl.
  - intros s e _ He Hch. by apply chained_step.
Qed.

(** *** What a step sends, and to whom *)

Lemma news_app s e l : sent (step s e) = sent s ++ l → news s e = l.
Proof. unfold news. intros ->. by rewrite drop_app_length. Qed.

Lemma quiet_json j s s1 r c b :
  sent s1 = sent s → (∀ st pr rs upd, b ≠ StatusChanged j st pr rs upd) →
  ∀ r' rsp, (r', rsp) ∈ drop (length (sent s)) (sent (json r c b s1)) →
            ¬ changed_for j rsp.
Proof.
  intros Hs Hb r' rsp. cbn [sent json]. rewrite Hs, drop_app_length.
  intros Hin (st & pr & rs & upd & Hbody).
  apply list_elem_of_singleton in Hin as [= _ ->]. cbn in Hbody. by eapply Hb.
Qed.

Lemma quiet_same j s s1 :
  sent s1 = sent s →
  ∀ r' rsp, (r', rsp) ∈ drop (length (sent s)) (sent s1) → ¬ changed_for j rsp.
Proof. intros -> r' rsp. rewrite drop_all. intros Hin. by apply elem_of_nil in Hin. Qed.

Lemma nextStage_spec j k now s job st pr :
  jobs s !! j = Some job → stages !! k = Some (st, pr) →
  let job' := applyStage j st pr now job in
  let s' := nextStage j k now s in
  jobs s' !! j = Some job' ∧
  (∀ j', j' ≠ j → jobs s' !! j' = jobs s !! j') ∧
  sent s' = sent s ++ ((λ w, (res w, changedReply j job')) <$>
                       filter (λ w, jobId w = j) (waitingClients s)) ∧
  waitingClients s' = filter (λ w, jobId w ≠ j) (waitingClients s).
Proof.
  intros Hjob Hrow. cbv zeta. rewrite nextStage_jobs, Hrow.
  rewrite lookup_alter_eq, Hjob. split; [done|].
  split; [intros j' Hne; by rewrite lookup_alter_ne|].
  unfold nextStage. rewrite Hrow.
  set (s1 := set_jobs (alter (applyStage j st pr now) j) s).
  assert (jobs s1 !! j = Some (applyStage j st pr now job)) as Hjob1
    by (subst s1; cbn; by rewrite lookup_alter_eq, Hjob).
  case_decide; cbn [sent waitingClients setTimeout];
    by rewrite (notifyWaitingClients_sent j s1 _ Hjob1),
       notifyWaitingClients_waitingClients.
Qed.

(** A step either takes the job one stage further and answers exactly
    the waiters of the job, or leaves the job as it is and tells nobody
    that the job has changed. *)
Lemma step_advances_or_keeps s e j job :
  chained s → mints s e → jobs s !! j = Some job →
  (∃ job', jobs (step s e) !! j = Some job' ∧
           (progress job < progress job')%Z ∧
           news s e = ((λ w, (res w, changedReply j job')) <$>
                       filter (λ w, jobId w = j) (waitingClients s)) ∧
           waitingClients (step s e) = filter (λ w, jobId w ≠ j) (waitingClients s)) ∨
  (jobs (step s e) !! j = Some job ∧
   ∀ r rsp, (r, rsp) ∈ news s e → ¬ changed_for j rsp).
Proof.
  intros (_ & Hexp & _) Hmint Hjob.
  destruct e as [r j' now|r j' ls|t now|r]; unfold news; cbn [step mints] in *.
  - right. unfold createJob. split.
    + cbn. rewrite lookup_insert_ne; [done|]. intros ->. congruence.
    + by apply quiet_json.
  - right. unfold poll. destruct (decide (j' = "")); [split; [done|by apply quiet_json]|].
    destruct (get j' (jobs s)) as [job'| |]; [| |split; [done|by apply quiet_json]].
    + destruct (hasJobStatusChanged job' ls); [split; [done|by apply quiet_json]|].
      split; [done|by apply quiet_same].
    + case_bool_decide; [split; [done|by apply quiet_json]|].
      split; [done|by apply quiet_same].
  - unfold fire. destruct (timers s !! t) as [cb|] eqn:Hcb;
      [|right; split; [done|by apply quiet_same]].
    destruct cb as [j0|j0 k|j0 r].
    + right. unfold processJob. cbn [jobs set_timers].
      destruct (jobs s !! j0); (split; [done|by apply quiet_same]).
    + destruct (Hexp t _ Hcb I) as (job0 & Hjob0 & Hpr & Hk). cbn [job_of] in Hjob0.
      destruct (stages !! k) as [[st pr]|] eqn:Hrow.
      2:{ right. unfold nextStage. rewrite Hrow. split; [done|by apply quiet_same]. }
      destruct (nextStage_spec j0 k now (set_timers (delete t) s) job0 st pr Hjob0 Hrow)
        as (Hnew & Hother & Hsent & Hwait).
      cbv zeta in Hnew, Hother, Hsent, Hwait. cbn [sent waitingClients set_timers] in *.
      apply stages_row in Hrow as [-> _].
      destruct (decide (j0 = j)) as [->|Hne].
      * left. assert (job0 = job) as -> by congruence.
        eexists. split; [exact Hnew|]. split; [cbn; lia|].
        split; [|exact Hwait]. by rewrite Hsent, drop_app_length.
      * right. split; [by rewrite Hother|].
        rewrite Hsent, drop_app_length. intros r rsp Hin (st' & pr' & rs & upd & Hbody).
        apply list_elem_of_fmap in Hin as (w & [= _ ->] & _). cbn in Hbody. congruence.
    + right. unfold pollTimeout.
      assert (sent (removeWaitingClient j0 (set_timers (delete t) s)) = sent s) as Hs
        by (by rewrite removeWaitingClient_sent).
      assert (jobs (removeWaitingClient j0 (set_timers (delete t) s)) = jobs s) as Hj
        by (by rewrite removeWaitingClient_jobs).
      case_match; cbn [jobs json]; rewrite Hj;
        (split; [done|by (apply quiet_json || apply quiet_same)]).
  - right. split; [done|by apply quiet_same].
Qed.

(** C1: in a run of the server (every [create-job] minting a new id),
    take a step and a job of the store.  The progress of the job, its
    version, never goes back.  A waiter parked on the job is answered
    [statusChanged: true], with the new state of the job, exactly when
    the step takes the job further than it was while the waiter was
    parked; as long as the waiter stays parked the job has not moved.
    No reply of the step says that the job has changed unless the job
    has advanced in that step and the reply goes to a waiter parked on
    that job. *)
Theorem changed_iff_job_advanced s e j job :
  reachable_minting s → mints s e → jobs s !! j = Some job →
  ∃ job', jobs (step s e) !! j = Some job' ∧
    (progress job ≤ progress job')%Z ∧
    (∀ w, w ∈ waitingClients s → jobId w = j →
       ((res w, changedReply j job') ∈ news s e ↔ (progress job < progress job')%Z) ∧
       (w ∈ waitingClients (step s e) → progress job' = progress job)) ∧
    (∀ r rsp, (r, rsp) ∈ news s e → changed_for j rsp →
       (progress job < progress job')%Z ∧ rsp = changedReply j job' ∧
       ∃ w, w ∈ waitingClients s ∧ jobId w = j ∧ res w = r).
Proof.
  intros Hreach Hmint Hjob. apply reachable_chained in Hreach.
  destruct (step_advances_or_keeps s e j job Hreach Hmint Hjob)
    as [(job' & Hjob' & Hlt & Hnews & Hwait)|[Hjob' Hquiet]].
  - exists job'. split_and!; [done|lia| |].
    + intros w Hw Hj. split.
      * split; [done|]. intros _. rewrite Hnews.
        apply (list_elem_of_fmap_2 (λ w, (res w, changedReply j job'))).
        by apply list_elem_of_filter.
      * rewrite Hwait. intros Hin. by apply list_elem_of_filter in Hin as [Hne _].
    + intros r rsp Hin _. rewrite Hnews in Hin.
      apply list_elem_of_fmap in Hin as (w & [= -> ->] & Hin).
      apply list_elem_of_filter in Hin as [Hj Hin]. split_and!; [done|done|by exists w].
  - exists job. split_and!; [done|lia| |].
    + intros w Hw Hj. split; [|done]. split; [|lia].
      intros Hin. destruct (Hquiet _ _ Hin). by repeat eexists.
    + intros r rsp Hin Hch. by destruct (Hquiet _ _ Hin).
Qed.

(** *** The status comparison *)

Lemma hasJobStatusChanged_true job lastKnownStatus :
  hasJobStatusChanged job lastKnownStatus = true ↔
  lastKnownStatus ≠ "" ∧ status_str (status job) ≠ lastKnownStatus.
Proof.
  unfold hasJobStatusChanged.
  rewrite andb_true_iff, !bool_decide_eq_true. done.
Qed.

(** A job in its first processing stage (status "processing", progress
    10), as the store holds it after [create-job], [processJob] and the
    first run of [nextStage]. *)
Definition processing_state : State :=
  run init [CreateJob 0 "j" 0; Fire 0 1000; Fire 1 3000].

(** A request polls the job in its first stage with the status it
    knows, 'processing', and is parked; the second stage then runs. *)
Lemma changed_iff_job_advanced_witness :
  let s := step processing_state (Poll 1 "j" "processing") in
  let e := Fire 2 8000 in
  ∃ job', jobs (step s e) !! "j" = Some job' ∧
    (10 ≤ progress job')%Z ∧
    (∀ w, w ∈ waitingClients s → jobId w = "j" →
       ((res w, changedReply "j" job') ∈ news s e ↔ (10 < progress job')%Z) ∧
       (w ∈ waitingClients (step s e) → progress job' = 10%Z)) ∧
    (∀ r rsp, (r, rsp) ∈ news s e → changed_for "j" rsp →
       (10 < progress job')%Z ∧ rsp = changedReply "j" job' ∧
       ∃ w, w ∈ waitingClients s ∧ jobId w = "j" ∧ res w = r).
Proof.
  apply (changed_iff_job_advanced (step processing_state (Poll 1 "j" "processing"))
           (Fire 2 8000) "j" (mkJob "j" processing 10 None 3000)).
  - exists [CreateJob 0 "j" 0; Fire 0 1000; Fire 1 3000; Poll 1 "j" "processing"].
    split; [|by vm_compute]. cbn [minting]. split_and!; try exact I.
    vm_compute. reflexivity.
  - exact I.
  - vm_compute. reflexivity.
Defined.


(** The job once all ten stages have run. *)
Definition completed_state : State :=
  run processing_state
      [Fire 2 8000; Fire 3 13000; Fire 4 18000; Fire 5 23000; Fire 6 28000;
       Fire 7 33000; Fire 8 38000; Fire 9 43000; Fire 10 48000].

(** C2: every waiter is to be answered exactly once.  Two requests, 1
    and 2, poll the completed job and are parked with the timers 11 and
    12.  When timer 11 expires, [removeWaitingClient] takes the last
    waiter of the job off the list, which is the waiter of request 2,
    and clears timer 12: request 1 is answered but stays on the list,
    and request 2 is off the list with no timer and no answer.  Its own
    deadline then runs no code, and whatever happens later, short of a
    new request on the same handle, request 2 is never answered. *)
Theorem timeout_drops_the_other_waiter :
  let s0 := run completed_state [Poll 1 "j" "completed"; Poll 2 "j" "completed"] in
  let s1 := step s0 (Fire 11 110000) in
  waitingClients s0 = [mkWaiting 1 "j" "completed" 11; mkWaiting 2 "j" "completed" 12] ∧
  replies 1 s1 = [mkResponse 200 (TimedOut "j" completed 100)] ∧
  waitingClients s1 = [mkWaiting 1 "j" "completed" 11] ∧
  timers s1 !! 12 = None ∧
  step s1 (Fire 12 111000) = s1 ∧
  ∀ es, Forall (λ e, ¬ brings 2 e) es → replies 2 (run s1 es) = [].
Proof.
  cbv zeta.
  split_and!; [by vm_compute|by vm_compute|by vm_compute|by vm_compute|by vm_compute|].
  intros es Hes. rewrite forgotten_run; [by vm_compute| |done].
  split.
  - intros w Hw.
    assert (w = mkWaiting 1 "j" "completed" 11) as ->; [|done].
    revert Hw. vm_compute. intros Hw.
    apply elem_of_cons in Hw as [->|Hw]; [done|]. by apply elem_of_nil in Hw.
  - intros t j Hcb.
    assert (timers (step (run completed_state
              [Poll 1 "j" "completed"; Poll 2 "j" "completed"]) (Fire 11 110000)) = ∅)
      as Hempty by (by vm_compute).
    rewrite Hempty, lookup_empty in Hcb. discriminate Hcb.
Qed.

Lemma timeout_drops_the_other_waiter_witness :
  replies 2
    (run (step (run completed_state [Poll 1 "j" "completed"; Poll 2 "j" "completed"])
               (Fire 11 110000))
         [Fire 12 111000; ClientClose 2; Poll 3 "j" "completed"; Fire 13 171000]) = [].
Proof.
  destruct timeout_drops_the_other_waiter as (_ & _ & _ & _ & _ & Hnever).
  apply Hnever. repeat constructor; cbn; first [tauto|discriminate].
Defined.

(** *** Check before hold *)

(** C3: a poll that names an existing job and supplies a last known
    status different from the job's current status is answered at once
    with the current state of the job; no waiter is parked and no timer
    is armed.  (A request that supplies no [lastStatus] has no last known
    state; [lastStatus ≠ ""] says that the caller supplied one.) *)
Theorem poll_stale_status_answers_at_once s r j lastStatus job :
  j ≠ "" → jobs s !! j = Some job →
  lastStatus ≠ "" → status_str (status job) ≠ lastStatus →
  let s' := poll r j lastStatus s in
  sent s' = sent s ++ [(r, mkResponse 200
              (Immediate j (status job) (progress job) (result job) (lastUpdated job)))] ∧
  waitingClients s' = waitingClients s ∧
  timers s' = timers s ∧
  jobs s' = jobs s.
Proof.
  intros Hj Hjob Hls Hne. cbv zeta. unfold poll.
  rewrite decide_False by done. rewrite (get_own _ _ _ Hjob).
  assert (hasJobStatusChanged job lastStatus = true) as ->
    by by apply hasJobStatusChanged_true.
  done.
Qed.

Lemma poll_stale_status_answers_at_once_witness :
  let s := processing_state in
  let s' := poll 1 "j" "pending" s in
  sent s' = sent s ++ [(1%nat, mkResponse 200 (Immediate "j" processing 10 None 3000))] ∧
  waitingClients s' = waitingClients s ∧
  timers s' = timers s ∧
  jobs s' = jobs s.
Proof.
  apply (poll_stale_status_answers_at_once processing_state 1 "j" "pending"
           (mkJob "j" processing 10 None 3000)).
  - discriminate.
  - vm_compute. reflexivity.
  - discriminate.
  - vm_compute. discriminate.
Defined.

(** A poll that finds nothing new parks: it arms a timer and appends a
    waiter that holds the reply handle. *)
Lemma poll_parks s r j lastStatus job :
  j ≠ "" → jobs s !! j = Some job →
  hasJobStatusChanged job lastStatus = false →
  let s' := poll r j lastStatus s in
  sent s' = sent s ∧
  waitingClients s' =
    waitingClients s ++ [mkWaiting r j (status_str (status job)) (nextTimer s)] ∧
  timers s' !! nextTimer s = Some (CbPollTimeout j r).
Proof.
  intros Hj Hjob Hch. cbv zeta. unfold poll.
  rewrite decide_False by done. rewrite (get_own _ _ _ Hjob), Hch. cbn.
  by rewrite lookup_insert_eq.
Qed.

(** *** The deadline *)

(** C7: a parked request whose deadline passes while the job does not
    change is to be answered with the timeout reply.  Requests 1 and 2
    poll the completed job without a [lastStatus] and are parked with
    the timers 11 and 12.  The deadline of request 1 answers request 1
    with the job's status and progress and the timeout marker, as the
    claim says, but its [removeWaitingClient] takes the waiter of
    request 2 off the list and clears timer 12, the deadline of request
    2.  When that deadline passes the server runs no code: the job is as
    it was, request 2 has been sent nothing, no timer is left that could
    answer it, and the waiter still on the list is that of request 1,
    which has its answer. *)
Theorem second_deadline_answers_nobody :
  let s0 := run completed_state [Poll 1 "j" ""; Poll 2 "j" ""] in
  let s2 := run s0 [Fire 11 108000; Fire 12 109000] in
  waitingClients s0 = [mkWaiting 1 "j" "completed" 11; mkWaiting 2 "j" "completed" 12] ∧
  timers s0 !! 11%nat = Some (CbPollTimeout "j" 1) ∧
  timers s0 !! 12%nat = Some (CbPollTimeout "j" 2) ∧
  jobs s2 = jobs s0 ∧
  replies 1 s2 = [mkResponse 200 (TimedOut "j" completed 100)] ∧
  replies 2 s2 = [] ∧
  waitingClients s2 = [mkWaiting 1 "j" "completed" 11] ∧
  timers s2 = ∅.
Proof. cbv zeta. split_and!; by vm_compute. Qed.

(** *** Unknown jobs and disconnects *)

Lemma poll_unknown_job s r j lastStatus :
  jobs s !! j = None → j ∉ prototypeKeys →
  poll r j lastStatus s = json r 404 JobNotFound s.
Proof.
  intros Hj Hproto. unfold poll. case_decide; [done|]. by rewrite get_missing.
Qed.

Lemma client_close_runs_nothing s r : step s (ClientClose r) = s.
Proof. done. Qed.

End LongPollingFacts.

(** ** Short polling *)
Module ShortPollingFacts.
Import ShortPolling.

Lemma startJobProcessing_jobs j s : jobs (startJobProcessing j s) = jobs s.
Proof. unfold startJobProcessing. by case_match. Qed.

Lemma tick_keeps_jobs i s j :
  is_Some (jobs s !! j) → is_Some (jobs (tick i s) !! j).
Proof.
  intros Hj. unfold tick. destruct (intervals s !! i) as [j'|]; [|done].
  destruct (jobs s !! j') as [currentJob|] eqn:Hcur; [|done].
  case_decide; cbn; rewrite lookup_insert_is_Some;
    destruct (decide (j' = j)); auto.
Qed.

(** An entry of the store disappears in a step exactly when the step is
    a cleanup run that finds the entry finished and older than ten
    minutes. *)
Lemma step_removes_job s e j job :
  jobs s !! j = Some job →
  jobs (step s e) !! j = None ↔ ∃ now, e = Cleanup now ∧ expired now job = true.
Proof.
  intros Hj. destruct e as [r j' now|r j'|i|now]; cbn [step].
  - unfold submit. cbn [jobs json]. rewrite startJobProcessing_jobs. cbn.
    split; [|by intros (? & ? & _)].
    intros Hnone. destruct (decide (j' = j)) as [->|Hne].
    + by rewrite lookup_insert_eq in Hnone.
    + rewrite lookup_insert_ne in Hnone by done. congruence.
  - unfold checkStatus. split; [|by intros (? & ? & _)].
    repeat case_match; cbn; congruence.
  - split; [|by intros (? & ? & _)].
    intros Hnone. destruct (tick_keeps_jobs i s j) as [x Hx]; [by eauto|]. congruence.
  - unfold cleanup. cbn [jobs set_jobs]. rewrite map_lookup_filter_None. split.
    + intros [Hnone|Hall]; [congruence|]. exists now. split; [done|].
      specialize (Hall job Hj). cbn in Hall. by destruct (expired now job).
    + intros (now' & [= <-] & Hexp). right. intros x Hx. cbn.
      assert (x = job) as -> by congruence. by rewrite Hexp.
Qed.

Lemma checkStatus_unknown_job s r j :
  j ≠ "" → jobs s !! j = None → j ∉ JsObject.prototypeKeys →
  checkStatus r j s = json r 404 (JobNotFound j) s.
Proof.
  intros Hj Hnone Hproto. unfold checkStatus. rewrite decide_False by done.
  by rewrite JsObjectFacts.get_missing.
Qed.

(** A job that was submitted at time 0 and has run to completion. *)
Definition finished_state : State :=
  run init [Submit 0 "a" 0; Tick 0; Tick 0; Tick 0; Tick 0; Tick 0;
            Tick 0; Tick 0; Tick 0; Tick 0; Tick 0].

End ShortPollingFacts.

(** ** Server-sent events *)
Module SSEFacts.
Import SSE.

Section Facts.
Context {number : Type}.
Implicit Types (s : State number) (event : SSEEvent number) (resp : Response number).

(** A stream that takes a write: not ended, and [res.write] succeeds. *)
Definition healthy s (r : nat) : bool :=
  match heap s !! r with
  | Some resp => negb (writableEnded resp) && negb (writeThrows resp)
  | None => false
  end.

Definition appendTo (chunks : list (Chunk number)) resp : Response number :=
  mkResponse (writableEnded resp) (writeThrows resp) (written resp ++ chunks).

(** The frames of one event per entry of a map, in map order. *)
Definition framesOfAll {V} (ev : V → SSEEvent number) (m : JsMap V) : list (Chunk number) :=
  concat ((λ kv, frames (ev kv.2)) <$> m).

(** The client map has one entry per id, and no two entries share a
    response object. *)
Definition wf s : Prop :=
  NoDup (connectedClients s).*1 ∧ NoDup (connectedClients s).*2.

Lemma appendTo_appendTo xs ys resp :
  appendTo ys (appendTo xs resp) = appendTo (xs ++ ys) resp.
Proof. unfold appendTo. cbn. by rewrite app_assoc. Qed.

Lemma appendTo_nil resp : appendTo [] resp = resp.
Proof. unfold appendTo. rewrite app_nil_r. by destruct resp. Qed.

Lemma set_heap_insert_insert s r resp1 resp2 :
  set_heap (<[r := resp2]>) (set_heap (<[r := resp1]>) s) = set_heap (<[r := resp2]>) s.
Proof. unfold set_heap. cbn. by rewrite insert_insert_eq. Qed.

Lemma write_at s r resp c :
  heap s !! r = Some resp →
  write r c s =
    if writeThrows resp then Thrown s
    else Done (set_heap (<[r := appendTo [c] resp]>) s).
Proof. intros Hr. unfold write. by rewrite Hr. Qed.

(** Writing a run of chunks, one [res.write] after the other. *)
Fixpoint writeAll (r : nat) (cs : list (Chunk number)) s : Outcome number :=
  match cs with
  | [] => Done s
  | c :: cs' => seq (write r c s) (writeAll r cs')
  end.

Lemma writeAll_healthy r cs s resp :
  heap s !! r = Some resp → writeThrows resp = false →
  writeAll r cs s = Done (set_heap (<[r := appendTo cs resp]>) s).
Proof.
  revert s resp. induction cs as [|c cs IH]; intros s resp Hr Hw; cbn [writeAll].
  - rewrite appendTo_nil. unfold set_heap. rewrite insert_id by done. by destruct s.
  - rewrite (write_at s r resp) by done. rewrite Hw. cbn [seq].
    rewrite (IH _ (appendTo [c] resp)); [|by cbn; rewrite lookup_insert_eq|done].
    by rewrite set_heap_insert_insert, appendTo_appendTo.
Qed.

Lemma sendSSEEvent_body r event s :
  seq (match truthy (id event) with
       | Some i => write r (IdLine i) s
       | None => Done s
       end) (λ s1,
  seq (match truthy (type event) with
       | Some t => write r (EventLine t) s1
       | None => Done s1
       end) (λ s2,
  write r (DataLine (data event)) s2)) = writeAll r (frames event) s.
Proof.
  unfold frames.
  destruct (truthy (id event)) as [i|], (truthy (type event)) as [t|]; cbn;
    repeat (destruct (write _ _ _); cbn; try done).
Qed.

(** On a stream that takes writes, [sendSSEEvent] writes the frames of
    the event. *)
Lemma sendSSEEvent_healthy r event s resp :
  heap s !! r = Some resp → writeThrows resp = false →
  sendSSEEvent r event s = Done (set_heap (<[r := appendTo (frames event) resp]>) s).
Proof.
  intros Hr Hw. unfold sendSSEEvent. rewrite sendSSEEvent_body.
  by rewrite (writeAll_healthy r _ s resp).
Qed.

Lemma writeAll_broken r c cs s resp :
  heap s !! r = Some resp → writeThrows resp = true →
  writeAll r (c :: cs) s = Thrown s.
Proof. intros Hr Hw. cbn. rewrite (write_at s r resp) by done. by rewrite Hw. Qed.

Lemma frames_cons event : ∃ c cs, frames event = c :: cs.
Proof.
  unfold frames. destruct (truthy (id event)), (truthy (type event)); cbn; eauto.
Qed.

(** On a stream whose writes raise, the first write of [sendSSEEvent]
    raises, the write of the handler raises again, and the exception
    leaves [sendSSEEvent] with nothing written. *)
Lemma sendSSEEvent_broken r event s resp :
  heap s !! r = Some resp → writeThrows resp = true →
  sendSSEEvent r event s = Thrown s.
Proof.
  intros Hr Hw. unfold sendSSEEvent. rewrite sendSSEEvent_body.
  destruct (frames_cons event) as (c & cs & ->).
  rewrite (writeAll_broken r c cs s resp) by done. cbn.
  rewrite (write_at s r resp) by done. by rewrite Hw.
Qed.

(** One visit of the broadcast loop. *)
Lemma broadcastOne_spec event s clientId r :
  broadcastOne event s (clientId, r) =
    if healthy s r
    then set_heap (alter (appendTo (frames event)) r) s
    else set_connectedClients (map_delete clientId) s.
Proof.
  unfold broadcastOne, healthy, ended.
  destruct (heap s !! r) as [resp|] eqn:Hr; [|done].
  destruct (writableEnded resp) eqn:He; cbn; [done|].
  destruct (writeThrows resp) eqn:Hw; cbn.
  - by rewrite (sendSSEEvent_broken r event s resp).
  - rewrite (sendSSEEvent_healthy r event s resp) by done. cbn.
    unfold set_heap. f_equal. apply map_eq. intros r'.
    destruct (decide (r = r')) as [->|Hne].
    + by rewrite lookup_insert_eq, lookup_alter_eq, Hr.
    + by rewrite lookup_insert_ne, lookup_alter_ne.
Qed.

Lemma healthy_broadcastOne event s entry r :
  healthy (broadcastOne event s entry) r = healthy s r.
Proof.
  destruct entry as [clientId r0]. rewrite broadcastOne_spec.
  destruct (healthy s r0); [|done].
  unfold healthy. cbn. destruct (decide (r0 = r)) as [->|Hne].
  - rewrite lookup_alter_eq. by destruct (heap s !! r).
  - by rewrite lookup_alter_ne.
Qed.

(** The broadcast loop over the entries [l]. *)
Lemma broadcast_loop event l s :
  NoDup l.*2 →
  let s' := foldl (broadcastOne event) s l in
  (∀ kv, kv ∈ connectedClients s' ↔
         kv ∈ connectedClients s ∧ ¬ ∃ r, (kv.1, r) ∈ l ∧ healthy s r = false) ∧
  (∀ r, heap s' !! r =
        if bool_decide (r ∈ l.*2) && healthy s r
        then appendTo (frames event) <$> heap s !! r
        else heap s !! r).
Proof.
  revert s. induction l as [|[clientId r0] l IH]; intros s Hnd; cbn [foldl].
  - split; [|done]. intros kv. split; [|by intros [? _]].
    intros Hkv. split; [done|]. intros (r & Hr & _). by apply elem_of_nil in Hr.
  - cbn in Hnd. apply NoDup_cons in Hnd as [Hr0 Hnd].
    destruct (IH (broadcastOne event s (clientId, r0)) Hnd) as [IHc IHh].
    split.
    + intros kv. rewrite IHc. setoid_rewrite healthy_broadcastOne.
      rewrite broadcastOne_spec. destruct (healthy s r0) eqn:Hh0; cbn.
      * split; intros [Hkv Hno]; (split; [done|]); intros (r & Hr & Hbad).
        -- apply elem_of_cons in Hr as [[= _ ->]|Hr]; [congruence|]. apply Hno. eauto.
        -- apply Hno. exists r. split; [by apply elem_of_cons; right|done].
      * unfold map_delete. rewrite list_elem_of_filter. split.
        -- intros [[Hne Hkv] Hno]. split; [done|]. intros (r & Hr & Hbad).
           apply elem_of_cons in Hr as [[= Hk _]|Hr]; [done|]. apply Hno. eauto.
        -- intros [Hkv Hno]. split; [split; [|done]|].
           ++ intros Heq. apply Hno. exists r0. split; [|done].
              rewrite Heq. by apply elem_of_cons; left.
           ++ intros (r & Hr & Hbad). apply Hno. exists r.
              split; [by apply elem_of_cons; right|done].
    + intros r. rewrite IHh, healthy_broadcastOne.
      rewrite broadcastOne_spec. destruct (decide (r = r0)) as [->|Hne].
      * rewrite (bool_decide_eq_false_2 (r0 ∈ l.*2)) by done.
        rewrite (bool_decide_eq_true_2 (r0 ∈ ((clientId, r0) :: l).*2))
          by (cbn; apply elem_of_cons; by left).
        cbn. destruct (healthy s r0); cbn; [|done]. by rewrite lookup_alter_eq.
      * assert (bool_decide (r ∈ ((clientId, r0) :: l).*2) = bool_decide (r ∈ l.*2)) as ->.
        { apply bool_decide_ext. cbn. rewrite elem_of_cons.
          split; [by intros [?|?]|by right]. }
        destruct (healthy s r0); cbn; [|done]. by rewrite lookup_alter_ne.
Qed.

Lemma NoDup_fst_agree {A B} (l : list (A * B)) k a b :
  NoDup l.*1 → (k, a) ∈ l → (k, b) ∈ l → a = b.
Proof.
  induction l as [|[k0 v0] l IH]; cbn; intros Hnd Ha Hb.
  - by apply elem_of_nil in Ha.
  - apply NoDup_cons in Hnd as [Hk0 Hnd].
    apply elem_of_cons in Ha as [Ha|Ha]; apply elem_of_cons in Hb as [Hb|Hb];
      simplify_eq; [done| | |by eauto].
    + exfalso. apply Hk0. by apply (list_elem_of_fmap_2 fst _ (k0, b)).
    + exfalso. apply Hk0. by apply (list_elem_of_fmap_2 fst _ (k0, a)).
Qed.

(** What a broadcast does to each registered client. *)
Lemma broadcastToAllClients_spec event s clientId r :
  wf s → (clientId, r) ∈ connectedClients s →
  let s' := broadcastToAllClients event s in
  (healthy s r = true →
     ((clientId, r) ∈ connectedClients s') ∧
     writtenTo s' r = writtenTo s r ++ frames event) ∧
  (healthy s r = false →
     (clientId ∉ (connectedClients s').*1) ∧
     writtenTo s' r = writtenTo s r).
Proof.
  intros [Hk Hv] Hin. cbv zeta. unfold broadcastToAllClients.
  destruct (broadcast_loop event (connectedClients s) s Hv) as [Hc Hh].
  split; intros Hhr.
  - split.
    + apply Hc. split; [done|]. intros (r' & Hr' & Hbad). cbn in Hr'.
      assert (r' = r) as -> by (by eapply NoDup_fst_agree). congruence.
    + unfold writtenTo. rewrite Hh, Hhr.
      rewrite bool_decide_eq_true_2 by (by apply (list_elem_of_fmap_2 snd _ (clientId, r))).
      cbn. unfold healthy in Hhr. by destruct (heap s !! r).
  - split.
    + intros Hin'. apply list_elem_of_fmap in Hin' as ([k' r'] & Hk' & Hin').
      cbn in Hk'. subst k'. apply Hc in Hin' as [_ Hno]. apply Hno. eauto.
    + unfold writtenTo. rewrite Hh, Hhr. by rewrite andb_false_r.
Qed.

(** *** Connecting *)

Lemma sendEach_healthy {V} (ev : V → SSEEvent number) r (m : JsMap V) s resp :
  heap s !! r = Some resp → writeThrows resp = false →
  sendEach ev r m s = Done (set_heap (<[r := appendTo (framesOfAll ev m) resp]>) s).
Proof.
  unfold sendEach, framesOfAll. revert s resp.
  induction m as [|kv m IH]; intros s resp Hr Hw; cbn [foldl fmap list_fmap concat].
  - rewrite appendTo_nil. unfold set_heap. rewrite insert_id by done. by destruct s.
  - cbn [seq]. rewrite (sendSSEEvent_healthy r _ s resp) by done.
    rewrite (IH _ (appendTo (frames (ev kv.2)) resp));
      [|by cbn; rewrite lookup_insert_eq|done].
    by rewrite set_heap_insert_insert, appendTo_appendTo.
Qed.

Lemma map_set_elem {V} k (v : V) (m : JsMap V) : (k, v) ∈ map_set k v m.
Proof.
  unfold map_set. case_bool_decide as Hk.
  - apply list_elem_of_fmap in Hk as ([k' v'] & -> & Hin).
    apply list_elem_of_fmap. exists (k', v'). split; [|done].
    cbn. by rewrite decide_True.
  - apply elem_of_app. right. by apply list_elem_of_singleton.
Qed.

Lemma map_delete_not_elem {V} k (m : JsMap V) : k ∉ (map_delete k m).*1.
Proof.
  unfold map_delete. intros Hin.
  apply list_elem_of_fmap in Hin as ([k' v'] & -> & Hin).
  by apply list_elem_of_filter in Hin as [Hne _].
Qed.

Lemma map_delete_other {V} k (m : JsMap V) kv :
  kv.1 ≠ k → kv ∈ m → kv ∈ map_delete k m.
Proof. intros Hne Hin. unfold map_delete. by apply list_elem_of_filter. Qed.

Definition idFrame (id : string) : list (Chunk number) :=
  if decide (id = "") then [] else [IdLine id].

Definition welcomeFrames (clientId iso : string) : list (Chunk number) :=
  idFrame clientId ++
  [EventLine "connection";
   DataLine (DConnection "Connected to SSE stream successfully!" clientId iso)].

Definition stockFrames (now : Z) (stock : StockPrice number) : list (Chunk number) :=
  [IdLine ("stock_" +:+ symbol stock +:+ "_" +:+ pretty now);
   EventLine "stock_price"; DataLine (DStock stock)].

Definition jobFrames (now : Z) (job : JobProgress number) : list (Chunk number) :=
  [IdLine ("job_" +:+ jobId job +:+ "_" +:+ pretty now);
   EventLine "job_progress"; DataLine (DJob job)].

Lemma frames_welcomeEvent clientId iso :
  frames (welcomeEvent clientId iso) = welcomeFrames clientId iso.
Proof. unfold frames, welcomeFrames, idFrame. cbn. by case_decide. Qed.

Lemma frames_stockEvent now stock : frames (stockEvent now stock) = stockFrames now stock.
Proof. done. Qed.

Lemma frames_jobEvent now job : frames (jobEvent now job) = jobFrames now job.
Proof. done. Qed.

Lemma framesOfAll_ext {V} (ev : V → SSEEvent number) (f : V → list (Chunk number)) m :
  (∀ v, frames (ev v) = f v) → framesOfAll ev m = concat (f <$> m.*2).
Proof.
  intros Hf. unfold framesOfAll. f_equal.
  induction m as [|kv m IH]; cbn; [done|]. by rewrite Hf, IH.
Qed.

(** The state snapshot a new subscriber is sent after its welcome. *)
Definition snapshot s (clientId iso : string) (now : Z) : list (Chunk number) :=
  welcomeFrames clientId iso ++
  concat (stockFrames now <$> (stockPrices s).*2) ++
  concat (jobFrames now <$> (jobProgresses s).*2).

Lemma events_spec s clientId iso now :
  let r := nextRes s in
  events clientId iso now s =
    Done (mkState (map_set clientId r (connectedClients s)) (stockPrices s)
                  (jobProgresses s)
                  (<[r := mkResponse false false (snapshot s clientId iso now)]> (heap s))
                  (S r) ({[r]} ∪ heartbeats s)).
Proof.
  cbv zeta. unfold events, sendCurrentStockPrices, sendCurrentJobs.
  rewrite (sendSSEEvent_healthy _ _ _ (mkResponse false false []))
    by (cbn [heap set_heap set_connectedClients]; first [apply lookup_insert_eq|done]).
  cbn [seq].
  rewrite (sendEach_healthy _ _ _ _ (appendTo (frames (welcomeEvent clientId iso))
                                             (mkResponse false false [])))
    by (cbn [heap set_heap set_connectedClients]; first [apply lookup_insert_eq|done]).
  cbn [seq].
  rewrite (sendEach_healthy _ _ _ _
             (appendTo (framesOfAll (stockEvent now) (stockPrices s))
                (appendTo (frames (welcomeEvent clientId iso))
                   (mkResponse false false []))))
    by (cbn [heap set_heap set_connectedClients]; first [apply lookup_insert_eq|done]).
  cbn [seq heap set_heap set_connectedClients connectedClients stockPrices
       jobProgresses nextRes heartbeats].
  rewrite !insert_insert_eq. unfold appendTo, snapshot.
  cbn [writableEnded writeThrows written app].
  rewrite frames_welcomeEvent.
  rewrite (framesOfAll_ext (stockEvent now) (stockFrames now)) by done.
  rewrite (framesOfAll_ext (jobEvent now) (jobFrames now)) by done.
  by rewrite <- app_assoc.
Qed.

(** *** The client map stays well formed *)

(** [wf], and every response object of the map was handed out. *)
Definition inv s : Prop :=
  wf s ∧ ∀ kv, kv ∈ connectedClients s → (kv.2 < nextRes s)%nat.

Definition reachable s : Prop := ∃ es, s = run init es.

Lemma map_set_keys {V} k (v : V) (m : JsMap V) :
  k ∈ m.*1 →
  ((λ kv, if decide (kv.1 = k) then (k, v) else kv) <$> m).*1 = m.*1.
Proof.
  intros _. induction m as [|[k0 v0] m IH]; cbn; [done|].
  rewrite IH. by case_decide; subst.
Qed.

Lemma map_set_values {V} k (v : V) (m : JsMap V) x :
  x ∈ (map_set k v m).*2 → x = v ∨ x ∈ m.*2.
Proof.
  unfold map_set. case_bool_decide.
  - rewrite <- list_fmap_compose. intros Hx.
    apply list_elem_of_fmap in Hx as (kv & -> & Hin). cbn.
    case_decide; [by left|right]. by apply list_elem_of_fmap_2.
  - rewrite fmap_app. intros Hx. apply elem_of_app in Hx as [Hx|Hx]; [by right|].
    apply list_elem_of_singleton in Hx. by left.
Qed.

Lemma map_set_NoDup_keys {V} k (v : V) (m : JsMap V) :
  NoDup m.*1 → NoDup (map_set k v m).*1.
Proof.
  intros Hnd. unfold map_set. case_bool_decide as Hk.
  - by rewrite map_set_keys.
  - rewrite fmap_app. apply NoDup_app. split_and!; [done| |apply NoDup_singleton].
    intros x Hx Hx'. apply list_elem_of_singleton in Hx' as ->. done.
Qed.

Lemma map_set_other {V} k (v : V) (m : JsMap V) :
  k ∉ m.*1 → (λ kv, if decide (kv.1 = k) then (k, v) else kv) <$> m = m.
Proof.
  induction m as [|[k0 v0] m IH]; cbn; intros Hk; [done|].
  rewrite decide_False by (intros ->; apply Hk; by left).
  rewrite IH; [done|]. intros Hin. apply Hk. by right.
Qed.

Lemma map_set_NoDup_values {V} k (v : V) (m : JsMap V) :
  NoDup m.*1 → NoDup m.*2 → v ∉ m.*2 → NoDup (map_set k v m).*2.
Proof.
  intros Hk Hv Hfresh. unfold map_set. case_bool_decide as Hin.
  - clear Hin. induction m as [|[k0 v0] m IH]; cbn in *; [constructor|].
    apply NoDup_cons in Hk as [Hk0 Hk]. apply NoDup_cons in Hv as [Hv0 Hv].
    apply not_elem_of_cons in Hfresh as [Hne Hfresh].
    case_decide as Hkk; cbn.
    + subst k0. rewrite map_set_other by done. by apply NoDup_cons.
    + apply NoDup_cons. split; [|by apply IH].
      rewrite <- list_fmap_compose. intros Hx.
      apply list_elem_of_fmap in Hx as (kv & Heq & Hx). cbn in Heq.
      case_decide; cbn in Heq; [by subst|].
      apply Hv0. subst v0. by apply list_elem_of_fmap_2.
  - rewrite fmap_app. apply NoDup_app. split_and!; [done| |apply NoDup_singleton].
    intros x Hx Hx'. apply list_elem_of_singleton in Hx' as ->. done.
Qed.

Lemma broadcast_clients_sublist event l s :
  connectedClients (foldl (broadcastOne event) s l) `sublist_of` connectedClients s.
Proof.
  revert s. induction l as [|[clientId r] l IH]; intros s; cbn [foldl]; [done|].
  etrans; [apply IH|]. rewrite broadcastOne_spec.
  destruct (healthy s r); cbn; [done|]. apply sublist_filter.
Qed.

Lemma broadcast_nextRes event l s :
  nextRes (foldl (broadcastOne event) s l) = nextRes s.
Proof.
  revert s. induction l as [|[clientId r] l IH]; intros s; cbn [foldl]; [done|].
  rewrite IH, broadcastOne_spec. by destruct (healthy s r).
Qed.

Lemma inv_sublist s s' :
  connectedClients s' `sublist_of` connectedClients s → nextRes s' = nextRes s →
  inv s → inv s'.
Proof.
  intros Hsub Hnext [[Hk Hv] Hlt]. split; [split|].
  - eapply sublist_NoDup; [exact Hk|]. by apply fmap_sublist.
  - eapply sublist_NoDup; [exact Hv|]. by apply fmap_sublist.
  - intros kv Hin. rewrite Hnext. apply Hlt. by eapply sublist_subseteq.
Qed.

Lemma inv_broadcast event s : inv s → inv (broadcastToAllClients event s).
Proof.
  apply inv_sublist; [apply broadcast_clients_sublist|apply broadcast_nextRes].
Qed.

Lemma inv_step s e : inv s → inv (step s e).
Proof.
  intros Hinv. destruct e; cbn [step].
  - rewrite events_spec. cbn [state_of]. destruct Hinv as [[Hk Hv] Hlt].
    assert (nextRes s ∉ (connectedClients s).*2) as Hfresh.
    { intros Hin. apply list_elem_of_fmap in Hin as (kv & Heq & Hin).
      apply Hlt in Hin. lia. }
    split; [split|]; cbn [connectedClients nextRes].
    + by apply map_set_NoDup_keys.
    + by apply map_set_NoDup_values.
    + intros kv Hin. apply (list_elem_of_fmap_2 snd) in Hin.
      apply map_set_values in Hin as [->|Hin]; [lia|].
      apply list_elem_of_fmap in Hin as (kv' & -> & Hin). apply Hlt in Hin. lia.
  - revert Hinv. apply inv_sublist; [apply sublist_filter|done].
  - unfold heartbeat. repeat case_match; try done.
    unfold write. repeat case_match; done.
  - by apply inv_broadcast.
  - by apply inv_broadcast.
  - by apply inv_broadcast.
  - done.
  - done.
Qed.

Lemma reachable_clients_wf s : reachable s → wf s.
Proof.
  intros [es ->]. cut (inv (run init es)); [by intros [? _]|].
  induction es as [|e es IH] using rev_ind.
  - split; [split; constructor|]. intros kv Hin. by apply elem_of_nil in Hin.
  - unfold run. rewrite foldl_app. by apply inv_step.
Qed.

(** C9: the handler of [/events] writes to the stream of the new
    subscriber, in this order and before it returns, the 'connection'
    welcome event that carries the assigned client id, one 'stock_price'
    event for every stored stock and one 'job_progress' event for every
    stored job, and it registers the subscriber; an event broadcast
    afterwards is written behind this snapshot. *)
Theorem new_subscriber_gets_welcome_then_snapshot s clientId iso now :
  let r := nextRes s in
  ∃ s', events clientId iso now s = Done s' ∧
    (clientId, r) ∈ connectedClients s' ∧
    writtenTo s' r =
      welcomeFrames clientId iso ++
      concat (stockFrames now <$> (stockPrices s).*2) ++
      concat (jobFrames now <$> (jobProgresses s).*2) ∧
    ∀ event, reachable s →
      writtenTo (broadcastToAllClients event s') r = writtenTo s' r ++ frames event.
Proof.
  cbv zeta. eexists. split; [apply events_spec|]. cbn [connectedClients].
  split; [apply map_set_elem|]. split.
  - unfold writtenTo. cbn [heap]. by rewrite lookup_insert_eq.
  - intros event [es ->].
    assert (wf (step (run init es) (Connect clientId iso now))) as Hwf.
    { apply reachable_clients_wf. exists (es ++ [Connect clientId iso now]).
      unfold run. by rewrite foldl_app. }
    cbn [step] in Hwf. rewrite events_spec in Hwf. cbn [state_of] in Hwf.
    pose proof (broadcastToAllClients_spec event _ clientId (nextRes (run init es)) Hwf
                  (map_set_elem _ _ _)) as Hb.
    cbv zeta in Hb. destruct Hb as [Hb _]. apply Hb.
    unfold healthy. cbn [heap]. by rewrite lookup_insert_eq.
Qed.

(** One stock is stored and one client listens when a second client
    connects. *)
Definition one_listener : State Z :=
  run init [StockUpdate "stock_" (mkStock "AAPL" 1%Z 2%Z 3%Z 0%Z) 5%Z;
            Connect "client_1" "iso" 7%Z].

End Facts.

Lemma new_subscriber_gets_welcome_then_snapshot_witness :
  ∃ s', events "client_2" "iso" 9%Z one_listener = Done s' ∧
    ("client_2", 1%nat) ∈ connectedClients s' ∧
    writtenTo s' 1%nat =
      welcomeFrames "client_2" "iso" ++
      concat (stockFrames 9%Z <$> (stockPrices one_listener).*2) ++
      concat (jobFrames 9%Z <$> (jobProgresses one_listener).*2) ∧
    writtenTo (broadcastToAllClients (mkEvent None (Some "x") (DString "hello")) s') 1%nat =
      writtenTo s' 1%nat ++ [EventLine "x"; DataLine (DString "hello")].
Proof.
  destruct (new_subscriber_gets_welcome_then_snapshot one_listener "client_2" "iso" 9%Z)
    as (s' & Hs' & Hin & Hw & Hlater).
  exists s'. split_and!; [done|done|done|].
  apply (Hlater (mkEvent None (Some "x") (DString "hello"))).
  exists [StockUpdate "stock_" (mkStock "AAPL" 1%Z 2%Z 3%Z 0%Z) 5%Z;
          Connect "client_1" "iso" 7%Z].
  reflexivity.
Defined.

End SSEFacts.

(** ** Push server *)
Module PushServerFacts.
Import PushServer.

(** The array holds each live connection object once, and only objects
    that [req.accept] has handed out. *)
Definition wf (s : State) : Prop :=
  NoDup (connections s) ∧ ∀ c, c ∈ connections s → (c < nextConn s)%nat.

Definition reachable (s : State) : Prop := ∃ es, s = run init es.

(** A guard of a broadcast loop that sending does not alter. *)
Definition stable (guard : State → nat → bool) : Prop :=
  ∀ acc c0 text c, guard (send c0 text acc) c = guard acc c.

Lemma isConnected_send c0 text acc c :
  isConnected (send c0 text acc) c = isConnected acc c.
Proof.
  unfold isConnected, send. cbn [heap].
  destruct (decide (c0 = c)) as [->|Hne].
  - rewrite lookup_alter_eq. by destruct (heap acc !! c).
  - by rewrite lookup_alter_ne.
Qed.

Lemma stable_isConnected : stable isConnected.
Proof. intros acc c0 text c. apply isConnected_send. Qed.

Lemma stable_isConnected_except new :
  stable (λ acc conn, isConnected acc conn && bool_decide (conn ≠ new)).
Proof. intros acc c0 text c. cbn. by rewrite isConnected_send. Qed.

Section Loop.
Context (guard : State → nat → bool) (text : string).
Hypothesis guard_stable : stable guard.

Let body (acc : State) (conn : nat) : State :=
  if guard acc conn then send conn text acc else acc.

Lemma loop_connections l s : connections (foldl body s l) = connections s.
Proof.
  revert s. induction l as [|x l IH]; intros s; cbn; [done|].
  rewrite IH. unfold body. by destruct (guard s x).
Qed.

Lemma loop_nextConn l s : nextConn (foldl body s l) = nextConn s.
Proof.
  revert s. induction l as [|x l IH]; intros s; cbn; [done|].
  rewrite IH. unfold body. by destruct (guard s x).
Qed.

Lemma loop_guard l s c : guard (foldl body s l) c = guard s c.
Proof.
  revert s. induction l as [|x l IH]; intros s; cbn; [done|].
  rewrite IH. unfold body. destruct (guard s x); [|done]. apply guard_stable.
Qed.

(** Each connection of the array is visited once: it receives [text]
    when the guard lets it through and is left alone otherwise. *)
Lemma loop_heap l s c :
  NoDup l →
  heap (foldl body s l) !! c =
    if bool_decide (c ∈ l) && guard s c
    then deliver text <$> heap s !! c
    else heap s !! c.
Proof.
  revert s. induction l as [|x l IH]; intros s Hnd; cbn [foldl]; [done|].
  apply NoDup_cons in Hnd as [Hx Hnd]. rewrite IH by done.
  assert (guard (body s x) c = guard s c) as ->.
  { unfold body. destruct (guard s x); [|done]. apply guard_stable. }
  destruct (decide (c = x)) as [->|Hne].
  - rewrite (bool_decide_eq_false_2 (x ∈ l)) by done.
    rewrite (bool_decide_eq_true_2 (x ∈ x :: l)) by (by left).
    cbn. unfold body. destruct (guard s x); [|done].
    cbn. by rewrite lookup_alter_eq.
  - assert (heap (body s x) !! c = heap s !! c) as ->.
    { unfold body. destruct (guard s x); [|done]. cbn. by rewrite lookup_alter_ne. }
    assert (bool_decide (c ∈ x :: l) = bool_decide (c ∈ l)) as ->; [|done].
    apply bool_decide_ext. rewrite elem_of_cons.
    split; [by intros [?|?]|by right].
Qed.
End Loop.

Lemma sendWhere_connections guard text s :
  connections (sendWhere guard text s) = connections s.
Proof. apply loop_connections. Qed.

Lemma sendWhere_nextConn guard text s :
  nextConn (sendWhere guard text s) = nextConn s.
Proof. apply loop_nextConn. Qed.

Lemma sendWhere_heap guard text s c :
  stable guard → NoDup (connections s) →
  heap (sendWhere guard text s) !! c =
    if bool_decide (c ∈ connections s) && guard s c
    then deliver text <$> heap s !! c
    else heap s !! c.
Proof. intros. by apply loop_heap. Qed.

(** [indexOf] finds the first slot that holds the object. *)
Lemma indexOf_None c l : indexOf c l = None → c ∉ l.
Proof.
  induction l as [|x l IH]; cbn; [intros _; apply not_elem_of_nil|].
  case_decide; [done|]. destruct (indexOf c l); [done|].
  intros _ Hin. apply elem_of_cons in Hin as [?|?]; [done|]. by apply IH.
Qed.

Lemma indexOf_delete c l i :
  NoDup l → indexOf c l = Some i → c ∉ delete i l.
Proof.
  revert i. induction l as [|x l IH]; intros i Hnd; cbn; [done|].
  apply NoDup_cons in Hnd as [Hx Hnd].
  case_decide as Hxc.
  - intros [= <-]. cbn. by subst.
  - destruct (indexOf c l) as [i'|] eqn:Hi; [|done].
    intros [= <-]. cbn. specialize (IH i' Hnd eq_refl).
    intros Hin. apply elem_of_cons in Hin as [?|?]; [by subst|done].
Qed.

Lemma wf_init : wf init.
Proof. split; [constructor|]. intros c Hc. by apply elem_of_nil in Hc. Qed.

Lemma wf_onClose c s : wf s → wf (onClose c s).
Proof.
  intros [Hnd Hlt]. unfold onClose, wf.
  rewrite sendWhere_connections, sendWhere_nextConn.
  destruct (indexOf c (connections s)) as [i|]; cbn; [|done].
  split.
  - eapply sublist_NoDup; [done|apply sublist_delete].
  - intros c' Hc'. apply Hlt. eapply sublist_subseteq; [apply sublist_delete|done].
Qed.

Lemma wf_onRequest origin port s : wf s → wf (onRequest origin port s).
Proof.
  intros [Hnd Hlt]. unfold onRequest. destruct (originIsAllowed origin); cbn [negb]; [|done].
  unfold wf, send. cbn [connections nextConn].
  rewrite sendWhere_connections, sendWhere_nextConn. cbn [connections nextConn].
  split.
  - apply NoDup_app. split_and!; [done| |apply NoDup_singleton].
    intros c Hc Hin. apply list_elem_of_singleton in Hin as ->.
    apply Hlt in Hc. lia.
  - intros c Hc. apply elem_of_app in Hc as [Hc|Hc].
    + apply Hlt in Hc. lia.
    + apply list_elem_of_singleton in Hc as ->. lia.
Qed.

Lemma wf_step s e : wf s → wf (step s e).
Proof.
  intros Hwf. destruct e as [origin port|c msg|c|c]; cbn [step].
  - by apply wf_onRequest.
  - destruct msg; [|done]. unfold onMessage, wf.
    by rewrite sendWhere_connections, sendWhere_nextConn.
  - done.
  - by apply wf_onClose.
Qed.

Lemma reachable_connections_wf s : reachable s → wf s.
Proof.
  intros [es ->]. induction es as [|e es IH] using rev_ind; [apply wf_init|].
  unfold run. rewrite foldl_app. by apply wf_step.
Qed.

(** *** Broadcasts *)

Definition saysText (s : State) (c : nat) (message : string) : string :=
  user (portOf s c) +:+ " says: " +:+ message.

Definition joinedText (port : Z) : string := user port +:+ " has joined the chat".

Definition welcomeText (port : Z) (online : nat) : string :=
  "Welcome! You are " +:+ user port +:+ ". There are " +:+ pretty online +:+
  " users online.".

(** A text message is pushed to every connected member of the array;
    members that are not connected are passed over and stay in the
    array, and nothing else changes. *)
Lemma onMessage_spec s c message :
  NoDup (connections s) →
  let s' := onMessage c (Utf8 message) s in
  connections s' = connections s ∧
  ∀ c', heap s' !! c' =
    if bool_decide (c' ∈ connections s) && isConnected s c'
    then deliver (saysText s c message) <$> heap s !! c'
    else heap s !! c'.
Proof.
  intros Hnd. cbv zeta. unfold onMessage. split.
  - apply sendWhere_connections.
  - intros c'. apply sendWhere_heap; [apply stable_isConnected|done].
Qed.

Lemma isConnected_true s c conn :
  heap s !! c = Some conn → connected conn = true → isConnected s c = true.
Proof. intros Hc Hconn. unfold isConnected. by rewrite Hc. Qed.

(** What [onRequest] leaves behind for an allowed origin. *)
Lemma onRequest_spec s origin port :
  wf s → originIsAllowed origin = true →
  let new := nextConn s in
  let s' := onRequest origin port s in
  connections s' = connections s ++ [new] ∧
  heap s' !! new =
    Some (mkConnection true port [welcomeText port (S (length (connections s)))]) ∧
  ∀ c', c' ∈ connections s →
    heap s' !! c' =
      if isConnected s c' then deliver (joinedText port) <$> heap s !! c'
      else heap s !! c'.
Proof.
  intros [Hnd Hlt] Hallowed. cbv zeta. unfold onRequest. rewrite Hallowed.
  cbn [negb connections heap nextConn].
  set (s2 := mkState (connections s ++ [nextConn s])
                     (<[nextConn s := mkConnection true port []]> (heap s))
                     (S (nextConn s))).
  assert (NoDup (connections s2)) as Hnd2.
  { cbn. apply NoDup_app. split_and!; [done| |apply NoDup_singleton].
    intros c Hc Hin. apply list_elem_of_singleton in Hin as ->.
    apply Hlt in Hc. lia. }
  pose proof (stable_isConnected_except (nextConn s)) as Hst.
  unfold send. cbn [connections heap].
  rewrite sendWhere_connections. split_and!.
  - done.
  - rewrite lookup_alter_eq, sendWhere_heap by done.
    rewrite (bool_decide_eq_false_2 (nextConn s ≠ nextConn s)) by naive_solver.
    rewrite andb_false_r, andb_false_r. cbn [heap s2].
    rewrite lookup_insert_eq. cbn. unfold deliver, welcomeText. cbn.
    by rewrite length_app, Nat.add_1_r.
  - intros c' Hc'. assert (c' ≠ nextConn s) as Hne by (apply Hlt in Hc'; lia).
    rewrite lookup_alter_ne by done. rewrite sendWhere_heap by done.
    rewrite (bool_decide_eq_true_2 (c' ∈ connections s2))
      by (cbn; apply elem_of_app; by left).
    rewrite (bool_decide_eq_true_2 (c' ≠ nextConn s)) by done.
    rewrite andb_true_r, andb_true_l.
    assert (isConnected s2 c' = isConnected s c') as ->.
    { unfold isConnected. cbn. by rewrite lookup_insert_ne. }
    cbn [heap s2]. by rewrite lookup_insert_ne.
Qed.

(** C10: a text message of the connection [c] is pushed, formatted as
    "User<port of c> says: <message>", to every connected member of the
    array, and in particular to [c] itself; the "has joined the chat"
    notice of a newly accepted connection is pushed to every connected
    member except the newcomer, whose outbox holds only its welcome. *)
Theorem message_reaches_sender_and_join_skips_newcomer s :
  wf s →
  (∀ c message c' conn,
     c' ∈ connections s → heap s !! c' = Some conn → connected conn = true →
     heap (onMessage c (Utf8 message) s) !! c' =
       Some (deliver (saysText s c message) conn)) ∧
  (∀ c message conn,
     c ∈ connections s → heap s !! c = Some conn → connected conn = true →
     outbox <$> heap (onMessage c (Utf8 message) s) !! c =
       Some (outbox conn ++ ["User" +:+ pretty (remotePort conn) +:+ " says: " +:+ message])) ∧
  (∀ origin port, originIsAllowed origin = true →
     let new := nextConn s in
     let s' := onRequest origin port s in
     connections s' = connections s ++ [new] ∧
     (∀ c' conn,
        c' ∈ connections s → heap s !! c' = Some conn → connected conn = true →
        heap s' !! c' = Some (deliver (joinedText port) conn)) ∧
     outbox <$> heap s' !! new =
       Some [welcomeText port (S (length (connections s)))]).
Proof.
  intros Hwf. pose proof Hwf as [Hnd Hlt].
  assert (∀ c message c' conn,
     c' ∈ connections s → heap s !! c' = Some conn → connected conn = true →
     heap (onMessage c (Utf8 message) s) !! c' =
       Some (deliver (saysText s c message) conn)) as Hmsg.
  { intros c message c' conn Hin Hc' Hconn.
    destruct (onMessage_spec s c message Hnd) as [_ ->].
    rewrite bool_decide_eq_true_2 by done.
    rewrite (isConnected_true s c' conn) by done. cbn. by rewrite Hc'. }
  split_and!; [done| |].
  - intros c message conn Hin Hc Hconn.
    rewrite (Hmsg c message c conn) by done. cbn.
    unfold saysText, portOf, user. by rewrite Hc.
  - intros origin port Hallowed. cbv zeta.
    destruct (onRequest_spec s origin port Hwf Hallowed) as (Hconns & Hnew & Hold).
    split_and!; [done| |by rewrite Hnew].
    intros c' conn Hin Hc' Hconn. rewrite Hold by done.
    rewrite (isConnected_true s c' conn) by done. by rewrite Hc'.
Qed.

(** Two peers are online when the first one speaks and a third joins. *)
Definition two_online : State :=
  run init [Request "http://localhost:8080" 5001; Request "" 5002].

Lemma message_reaches_sender_and_join_skips_newcomer_witness :
  outbox <$> heap (onMessage 0 (Utf8 "hi") two_online) !! 0%nat =
    Some ["Welcome! You are User5001. There are 1 users online.";
          "User5002 has joined the chat"; "User5001 says: hi"] ∧
  outbox <$> heap (onRequest "null" 5003 two_online) !! 2%nat =
    Some ["Welcome! You are User5003. There are 3 users online."].
Proof.
  assert (wf two_online) as Hwf.
  { apply reachable_connections_wf. by exists [Request "http://localhost:8080" 5001; Request "" 5002]. }
  destruct (message_reaches_sender_and_join_skips_newcomer two_online Hwf)
    as (_ & Hsender & Hjoin).
  split.
  - apply (Hsender 0%nat "hi"
      (mkConnection true 5001
         ["Welcome! You are User5001. There are 1 users online.";
          "User5002 has joined the chat"])).
    + vm_compute. constructor.
    + vm_compute. reflexivity.
    + reflexivity.
  - apply (Hjoin "null" 5003%Z). vm_compute. reflexivity.
Defined.

(** The 'close' listener takes the connection out of the array. *)
Lemma onClose_removes s c : NoDup (connections s) → c ∉ connections (onClose c s).
Proof.
  intros Hnd. unfold onClose. rewrite sendWhere_connections.
  destruct (indexOf c (connections s)) as [i|] eqn:Hi; cbn.
  - by apply indexOf_delete.
  - by apply indexOf_None.
Qed.

End PushServerFacts.

(** ** Properties that span the servers *)

(** *** The lifetime of store entries *)

(** C4, as stated, fails on the short-polling server: the completed job
    "a", created at time 0, is in the store, and the cleanup run at
    600001 ms deletes it. *)
Lemma cleanup_deletes_finished_job :
  let s := ShortPollingFacts.finished_state in
  (∃ job, ShortPolling.jobs s !! "a" = Some job) ∧
  ShortPolling.jobs (ShortPolling.step s (ShortPolling.Cleanup 600001)) !! "a" = None.
Proof. cbv zeta. split; [eexists|]; by vm_compute. Qed.

(** C4, amended: an entry of the short-polling store disappears in a
    step exactly when the step is a cleanup run and the job is finished
    (completed or failed) and more than ten minutes old; no step of the
    long-polling server removes an entry of its store. *)
Theorem jobs_removed_only_by_cleanup :
  (∀ s e j job,
     ShortPolling.jobs s !! j = Some job →
     ShortPolling.jobs (ShortPolling.step s e) !! j = None ↔
     ∃ now, e = ShortPolling.Cleanup now ∧
            ShortPolling.finished job = true ∧
            (10 * (1000 * 60) < now - ShortPolling.createdAt job)%Z) ∧
  (∀ s e j,
     is_Some (LongPolling.jobs s !! j) →
     is_Some (LongPolling.jobs (LongPolling.step s e) !! j)).
Proof.
  split.
  - intros s e j job Hj. rewrite (ShortPollingFacts.step_removes_job s e j job Hj).
    unfold ShortPolling.expired. setoid_rewrite andb_true_iff.
    setoid_rewrite bool_decide_eq_true. done.
  - apply LongPollingFacts.step_keeps_jobs.
Qed.

Lemma jobs_removed_only_by_cleanup_witness :
  (ShortPolling.jobs (ShortPolling.step ShortPollingFacts.finished_state
                        (ShortPolling.Cleanup 600000)) !! "a" = None ↔
   ∃ now, ShortPolling.Cleanup 600000 = ShortPolling.Cleanup now ∧
          ShortPolling.finished (ShortPolling.mkJob "a" 100 ShortPolling.completed 0) = true ∧
          (10 * (1000 * 60) < now - 0)%Z) ∧
  is_Some (LongPolling.jobs (LongPolling.step LongPollingFacts.completed_state
                               (LongPolling.Fire 11 110000)) !! "j").
Proof.
  destruct jobs_removed_only_by_cleanup as [Hshort Hlong]. split.
  - apply (Hshort ShortPollingFacts.finished_state (ShortPolling.Cleanup 600000) "a"
             (ShortPolling.mkJob "a" 100 ShortPolling.completed 0)).
    vm_compute. reflexivity.
  - apply (Hlong LongPollingFacts.completed_state (LongPolling.Fire 11 110000) "j").
    vm_compute. eexists. reflexivity.
Defined.

(** *** Disconnects *)

(** C5, as stated, fails on the long-polling server: request 1 is parked
    on job "j", its client disconnects, and the waiter of request 1 is
    still on the waiting list with its timer armed. *)
Lemma parked_waiter_survives_disconnect :
  let s := LongPolling.run LongPolling.init
             [LongPolling.CreateJob 0 "j" 0; LongPolling.Poll 1 "j" "";
              LongPolling.ClientClose 1] in
  LongPolling.mkWaiting 1 "j" "pending" 1 ∈ LongPolling.waitingClients s ∧
  LongPolling.timers s !! 1%nat = Some (LongPolling.CbPollTimeout "j" 1).
Proof. cbv zeta. split; [vm_compute; constructor|by vm_compute]. Qed.

(** C5, amended: when a streaming client disconnects, its subscription
    is removed: the 'close' listeners of the SSE request delete the
    client id from [connectedClients] (leaving the other clients) and
    stop its heartbeat, and the 'close' listener of the push server
    takes the connection out of [connections].  The long-polling server
    runs no code on a disconnect: the waiting list and the timers are
    as they were before it. *)
Theorem disconnect_removes_subscription_only :
  (∀ (number : Type) (s : SSE.State number) clientId r,
     (clientId ∉ (SSE.connectedClients (SSE.onClose clientId r s)).*1) ∧
     (r ∉ SSE.heartbeats (SSE.onClose clientId r s)) ∧
     ∀ kv, kv ∈ SSE.connectedClients s → kv.1 ≠ clientId →
           kv ∈ SSE.connectedClients (SSE.onClose clientId r s)) ∧
  (∀ s c, NoDup (PushServer.connections s) →
          c ∉ PushServer.connections (PushServer.onClose c s)) ∧
  (∀ s r, LongPolling.waitingClients (LongPolling.step s (LongPolling.ClientClose r)) =
            LongPolling.waitingClients s ∧
          LongPolling.timers (LongPolling.step s (LongPolling.ClientClose r)) =
            LongPolling.timers s).
Proof.
  split_and!.
  - intros number s clientId r. cbn. split_and!.
    + apply SSEFacts.map_delete_not_elem.
    + intros Hin. apply elem_of_difference in Hin as [_ Hin].
      apply Hin. by apply elem_of_singleton.
    + intros kv Hin Hne. by apply SSEFacts.map_delete_other.
  - intros s c. apply PushServerFacts.onClose_removes.
  - done.
Qed.

Lemma disconnect_removes_subscription_only_witness :
  0%nat ∉ PushServer.connections (PushServer.onClose 0 PushServerFacts.two_online).
Proof.
  destruct disconnect_removes_subscription_only as (_ & Hpush & _).
  apply (Hpush PushServerFacts.two_online 0%nat).
  by_decide.
Defined.

(** *** Fan-out *)

(** C6, as stated, fails on the push server: connection 0 is no longer
    connected when connection 1 speaks; the message is not delivered to
    it, and after the broadcast it is still in [connections]. *)
Lemma closed_connection_stays_subscribed :
  let s := PushServer.run PushServer.init
             [PushServer.Request "" 5001; PushServer.Request "" 5002;
              PushServer.Disconnected 0] in
  let s' := PushServer.step s (PushServer.Incoming 1 (PushServer.Utf8 "hi")) in
  PushServer.isConnected s 0 = false ∧
  PushServer.heap s' !! 0%nat = PushServer.heap s !! 0%nat ∧
  0%nat ∈ PushServer.connections s'.
Proof. cbv zeta. split_and!; [by vm_compute|by vm_compute|vm_compute; constructor]. Qed.

(** C6, amended: a broadcast of the SSE server writes the event to
    every registered client whose stream is not ended and takes writes,
    and keeps that client registered; it deletes from [connectedClients]
    every client whose stream is ended or whose write raises, and writes
    nothing to it; neither outcome for one client changes what the
    others get.  A text message on the push server is pushed to every
    connected member of [connections]; a member that is not connected is
    passed over and stays in the array, and the others still get the
    message. *)
Theorem broadcast_isolates_subscribers :
  (∀ (number : Type) (s : SSE.State number) event clientId r,
     SSEFacts.wf s → (clientId, r) ∈ SSE.connectedClients s →
     let s' := SSE.broadcastToAllClients event s in
     (SSEFacts.healthy s r = true →
        ((clientId, r) ∈ SSE.connectedClients s') ∧
        SSE.writtenTo s' r = SSE.writtenTo s r ++ SSE.frames event) ∧
     (SSEFacts.healthy s r = false →
        (clientId ∉ (SSE.connectedClients s').*1) ∧
        SSE.writtenTo s' r = SSE.writtenTo s r)) ∧
  (∀ s c message,
     NoDup (PushServer.connections s) →
     let s' := PushServer.onMessage c (PushServer.Utf8 message) s in
     PushServer.connections s' = PushServer.connections s ∧
     ∀ c', PushServer.heap s' !! c' =
       if bool_decide (c' ∈ PushServer.connections s) && PushServer.isConnected s c'
       then PushServer.deliver (PushServerFacts.saysText s c message) <$> PushServer.heap s !! c'
       else PushServer.heap s !! c').
Proof.
  split.
  - intros number s event clientId r. apply SSEFacts.broadcastToAllClients_spec.
  - intros s c message. apply PushServerFacts.onMessage_spec.
Qed.

(** Three clients listen; the stream of the first has ended and the
    writes to the second raise. *)
Definition three_listeners : SSE.State Z :=
  SSE.run SSE.init
    [SSE.Connect "client_1" "iso" 1%Z; SSE.Connect "client_2" "iso" 2%Z;
     SSE.Connect "client_3" "iso" 3%Z; SSE.StreamEnds 0; SSE.StreamBreaks 1].

Lemma broadcast_isolates_subscribers_witness :
  let event := SSE.mkEvent None (Some "x") (SSE.DString "hello") in
  let s' := SSE.broadcastToAllClients event three_listeners in
  (("client_3", 2%nat) ∈ SSE.connectedClients s' ∧
   SSE.writtenTo s' 2%nat = SSE.writtenTo three_listeners 2%nat ++ SSE.frames event) ∧
  (("client_1" ∉ (SSE.connectedClients s').*1) ∧
   SSE.writtenTo s' 0%nat = SSE.writtenTo three_listeners 0%nat) ∧
  (("client_2" ∉ (SSE.connectedClients s').*1) ∧
   SSE.writtenTo s' 1%nat = SSE.writtenTo three_listeners 1%nat).
Proof.
  destruct broadcast_isolates_subscribers as [Hsse _].
  assert (SSEFacts.wf three_listeners) as Hwf
    by (split; by_decide).
  assert (SSE.connectedClients three_listeners =
          [("client_1", 0%nat); ("client_2", 1%nat); ("client_3", 2%nat)]) as Hcc
    by (by vm_compute).
  intros event s'. split; [|split].
  - apply (Hsse Z three_listeners event "client_3" 2%nat Hwf).
    + rewrite Hcc. do 2 right. left.
    + by vm_compute.
  - apply (Hsse Z three_listeners event "client_1" 0%nat Hwf).
    + rewrite Hcc. left.
    + by vm_compute.
  - apply (Hsse Z three_listeners event "client_2" 1%nat Hwf).
    + rewrite Hcc. right. left.
    + by vm_compute.
Defined.

(** *** Unknown keys *)

(** C8: a poll or a status check that names a key with no entry in
    the store is to be answered 404, and no waiter is to be parked.  The
    handlers test [jobs[jobId]] on a plain object, which also finds the
    keys the object inherits from [Object.prototype].  On the empty
    store, a poll for "toString" without [lastStatus] is held: a waiter
    is parked and a timer armed, and the deadline answers 200 with a
    timeout body; a poll for "constructor" with a [lastStatus] is
    answered 200 at once; a status check for "constructor" is answered
    200 with [isComplete: false].  For every other key without an entry
    the handlers do what the claim says: they answer 404 with the error
    body and change nothing else. *)
Theorem inherited_key_is_found :
  (let s' := LongPolling.poll 1 "toString" "" LongPolling.init in
   LongPolling.sent s' = [] ∧
   LongPolling.waitingClients s' = [LongPolling.mkWaiting 1 "toString" "undefined" 0] ∧
   LongPolling.timers s' !! 0%nat = Some (LongPolling.CbPollTimeout "toString" 1) ∧
   LongPolling.sent (LongPolling.step s' (LongPolling.Fire 0 60000)) =
     [(1%nat, LongPolling.mkResponse 200 (LongPolling.TimedOutUndefined "toString"))]) ∧
  (let s' := LongPolling.poll 1 "constructor" "pending" LongPolling.init in
   LongPolling.sent s' =
     [(1%nat, LongPolling.mkResponse 200 (LongPolling.ImmediateUndefined "constructor"))]) ∧
  (let s' := ShortPolling.checkStatus 1 "constructor" ShortPolling.init in
   ShortPolling.sent s' =
     [(1%nat, ShortPolling.mkResponse 200 ShortPolling.JobStatusUndefined)]) ∧
  (∀ j, j ≠ "" → j ∉ JsObject.prototypeKeys →
     (∀ s r lastStatus,
        LongPolling.jobs s !! j = None →
        let s' := LongPolling.poll r j lastStatus s in
        LongPolling.sent s' =
          LongPolling.sent s ++ [(r, LongPolling.mkResponse 404 LongPolling.JobNotFound)] ∧
        LongPolling.jobs s' = LongPolling.jobs s ∧
        LongPolling.waitingClients s' = LongPolling.waitingClients s ∧
        LongPolling.timers s' = LongPolling.timers s) ∧
     (∀ s r,
        ShortPolling.jobs s !! j = None →
        let s' := ShortPolling.checkStatus r j s in
        ShortPolling.sent s' =
          ShortPolling.sent s ++
          [(r, ShortPolling.mkResponse 404 (ShortPolling.JobNotFound j))] ∧
        ShortPolling.jobs s' = ShortPolling.jobs s ∧
        ShortPolling.intervals s' = ShortPolling.intervals s)).
Proof.
  split_and!.
  - cbv zeta. split_and!; by vm_compute.
  - by vm_compute.
  - by vm_compute.
  - intros j Hj Hproto. split.
    + intros s r lastStatus Hnone. cbv zeta.
      by rewrite LongPollingFacts.poll_unknown_job.
    + intros s r Hnone. cbv zeta.
      by rewrite ShortPollingFacts.checkStatus_unknown_job.
Qed.

Lemma inherited_key_is_found_witness :
  LongPolling.sent (LongPolling.poll 1 "job_x" "pending" LongPollingFacts.processing_state) =
    LongPolling.sent LongPollingFacts.processing_state ++
    [(1%nat, LongPolling.mkResponse 404 LongPolling.JobNotFound)] ∧
  ShortPolling.sent (ShortPolling.checkStatus 1 "job_x" ShortPollingFacts.finished_state) =
    ShortPolling.sent ShortPollingFacts.finished_state ++
    [(1%nat, ShortPolling.mkResponse 404 (ShortPolling.JobNotFound "job_x"))].
Proof.
  destruct inherited_key_is_found as (_ & _ & _ & Hother).
  destruct (Hother "job_x") as [Hlong Hshort];
    [discriminate|by apply (JsObjectFacts.prototypeKeys_not_minted _ "x")|].
  split.
  - apply (Hlong LongPollingFacts.processing_state 1%nat "pending"). by vm_compute.
  - apply (Hshort ShortPollingFacts.finished_state 1%nat). by vm_compute.
Defined.

(** * Further properties of the servers *)

(** ** Long polling: the waiting list *)
(** Two facts on [filter] that the servers' loops over arrays and maps
    share. *)
Lemma filter_all {A} (P : A → Prop) `{!∀ x, Decision (P x)} (l : list A) :
  (∀ x, x ∈ l → P x) → filter P l = l.
Proof.
  induction l as [|x l IH]; intros Hall; [done|].
  rewrite filter_cons_True by (apply Hall; by left).
  f_equal. apply IH. intros y Hy. apply Hall. by right.
Qed.

Lemma filter_ext_in {A} (P Q : A → Prop)
    `{!∀ x, Decision (P x)} `{!∀ x, Decision (Q x)} (l : list A) :
  (∀ x, x ∈ l → P x ↔ Q x) → filter P l = filter Q l.
Proof.
  induction l as [|x l IH]; intros Hall; [done|].
  assert (filter P l = filter Q l) as Hl
    by (apply IH; intros y Hy; apply Hall; by right).
  destruct (decide (P x)) as [HP|HP].
  - rewrite !filter_cons_True; [by f_equal|by apply Hall; [left|]|done].
  - rewrite !filter_cons_False; [done| |done].
    intros HQ. apply HP. apply Hall; [by left|done].
Qed.

Module LongPollingExtra.
Import JsObject JsObjectFacts LongPolling LongPollingFacts.

Lemma notify_fold_timers_lookup j job l s t :
  timers (foldl (notifyOne j job) s l) !! t =
    if bool_decide (t ∈ timeout <$> l) then None else timers s !! t.
Proof.
  revert s. induction l as [|c l IH]; intros s; cbn [foldl fmap list_fmap].
  - by rewrite bool_decide_eq_false_2 by apply not_elem_of_nil.
  - rewrite IH. cbn [timers notifyOne json clearTimeout set_timers].
    destruct (decide (t = timeout c)) as [->|Hne].
    + rewrite (bool_decide_eq_true_2 (timeout c ∈ timeout c :: _)) by (by left).
      rewrite lookup_delete_eq. by case_bool_decide.
    + rewrite lookup_delete_ne by done.
      assert (bool_decide (t ∈ timeout c :: (timeout <$> l)) =
              bool_decide (t ∈ timeout <$> l)) as ->; [|done].
      apply bool_decide_ext. rewrite elem_of_cons.
      split; [by intros [?|?]|by right].
Qed.

(** X1: a notification for a job answers the waiters of that job, in
    the order of the waiting list, with the job's current state; it takes
    exactly them off the list and clears exactly their timers, so that
    their deadlines later run no code; the store is not touched. *)
Theorem notify_drains_the_job s j job :
  jobs s !! j = Some job →
  let s' := notifyWaitingClients j s in
  sent s' = sent s ++ ((λ w, (res w, changedReply j job)) <$>
                       filter (λ w, jobId w = j) (waitingClients s)) ∧
  waitingClients s' = filter (λ w, jobId w ≠ j) (waitingClients s) ∧
  (∀ t, timers s' !! t =
        if bool_decide (t ∈ timeout <$> filter (λ w, jobId w = j) (waitingClients s))
        then None else timers s !! t) ∧
  (∀ w now, w ∈ waitingClients s → jobId w = j → fire (timeout w) now s' = s') ∧
  jobs s' = jobs s.
Proof.
  intros Hjob. cbv zeta.
  assert (∀ t, timers (notifyWaitingClients j s) !! t =
        if bool_decide (t ∈ timeout <$> filter (λ w, jobId w = j) (waitingClients s))
        then None else timers s !! t) as Htimers.
  { intros t. unfold notifyWaitingClients. cbn [timers set_waitingClients].
    rewrite Hjob. apply notify_fold_timers_lookup. }
  split_and!.
  - by apply notifyWaitingClients_sent.
  - apply notifyWaitingClients_waitingClients.
  - done.
  - intros w now Hw Hj. unfold fire. rewrite Htimers.
    rewrite bool_decide_eq_true_2; [done|].
    apply list_elem_of_fmap_2. by apply list_elem_of_filter.
  - apply notifyWaitingClients_jobs.
Qed.

Lemma notify_drains_the_job_witness :
  let s := step processing_state (Poll 1 "j" "processing") in
  waitingClients (notifyWaitingClients "j" s) = [] ∧
  timers (notifyWaitingClients "j" s) !! 3%nat = None.
Proof.
  destruct (notify_drains_the_job
              (step processing_state (Poll 1 "j" "processing")) "j"
              (mkJob "j" processing 10 None 3000))
    as (_ & Hw & Ht & _); [by vm_compute|].
  split; [by rewrite Hw|]. by rewrite Ht.
Defined.

(** [scanDown] finds the last waiter of the job below the bound. *)
Lemma scanDown_last j l1 w l2 k :
  jobId w = j → (∀ w', w' ∈ l2 → jobId w' ≠ j) →
  (length l1 < k ≤ length (l1 ++ w :: l2))%nat →
  scanDown j (l1 ++ w :: l2) k = Some (length l1).
Proof.
  intros Hw Hl2. induction k as [|i IH]; intros [Hlo Hhi]; [lia|].
  cbn [scanDown]. destruct (decide (i = length l1)) as [->|Hne].
  - rewrite list_lookup_middle by done. by rewrite decide_True.
  - destruct ((l1 ++ w :: l2) !! i) as [c|] eqn:Hc; [|apply IH; lia].
    rewrite lookup_app_r in Hc by lia.
    destruct (i - length l1)%nat as [|n] eqn:Hn; [lia|]. cbn in Hc.
    rewrite decide_False; [apply IH; lia|].
    apply Hl2. by eapply list_elem_of_lookup_2.
Qed.

Lemma scanDown_none j l k :
  (∀ w, w ∈ l → jobId w ≠ j) → scanDown j l k = None.
Proof.
  intros Hl. induction k as [|i IH]; [done|]. cbn [scanDown].
  destruct (l !! i) as [c|] eqn:Hc; [|done].
  rewrite decide_False; [done|]. apply Hl. by eapply list_elem_of_lookup_2.
Qed.

Lemma removeWaitingClient_last j s l1 w l2 :
  waitingClients s = l1 ++ w :: l2 → jobId w = j →
  (∀ w', w' ∈ l2 → jobId w' ≠ j) →
  removeWaitingClient j s =
    mkState (jobs s) (l1 ++ l2) (delete (timeout w) (timers s))
            (nextTimer s) (sent s).
Proof.
  intros Hl Hw Hl2. unfold removeWaitingClient. rewrite Hl.
  rewrite (scanDown_last j l1 w l2) by (rewrite ?length_app; cbn; done || lia).
  rewrite list_lookup_middle by done.
  unfold set_waitingClients, clearTimeout, set_timers. cbn.
  by rewrite Hl, delete_middle.
Qed.

Lemma removeWaitingClient_absent j s :
  (∀ w, w ∈ waitingClients s → jobId w ≠ j) → removeWaitingClient j s = s.
Proof. intros Hnone. unfold removeWaitingClient. by rewrite scanDown_none. Qed.

(** X2: [removeWaitingClient] takes one waiter off the list, the last
    one parked on the job, whichever request asked; it clears the timer
    of that waiter and leaves every other waiter, timer and reply alone.
    When no waiter is parked on the job it does nothing. *)
Theorem removeWaitingClient_takes_the_last j s :
  (∀ l1 w l2,
     waitingClients s = l1 ++ w :: l2 → jobId w = j →
     (∀ w', w' ∈ l2 → jobId w' ≠ j) →
     removeWaitingClient j s =
       mkState (jobs s) (l1 ++ l2) (delete (timeout w) (timers s))
               (nextTimer s) (sent s)) ∧
  ((∀ w, w ∈ waitingClients s → jobId w ≠ j) → removeWaitingClient j s = s).
Proof.
  split.
  - intros l1 w l2. apply removeWaitingClient_last.
  - apply removeWaitingClient_absent.
Qed.

Lemma removeWaitingClient_takes_the_last_witness :
  let s := run completed_state [Poll 1 "j" "completed"; Poll 2 "j" "completed"] in
  waitingClients (removeWaitingClient "j" s) = [mkWaiting 1 "j" "completed" 11] ∧
  removeWaitingClient "k" s = s.
Proof.
  destruct (removeWaitingClient_takes_the_last "j"
              (run completed_state [Poll 1 "j" "completed"; Poll 2 "j" "completed"]))
    as [Hlast _].
  destruct (removeWaitingClient_takes_the_last "k"
              (run completed_state [Poll 1 "j" "completed"; Poll 2 "j" "completed"]))
    as [_ Hnone].
  split.
  - rewrite (Hlast [mkWaiting 1 "j" "completed" 11] (mkWaiting 2 "j" "completed" 12) []);
      [done|by vm_compute|done|].
    intros w' Hw'. inversion Hw'.
  - apply Hnone. intros w Hw.
    assert (waitingClients (run completed_state
              [Poll 1 "j" "completed"; Poll 2 "j" "completed"]) =
            [mkWaiting 1 "j" "completed" 11; mkWaiting 2 "j" "completed" 12]) as Hl
      by (by vm_compute).
    rewrite Hl in Hw.
    apply elem_of_cons in Hw as [->|Hw]; [discriminate|].
    apply elem_of_cons in Hw as [->|Hw]; [discriminate|].
    inversion Hw.
Defined.

(** X3: the deadline of a request releases the right waiter exactly when
    that waiter is the last one parked on its job: then the waiter of the
    request leaves the list, its timer is gone, the request gets the
    timeout reply and nothing else changes. *)
Theorem deadline_of_last_waiter s t now j r job l1 w l2 :
  timers s !! t = Some (CbPollTimeout j r) → jobs s !! j = Some job →
  waitingClients s = l1 ++ w :: l2 → jobId w = j → timeout w = t →
  (∀ w', w' ∈ l2 → jobId w' ≠ j) →
  step s (Fire t now) =
    mkState (jobs s) (l1 ++ l2) (delete t (timers s)) (nextTimer s)
            (sent s ++ [(r, mkResponse 200 (TimedOut j (status job) (progress job)))]).
Proof.
  intros Ht Hjob Hl Hw Htw Hl2. cbn [step]. unfold fire. rewrite Ht.
  unfold pollTimeout.
  rewrite (removeWaitingClient_last j (set_timers (delete t) s) l1 w l2) by done.
  cbn [jobs set_timers]. rewrite (get_own _ _ _ Hjob).
  unfold json. cbn. rewrite Htw. f_equal. apply delete_delete_eq.
Qed.

Lemma deadline_of_last_waiter_witness :
  waitingClients (step (step completed_state (Poll 1 "j" "completed")) (Fire 11 110000)) = [].
Proof.
  rewrite (deadline_of_last_waiter (step completed_state (Poll 1 "j" "completed"))
             11 110000 "j" 1 (mkJob "j" completed 100
                (Some "Job j completed successfully!") 48000)
             [] (mkWaiting 1 "j" "completed" 11) []).
  - done.
  - by vm_compute.
  - by vm_compute.
  - by vm_compute.
  - done.
  - done.
  - intros w' Hw'. inversion Hw'.
Defined.

(** *** What a poll does *)

Lemma snoc_ne {A} (l : list A) x : l ++ [x] ≠ l.
Proof.
  intros Heq. apply (f_equal length) in Heq. rewrite length_app in Heq. cbn in Heq. lia.
Qed.

(** X4: a poll never changes the job store, and it does exactly one of
    two things: it answers the request at once and leaves the waiting
    list and the timers alone, or it sends nothing and parks one waiter
    with a freshly armed timer.  The parked waiter records the current
    status of the job, or [undefined] when the key is not a job of the
    store but a key inherited from [Object.prototype]. *)
Theorem poll_answers_or_parks s r j lastStatus :
  let s' := poll r j lastStatus s in
  jobs s' = jobs s ∧
  ((∃ resp, sent s' = sent s ++ [(r, resp)] ∧
            waitingClients s' = waitingClients s ∧ timers s' = timers s) ∨
   (∃ seen,
      ((∃ job, jobs s !! j = Some job ∧ seen = status_str (status job)) ∨
       (jobs s !! j = None ∧ j ∈ prototypeKeys ∧ seen = "undefined")) ∧
      sent s' = sent s ∧
      waitingClients s' = waitingClients s ++ [mkWaiting r j seen (nextTimer s)] ∧
      timers s' = <[nextTimer s := CbPollTimeout j r]> (timers s))).
Proof.
  cbv zeta. unfold poll, get. destruct (decide (j = "")); [split; [done|left; eauto]|].
  destruct (jobs s !! j) as [job|] eqn:Hjob.
  - destruct (hasJobStatusChanged job lastStatus); [split; [done|left; eauto]|].
    split; [done|right]. exists (status_str (status job)). split; [left; eauto|done].
  - case_bool_decide as Hproto; [|split; [done|left; eauto]].
    case_bool_decide; [split; [done|left; eauto]|].
    split; [done|right]. exists "undefined". split; [by right|done].
Qed.

(** X5: a poll is held (the handler returns without replying) exactly
    when it names a job of the store and its [lastStatus] is absent or
    equal to the job's current status, or it names a key inherited from
    [Object.prototype] and its [lastStatus] is absent. *)
Theorem poll_is_held_iff s r j lastStatus :
  sent (poll r j lastStatus s) = sent s ↔
  j ≠ "" ∧
  ((∃ job, jobs s !! j = Some job ∧
           (lastStatus = "" ∨ lastStatus = status_str (status job))) ∨
   (jobs s !! j = None ∧ j ∈ prototypeKeys ∧ lastStatus = "")).
Proof.
  unfold poll, get. destruct (decide (j = "")) as [->|Hj].
  { cbn. split; [intros Heq; by apply snoc_ne in Heq|by intros [? _]]. }
  destruct (jobs s !! j) as [job|] eqn:Hjob.
  - destruct (hasJobStatusChanged job lastStatus) eqn:Hch.
    + cbn. split; [intros Heq; by apply snoc_ne in Heq|].
      intros (_ & [(job' & [= <-] & Hls)|(? & _)]); [|done].
      apply hasJobStatusChanged_true in Hch as [Hne1 Hne2].
      destruct Hls as [?|?]; congruence.
    + cbn. split; [intros _|done]. split; [done|]. left. exists job. split; [done|].
      unfold hasJobStatusChanged in Hch. apply andb_false_iff in Hch as [Hch|Hch].
      * left. apply bool_decide_eq_false in Hch. by apply dec_stable.
      * right. apply bool_decide_eq_false in Hch. symmetry. by apply dec_stable.
  - case_bool_decide as Hproto.
    + case_bool_decide as Hls.
      * cbn. split; [intros Heq; by apply snoc_ne in Heq|].
        intros (_ & [(job & ? & _)|(_ & _ & ?)]); done.
      * cbn. split; [intros _|done]. split; [done|]. right.
        split_and!; [done|done|].
        destruct (decide (lastStatus = "")) as [?|Hne]; [done|by destruct Hls].
    + cbn. split; [intros Heq; by apply snoc_ne in Heq|].
      intros (_ & [(job & ? & _)|(_ & ? & _)]); done.
Qed.

(** *** Invariants of the reachable states *)

Lemma poll_jobs r j lastStatus s : jobs (poll r j lastStatus s) = jobs s.
Proof. unfold poll. by repeat case_match. Qed.

Lemma fire_jobs t now s :
  jobs (fire t now s) =
    match timers s !! t with
    | Some (CbNextStage j k) =>
        match stages !! k with
        | Some (st, pr) => alter (applyStage j st pr now) j (jobs s)
        | None => jobs s
        end
    | _ => jobs s
    end.
Proof.
  unfold fire. destruct (timers s !! t) as [[j|j k|j r]|]; [| | |done].
  - unfold processJob. cbn [jobs set_timers]. by case_match.
  - by rewrite nextStage_jobs.
  - unfold pollTimeout. case_match; cbn [jobs json]; by rewrite removeWaitingClient_jobs.
Qed.

Lemma stage_row k st pr :
  stages !! k = Some (st, pr) →
  (st = processing ∧ (10 ≤ pr ≤ 90)%Z) ∨ (st = completed ∧ pr = 100%Z).
Proof.
  intros Hk. apply list_elem_of_lookup_2 in Hk. unfold stages in Hk.
  repeat (apply elem_of_cons in Hk as [[= -> ->]|Hk]; [left + right; split; [done|lia]|]).
  inversion Hk.
Qed.

(** What the long-polling store holds under the key [j]. *)
Definition job_ok (j : string) (job : Job) : Prop :=
  id job = j ∧
  (0 ≤ progress job ≤ 100)%Z ∧
  status job ≠ failed ∧
  (status job = pending ↔ progress job = 0%Z) ∧
  (status job = completed ↔ progress job = 100%Z) ∧
  (status job = completed →
   result job = Some ("Job " +:+ j +:+ " completed successfully!")).

Lemma applyStage_ok j k st pr now job :
  stages !! k = Some (st, pr) → job_ok j job → job_ok j (applyStage j st pr now job).
Proof.
  intros Hk (Hid & _). unfold job_ok, applyStage.
  cbn [id status progress result].
  destruct (stage_row k st pr Hk) as [[-> Hpr]|[-> ->]].
  - split_and!; [done|lia|lia|done|split; [done|lia]|split; [done|lia]|done].
  - split_and!; [done|lia|lia|done|done|done|intros _; by destruct (decide _)].
Qed.

Lemma step_jobs_ok s e :
  (∀ j job, jobs s !! j = Some job → job_ok j job) →
  ∀ j job, jobs (step s e) !! j = Some job → job_ok j job.
Proof.
  intros Hok j job. destruct e as [r j' now|r j' ls|t now|r]; cbn [step].
  - cbn. rewrite lookup_insert_Some. intros [[<- <-]|[_ Hj]]; [|by apply Hok].
    unfold job_ok. cbn. split_and!; try done.
  - rewrite poll_jobs. apply Hok.
  - rewrite fire_jobs. destruct (timers s !! t) as [[j'|j' k|j' r]|]; try apply Hok.
    destruct (stages !! k) as [[st pr]|] eqn:Hk; [|apply Hok].
    rewrite lookup_alter_Some. intros [(<- & job' & Hj & ->)|[_ Hj]].
    + eapply applyStage_ok; [done|]. by apply Hok.
    + by apply Hok.
  - apply Hok.
Qed.

(** X6: in every reachable state a job carries its own key as [id], its
    progress lies between 0 and 100, it is never 'failed', it is
    'pending' exactly at progress 0 and 'completed' exactly at progress
    100, and a completed job carries its result text. *)
Theorem reachable_jobs_are_consistent s j job :
  reachable s → jobs s !! j = Some job →
  id job = j ∧
  (0 ≤ progress job ≤ 100)%Z ∧
  status job ≠ failed ∧
  (status job = pending ↔ progress job = 0%Z) ∧
  (status job = completed ↔ progress job = 100%Z) ∧
  (status job = completed →
   result job = Some ("Job " +:+ j +:+ " completed successfully!")).
Proof.
  intros Hreach. revert j job. revert s Hreach. apply (reachable_ind
    (λ s, ∀ j job, jobs s !! j = Some job → job_ok j job)).
  - intros j job Hj. done.
  - intros s e _ IH. by apply step_jobs_ok.
Qed.

Lemma reachable_jobs_are_consistent_witness :
  id (mkJob "j" completed 100 (Some "Job j completed successfully!") 48000) = "j" ∧
  (0 ≤ 100 ≤ 100)%Z ∧
  completed ≠ failed ∧
  (completed = pending ↔ 100%Z = 0%Z) ∧
  (completed = completed ↔ 100%Z = 100%Z) ∧
  (completed = completed →
   Some "Job j completed successfully!" = Some ("Job " +:+ "j" +:+ " completed successfully!")).
Proof.
  apply (reachable_jobs_are_consistent completed_state "j"
           (mkJob "j" completed 100 (Some "Job j completed successfully!") 48000)).
  - exists [CreateJob 0 "j" 0; Fire 0 1000; Fire 1 3000;
            Fire 2 8000; Fire 3 13000; Fire 4 18000; Fire 5 23000; Fire 6 28000;
            Fire 7 33000; Fire 8 38000; Fire 9 43000; Fire 10 48000].
    vm_compute. reflexivity.
  - vm_compute. reflexivity.
Defined.

(** *** Timers and waiters of the reachable states *)

(** [jobs[j]] finds a value: a job of the store or a value inherited
    from [Object.prototype]. *)
Definition found (j : string) (s : State) : Prop :=
  is_Some (jobs s !! j) ∨ j ∈ prototypeKeys.

(** What the callback of an armed timer can rely on: the timers of
    [create-job] and [processJob] name a job of the store, a poll
    deadline names a key the poll handler found. *)
Definition backed (cb : Callback) (s : State) : Prop :=
  match cb with
  | CbProcessJob j | CbNextStage j _ => is_Some (jobs s !! j)
  | CbPollTimeout j _ => found j s
  end.

(** Armed timers and parked waiters name keys the store answers for and
    handles that [setTimeout] has given out; an armed poll deadline has
    its waiter on the list; no two waiters share a handle. *)
Definition tidy (s : State) : Prop :=
  (∀ t cb, timers s !! t = Some cb → (t < nextTimer s)%nat ∧ backed cb s) ∧
  (∀ w, w ∈ waitingClients s → (timeout w < nextTimer s)%nat ∧ found (jobId w) s) ∧
  (∀ t j r, timers s !! t = Some (CbPollTimeout j r) →
            ∃ w, w ∈ waitingClients s ∧ timeout w = t ∧ jobId w = j ∧ res w = r) ∧
  NoDup (timeout <$> waitingClients s).

Lemma found_get j s : found j s ↔ get j (jobs s) ≠ Missing.
Proof.
  unfold found. rewrite get_Missing_iff. split.
  - intros [[job Hjob]|Hin] [Hnone Hnot]; [congruence|done].
  - intros Hne. destruct (jobs s !! j) as [job|] eqn:Hjob; [left; eauto|].
    right. destruct (decide (j ∈ prototypeKeys)); [done|]. by destruct Hne.
Qed.

Lemma backed_mono cb s s' :
  (∀ j, is_Some (jobs s !! j) → is_Some (jobs s' !! j)) → backed cb s → backed cb s'.
Proof.
  intros Hmono. destruct cb as [j|j k|j r]; cbn; [by auto|by auto|].
  intros [Hown|Hin]; [left; by auto|by right].
Qed.

Lemma found_mono j s s' :
  (∀ j, is_Some (jobs s !! j) → is_Some (jobs s' !! j)) → found j s → found j s'.
Proof. intros Hmono [Hown|Hin]; [left; by auto|by right]. Qed.

Lemma tidy_init : tidy init.
Proof.
  unfold tidy, init. cbn. split_and!.
  - intros t cb Ht. rewrite lookup_empty in Ht. discriminate.
  - intros w Hw. inversion Hw.
  - intros t j r Ht. rewrite lookup_empty in Ht. discriminate.
  - constructor.
Qed.

Lemma tidy_json r c b s : tidy s → tidy (json r c b s).
Proof. done. Qed.

Lemma tidy_set_jobs f s :
  (∀ j, is_Some (jobs s !! j) → is_Some (f (jobs s) !! j)) →
  tidy s → tidy (set_jobs f s).
Proof.
  intros Hf (Ht & Hw & Ha & Hn). unfold tidy. cbn [timers waitingClients nextTimer set_jobs].
  split_and!; [| |done|done].
  - intros t cb Hcb. destruct (Ht t cb Hcb). split; [done|].
    by apply (backed_mono cb s).
  - intros w Hin. destruct (Hw w Hin). split; [done|].
    by apply (found_mono _ s).
Qed.

Lemma tidy_delete t s : tidy s → tidy (set_timers (delete t) s).
Proof.
  intros (Ht & Hw & Ha & Hn). unfold tidy.
  cbn [timers waitingClients nextTimer set_timers]. split_and!; [|done| |done].
  - intros t' cb Hcb. apply lookup_delete_Some in Hcb as [_ Hcb].
    destruct (Ht t' cb Hcb). split; [done|]. by apply (backed_mono cb s).
  - intros t' j r Hcb. apply lookup_delete_Some in Hcb as [_ Hcb]. by apply Ha.
Qed.

Lemma tidy_setTimeout cb s :
  (∀ j r, cb ≠ CbPollTimeout j r) → backed cb s →
  tidy s → tidy (setTimeout cb s).
Proof.
  intros Hcb Hjob (Ht & Hw & Ha & Hn). unfold tidy.
  cbn [timers waitingClients nextTimer setTimeout].
  split_and!; [| | |done].
  - intros t cb' Hl. apply lookup_insert_Some in Hl as [[<- <-]|[_ Hl]].
    + split; [lia|]. by apply (backed_mono cb s).
    + destruct (Ht t cb' Hl). split; [lia|]. by apply (backed_mono cb' s).
  - intros w Hin. destruct (Hw w Hin). split; [lia|]. by apply (found_mono _ s).
  - intros t j r Hl. apply lookup_insert_Some in Hl as [[_ ->]|[_ Hl]].
    + by destruct (Hcb j r).
    + by apply Ha.
Qed.

Lemma tidy_park r j seen s :
  found j s → tidy s →
  tidy (set_waitingClients (λ l, l ++ [mkWaiting r j seen (nextTimer s)])
          (setTimeout (CbPollTimeout j r) s)).
Proof.
  intros Hjob (Ht & Hw & Ha & Hn). unfold tidy.
  cbn [timers waitingClients nextTimer set_waitingClients setTimeout].
  split_and!.
  - intros t cb' Hl. apply lookup_insert_Some in Hl as [[<- <-]|[_ Hl]].
    + split; [lia|]. exact Hjob.
    + destruct (Ht t cb' Hl). split; [lia|]. by apply (backed_mono cb' s).
  - intros w Hin. apply elem_of_app in Hin as [Hin|Hin].
    + destruct (Hw w Hin). split; [lia|]. by apply (found_mono _ s).
    + apply list_elem_of_singleton in Hin as ->. cbn. split; [lia|exact Hjob].
  - intros t j' r' Hl. apply lookup_insert_Some in Hl as [[<- [= <- <-]]|[_ Hl]].
    + eexists. split; [apply elem_of_app; right; by apply list_elem_of_singleton|done].
    + destruct (Ha t j' r' Hl) as (w & Hin & ?). exists w.
      split; [apply elem_of_app; by left|done].
  - rewrite fmap_app. apply NoDup_app. split_and!; [done| |apply NoDup_singleton].
    intros x Hx Hx'. cbn in Hx'. apply list_elem_of_singleton in Hx' as ->.
    apply list_elem_of_fmap in Hx as (w & Heq & Hin). destruct (Hw w Hin). lia.
Qed.

Lemma tidy_remove j s : tidy s → tidy (removeWaitingClient j s).
Proof.
  intros Htidy. unfold removeWaitingClient.
  destruct (scanDown j (waitingClients s) (length (waitingClients s))) as [i|]; [|done].
  destruct (waitingClients s !! i) as [c|] eqn:Hc; [|done].
  destruct Htidy as (Ht & Hw & Ha & Hn).
  unfold tidy. cbn [timers waitingClients nextTimer set_waitingClients clearTimeout set_timers].
  pose proof (take_drop_middle _ _ _ Hc) as Hsplit.
  split_and!.
  - intros t cb Hl. apply lookup_delete_Some in Hl as [_ Hl].
    destruct (Ht t cb Hl). split; [done|]. by apply (backed_mono cb s).
  - intros w Hin.
    destruct (Hw w) as [? ?]; [eapply elem_of_sublist; [done|apply sublist_delete]|].
    split; [done|]. by apply (found_mono _ s).
  - intros t j' r' Hl. apply lookup_delete_Some in Hl as [Hne Hl].
    destruct (Ha t j' r' Hl) as (w & Hin & Htw & Hjw & Hrw). exists w.
    split; [|done]. rewrite delete_take_drop. rewrite <-Hsplit in Hin.
    apply elem_of_app in Hin as [Hin|Hin]; [apply elem_of_app; by left|].
    apply elem_of_cons in Hin as [->|Hin]; [congruence|apply elem_of_app; by right].
  - eapply sublist_NoDup; [exact Hn|]. apply fmap_sublist, sublist_delete.
Qed.

Lemma tidy_notify j s :
  is_Some (jobs s !! j) → tidy s → tidy (notifyWaitingClients j s).
Proof.
  intros [job Hjob] (Ht & Hw & Ha & Hn). unfold tidy.
  rewrite notifyWaitingClients_nextTimer, notifyWaitingClients_waitingClients.
  assert (∀ j', is_Some (jobs s !! j') → is_Some (jobs (notifyWaitingClients j s) !! j'))
    as Hmono by (intros j'; by rewrite notifyWaitingClients_jobs).
  assert (∀ t cb, timers (notifyWaitingClients j s) !! t = Some cb →
                  timers s !! t = Some cb ∧
                  t ∉ timeout <$> filter (λ w, jobId w = j) (waitingClients s)) as Hold.
  { intros t cb. unfold notifyWaitingClients. cbn [timers set_waitingClients].
    rewrite Hjob, notify_fold_timers_lookup. case_bool_decide; [done|]. auto. }
  split_and!.
  - intros t cb Hl. apply Hold in Hl as [Hl _]. destruct (Ht t cb Hl).
    split; [done|]. by apply (backed_mono cb s).
  - intros w Hin. apply list_elem_of_filter in Hin as [_ Hin]. destruct (Hw w Hin).
    split; [done|]. by apply (found_mono _ s).
  - intros t j' r' Hl. apply Hold in Hl as [Hl Hnot].
    destruct (Ha t j' r' Hl) as (w & Hin & Htw & Hjw & Hrw). exists w.
    split; [|done]. apply list_elem_of_filter. split; [|done].
    intros Hj. apply Hnot. rewrite <-Htw. apply list_elem_of_fmap_2.
    by apply list_elem_of_filter.
  - eapply sublist_NoDup; [exact Hn|]. apply fmap_sublist, sublist_filter.
Qed.

Lemma tidy_step s e : tidy s → tidy (step s e).
Proof.
  intros Htidy. destruct e as [r j now|r j ls|t now|r]; cbn [step]; [| | |done].
  - unfold createJob. apply tidy_json, tidy_setTimeout; [done| |].
    + cbn. rewrite lookup_insert_eq. eauto.
    + apply tidy_set_jobs; [|done]. intros j' Hj'. rewrite lookup_insert_is_Some.
      destruct (decide (j = j')); auto.
  - unfold poll. destruct (decide (j = "")); [by apply tidy_json|].
    destruct (get j (jobs s)) as [job| |] eqn:Hget; [| |by apply tidy_json].
    + destruct (hasJobStatusChanged job ls); [by apply tidy_json|].
      apply tidy_park; [|done]. apply found_get. by rewrite Hget.
    + case_bool_decide; [by apply tidy_json|].
      apply tidy_park; [|done]. apply found_get. by rewrite Hget.
  - unfold fire. destruct (timers s !! t) as [cb|] eqn:Hcb; [|done].
    assert (backed cb s) as Hjob
      by (destruct Htidy as (Ht & _); by destruct (Ht t cb Hcb)).
    apply (tidy_delete t) in Htidy. destruct cb as [j|j k|j r]; cbn in Hjob.
    + unfold processJob. cbn [jobs set_timers].
      destruct (jobs s !! j) as [job|] eqn:Hj; [|done].
      apply tidy_setTimeout; [done| |done]. cbn [backed jobs set_timers].
      by rewrite Hj.
    + unfold nextStage. destruct (stages !! k) as [[st pr]|]; [|done].
      assert (tidy (notifyWaitingClients j
                (set_jobs (alter (applyStage j st pr now) j) (set_timers (delete t) s))))
        as Hn.
      { apply tidy_notify; [cbn; by rewrite lookup_alter_is_Some|].
        apply tidy_set_jobs; [|done]. intros j'. by rewrite lookup_alter_is_Some. }
      case_decide; [|done]. apply tidy_setTimeout; [done| |done].
      cbn [backed]. rewrite notifyWaitingClients_jobs. cbn.
      by rewrite lookup_alter_is_Some.
    + unfold pollTimeout. apply (tidy_remove j) in Htidy.
      case_match; [by apply tidy_json|by apply tidy_json|done].
Qed.

(** X7: in every reachable state, every armed timer of [create-job] or
    [processJob] names a job of the store (so the early return of
    [processJob] on a missing job is never taken); every armed poll
    deadline and every parked waiter names a key for which [jobs[jobId]]
    finds a value, a job of the store or a key inherited from
    [Object.prototype]; every armed poll deadline still has the waiter
    it was armed for on the list, and no two waiters share a timer
    handle. *)
Theorem reachable_timers_and_waiters s :
  reachable s →
  (∀ t j, (timers s !! t = Some (CbProcessJob j) ∨
           ∃ k, timers s !! t = Some (CbNextStage j k)) →
          (t < nextTimer s)%nat ∧ is_Some (jobs s !! j)) ∧
  (∀ t j r, timers s !! t = Some (CbPollTimeout j r) →
            (t < nextTimer s)%nat ∧ (is_Some (jobs s !! j) ∨ j ∈ prototypeKeys)) ∧
  (∀ w, w ∈ waitingClients s →
        (timeout w < nextTimer s)%nat ∧
        (is_Some (jobs s !! jobId w) ∨ jobId w ∈ prototypeKeys)) ∧
  (∀ t j r, timers s !! t = Some (CbPollTimeout j r) →
            ∃ w, w ∈ waitingClients s ∧ timeout w = t ∧ jobId w = j ∧ res w = r) ∧
  NoDup (timeout <$> waitingClients s).
Proof.
  intros Hreach.
  assert (tidy s) as (Ht & Hw & Ha & Hn).
  { revert s Hreach. apply (reachable_ind tidy); [apply tidy_init|].
    intros s e _. apply tidy_step. }
  split_and!; [| |done|done|done].
  - intros t j [Hcb|[k Hcb]]; apply Ht in Hcb; exact Hcb.
  - intros t j r Hcb. apply Ht in Hcb. exact Hcb.
Qed.

Lemma reachable_timers_and_waiters_witness :
  NoDup (timeout <$> waitingClients
           (run init [CreateJob 0 "j" 0; Poll 1 "j" ""; Poll 2 "toString" ""])).
Proof.
  apply (reachable_timers_and_waiters
           (run init [CreateJob 0 "j" 0; Poll 1 "j" ""; Poll 2 "toString" ""])).
  by eexists.
Defined.

(** *** A job runs to completion *)

Lemma process_fires s t j now :
  timers s !! t = Some (CbProcessJob j) → is_Some (jobs s !! j) →
  let s' := step s (Fire t now) in
  jobs s' = jobs s ∧
  timers s' !! nextTimer s = Some (CbNextStage j 0) ∧
  nextTimer s' = S (nextTimer s).
Proof.
  intros Ht [job Hjob]. cbv zeta. cbn [step]. unfold fire. rewrite Ht.
  unfold processJob. cbn [jobs set_timers]. rewrite Hjob.
  unfold setTimeout. cbn. by rewrite lookup_insert_eq.
Qed.

Lemma stage_fires s t j k now st pr :
  timers s !! t = Some (CbNextStage j k) → stages !! k = Some (st, pr) →
  let s' := step s (Fire t now) in
  jobs s' = alter (applyStage j st pr now) j (jobs s) ∧
  nextTimer s' = (if decide (S k < length stages)%nat
                  then S (nextTimer s) else nextTimer s) ∧
  ((S k < length stages)%nat →
   timers s' !! nextTimer s = Some (CbNextStage j (S k))) ∧
  waitingClients s' = filter (λ w, jobId w ≠ j) (waitingClients s).
Proof.
  intros Ht Hk. cbv zeta. cbn [step]. unfold fire. rewrite Ht.
  split; [by rewrite nextStage_jobs, Hk|]. unfold nextStage. rewrite Hk.
  case_decide as Hmore.
  - unfold setTimeout. cbn [nextTimer timers waitingClients].
    rewrite notifyWaitingClients_nextTimer, notifyWaitingClients_waitingClients.
    cbn. split_and!; [done| |done]. intros _. by rewrite lookup_insert_eq.
  - rewrite notifyWaitingClients_nextTimer, notifyWaitingClients_waitingClients.
    split_and!; [done|intros Hlt; contradiction|done].
Qed.

(** The events of a job's processing when nothing else happens: its
    process timer [t] fires, then the [n] stage timers, which got the
    handles from [first] on. *)
Definition processing (t first : nat) (now : nat → Z) (n : nat) : list Event :=
  Fire t (now 0%nat) :: ((λ k, Fire (first + k) (now (S k))) <$> seq 0 n).

(** X27: when the process timer of a job and then its stage timers fire,
    one after the other, the job runs through the ten stages and stops:
    after the tenth stage it is 'completed' at progress 100 with its
    result text and the time of the last stage, no further timer was
    armed, and no waiter is left parked on the job. *)
Theorem job_runs_to_completion s t j job now :
  timers s !! t = Some (CbProcessJob j) → jobs s !! j = Some job →
  let s' := run s (processing t (nextTimer s) now 10) in
  jobs s' !! j =
    Some (mkJob (id job) completed 100
                (Some ("Job " +:+ j +:+ " completed successfully!")) (now 10%nat)) ∧
  nextTimer s' = (nextTimer s + 10)%nat ∧
  (∀ w, w ∈ waitingClients s' → jobId w ≠ j).
Proof.
  intros Ht Hjob. cbv zeta.
  assert (∀ n, (n < 10)%nat →
            let sn := run s (processing t (nextTimer s) now n) in
            (∃ jobn, jobs sn !! j = Some jobn ∧ id jobn = id job) ∧
            timers sn !! (nextTimer s + n)%nat = Some (CbNextStage j n) ∧
            nextTimer sn = (nextTimer s + S n)%nat) as Hstages.
  { induction n as [|n IH]; intros Hn; cbv zeta.
    - unfold processing, run. cbn [seq fmap list_fmap foldl].
      destruct (process_fires s t j (now 0%nat) Ht) as (Hjobs & Htimer & Hnext); [by eauto|].
      cbv zeta in Hjobs, Htimer, Hnext. rewrite Hjobs, Hnext, Nat.add_0_r.
      split_and!; [by eauto|done|lia].
    - destruct IH as ((jobn & Hjobn & Hid) & Htimer & Hnext); [lia|].
      unfold processing. rewrite seq_S, fmap_app. cbn [fmap list_fmap].
      rewrite app_comm_cons. fold (processing t (nextTimer s) now n).
      rewrite run_snoc. cbn [Nat.add].
      destruct (lookup_lt_is_Some_2 stages n) as [[st pr] Hrow]; [cbn; lia|].
      destruct (stage_fires _ _ j n (now (S n)) st pr Htimer Hrow)
        as (Hjobs & Hnext' & Harmed & _).
      cbv zeta in Hjobs, Hnext', Harmed. rewrite Hjobs, Hnext'.
      rewrite decide_True by (cbn; lia). rewrite Hnext.
      split_and!.
      + exists (applyStage j st pr (now (S n)) jobn). rewrite lookup_alter_eq, Hjobn.
        done.
      + rewrite <-Hnext. apply Harmed. cbn. lia.
      + done. }
  destruct (Hstages 9%nat) as ((job9 & Hjob9 & Hid) & Htimer & Hnext); [lia|].
  change (processing t (nextTimer s) now 10)
    with (processing t (nextTimer s) now 9 ++ [Fire (nextTimer s + 9) (now 10%nat)]).
  rewrite run_snoc.
  destruct (stage_fires _ _ j 9 (now 10%nat) completed 100 Htimer eq_refl)
    as (Hjobs & Hnext' & _ & Hwaiters).
  cbv zeta in Hjobs, Hnext', Hwaiters. rewrite Hjobs, Hnext', Hwaiters.
  split_and!.
  - rewrite lookup_alter_eq, Hjob9. unfold applyStage. cbn. by rewrite Hid.
  - rewrite decide_False by (cbn; lia). lia.
  - intros w Hw. by apply list_elem_of_filter in Hw as [Hne _].
Qed.

Lemma job_runs_to_completion_witness :
  jobs (run (run init [CreateJob 0 "j" 0; Poll 1 "j" ""])
            (processing 0 2 (λ k, 1000 * Z.of_nat k)%Z 10)) !! "j" =
    Some (mkJob "j" completed 100 (Some "Job j completed successfully!") 10000).
Proof.
  apply (job_runs_to_completion (run init [CreateJob 0 "j" 0; Poll 1 "j" ""]) 0 "j"
           (mkJob "j" pending 0 None 0) (λ k, 1000 * Z.of_nat k)%Z).
  - vm_compute. reflexivity.
  - vm_compute. reflexivity.
Defined.

End LongPollingExtra.

(** ** Short polling: progress and cleanup *)
Module ShortPollingExtra.
Import ShortPolling ShortPollingFacts.

Definition reachable (s : State) : Prop := ∃ es, s = run init es.

Lemma run_step s es e : run s (es ++ [e]) = step (run s es) e.
Proof. unfold run. by rewrite foldl_app. Qed.

(** What the short-polling store holds under the key [j]. *)
Definition entry_ok (j : string) (job : Job) : Prop :=
  id job = j ∧
  (0 ≤ progress job ≤ 100)%Z ∧
  (∃ k : Z, progress job = 10 * k)%Z ∧
  status job ≠ failed ∧
  (status job = completed ↔ progress job = 100%Z).

Lemma tick_jobs i s j job :
  (∀ j job, jobs s !! j = Some job → entry_ok j job) →
  jobs (tick i s) !! j = Some job → entry_ok j job.
Proof.
  intros Hok. unfold tick. destruct (intervals s !! i) as [j'|]; [|apply Hok].
  destruct (jobs s !! j') as [cur|] eqn:Hcur; [|apply Hok].
  destruct (Hok j' cur Hcur) as (Hid & Hpr & [k Hk] & Hnf & Hc).
  case_decide as Hp; cbn; rewrite lookup_insert_Some;
    (intros [[<- <-]|[_ Hj]]; [|by apply Hok]); unfold entry_ok; cbn.
  - split_and!; [done|lia|lia|by exists 10%Z|done|done].
  - split_and!; [done|lia|lia|exists (k + 1)%Z; lia|done|].
    split; [intros Hst; apply Hc in Hst; lia|lia].
Qed.

Lemma step_entries_ok s e :
  (∀ j job, jobs s !! j = Some job → entry_ok j job) →
  ∀ j job, jobs (step s e) !! j = Some job → entry_ok j job.
Proof.
  intros Hok j job. destruct e as [r j' now|r j'|i|now]; cbn [step].
  - unfold submit. cbn [jobs json]. rewrite startJobProcessing_jobs. cbn.
    rewrite lookup_insert_Some. intros [[<- <-]|[_ Hj]]; [|by apply Hok].
    unfold entry_ok. cbn. split_and!; [done|lia|lia|by exists 0%Z|done|done].
  - unfold checkStatus. repeat case_match; cbn; apply Hok.
  - by apply tick_jobs.
  - unfold cleanup. cbn. intros Hj. apply map_lookup_filter_Some in Hj as [Hj _].
    by apply Hok.
Qed.

Lemma reachable_entries_ok s :
  reachable s → ∀ j job, jobs s !! j = Some job → entry_ok j job.
Proof.
  intros [es ->]. induction es as [|e es IH] using rev_ind.
  - intros j job Hj. cbn in Hj. rewrite lookup_empty in Hj. discriminate.
  - rewrite run_step. by apply step_entries_ok.
Qed.

(** X8: in every reachable state of the short-polling server a job
    carries its own key as [id], its progress is a multiple of ten
    between 0 and 100, it is never 'failed', and it is 'completed'
    exactly when its progress is 100. *)
Theorem reachable_entries_are_well_formed s j job :
  reachable s → jobs s !! j = Some job →
  id job = j ∧
  (0 ≤ progress job ≤ 100)%Z ∧
  (∃ k : Z, progress job = 10 * k)%Z ∧
  status job ≠ failed ∧
  (status job = completed ↔ progress job = 100%Z).
Proof.
  intros [es ->]. revert j job. induction es as [|e es IH] using rev_ind.
  - intros j job Hj. cbn in Hj. rewrite lookup_empty in Hj. discriminate.
  - rewrite run_step. by apply step_entries_ok.
Qed.

Lemma reachable_entries_are_well_formed_witness :
  id (mkJob "a" 100 completed 0) = "a" ∧
  (0 ≤ 100 ≤ 100)%Z ∧
  (∃ k : Z, 100 = 10 * k)%Z ∧
  completed ≠ failed ∧
  (completed = completed ↔ 100%Z = 100%Z).
Proof.
  apply (reachable_entries_are_well_formed finished_state "a" (mkJob "a" 100 completed 0)).
  - by eexists.
  - vm_compute. reflexivity.
Defined.

(** X9: a status check of a job of a reachable state changes nothing
    but the reply log; the reply is 200 and reports the requested id,
    and its [isComplete] flag is set exactly when the progress is 100. *)
Theorem checkStatus_reports_completion s r j job :
  reachable s → j ≠ "" → jobs s !! j = Some job →
  checkStatus r j s =
    json r 200 (JobStatus j (progress job) (status job) (createdAt job)
                          (bool_decide (progress job = 100%Z))) s.
Proof.
  intros Hreach Hne Hj. unfold checkStatus. rewrite decide_False by done.
  rewrite (JsObjectFacts.get_own _ _ _ Hj).
  destruct (reachable_entries_ok s Hreach j job Hj) as (-> & _ & _ & Hnf & Hc).
  do 2 f_equal. unfold finished.
  rewrite (bool_decide_eq_false_2 (status job = failed)) by done.
  rewrite orb_false_r. by apply bool_decide_ext.
Qed.

Lemma checkStatus_reports_completion_witness :
  checkStatus 1 "a" finished_state =
    json 1 200 (JobStatus "a" 100 completed 0 true) finished_state.
Proof.
  apply (checkStatus_reports_completion finished_state 1 "a" (mkJob "a" 100 completed 0)).
  - by eexists.
  - done.
  - vm_compute. reflexivity.
Defined.

Lemma ticks_of_dead_interval i n s :
  intervals s !! i = None → run s (replicate n (Tick i)) = s.
Proof.
  intros Hi. induction n as [|n IH]; [done|]. cbn. unfold tick. by rewrite Hi.
Qed.

(** The state of a job after [n] runs of the callback of its interval. *)
Definition ticked (n : nat) (job : Job) : Job :=
  if decide (progress job + 10 * Z.of_nat n < 100)%Z
  then mkJob (id job) (progress job + 10 * Z.of_nat n) (status job) (createdAt job)
  else mkJob (id job) 100 completed (createdAt job).

Lemma ticks_spec n : ∀ s i j job,
  intervals s !! i = Some j → jobs s !! j = Some job →
  (progress job < 100)%Z →
  let s' := run s (replicate n (Tick i)) in
  if decide (progress job + 10 * Z.of_nat n < 100)%Z
  then jobs s' !! j =
         Some (mkJob (id job) (progress job + 10 * Z.of_nat n) (status job) (createdAt job)) ∧
       intervals s' !! i = Some j
  else jobs s' !! j = Some (mkJob (id job) 100 completed (createdAt job)) ∧
       intervals s' !! i = None.
Proof.
  induction n as [|n IH]; intros s i j job Hi Hj Hlt; cbv zeta.
  - rewrite decide_True by lia. cbn. rewrite Z.add_0_r. by destruct job.
  - change (run s (replicate (S n) (Tick i)))
      with (run (tick i s) (replicate n (Tick i))).
    assert (tick i s =
            if decide (100 ≤ progress job + 10)%Z
            then clearInterval i
                   (set_jobs (<[j := mkJob (id job) 100 completed (createdAt job)]>) s)
            else set_jobs (<[j := mkJob (id job) (progress job + 10) (status job)
                                        (createdAt job)]>) s) as ->
      by (unfold tick; by rewrite Hi, Hj).
    destruct (decide (100 ≤ progress job + 10)%Z) as [Hge|Hlt'].
    + rewrite decide_False by lia.
      rewrite ticks_of_dead_interval by (cbn; apply lookup_delete_eq).
      cbn. by rewrite lookup_insert_eq, lookup_delete_eq.
    + specialize (IH (set_jobs <[j:=mkJob (id job) (progress job + 10) (status job)
                                          (createdAt job)]> s) i j
                    (mkJob (id job) (progress job + 10) (status job) (createdAt job))).
      cbv zeta in IH. cbn [progress id status createdAt] in IH.
      replace (progress job + 10 * Z.of_nat (S n))%Z
        with (progress job + 10 + 10 * Z.of_nat n)%Z by lia.
      apply IH; [done|cbn; apply lookup_insert_eq|lia].
Qed.

(** X10: [n] runs of a live interval's callback add [10 * n] to the
    progress of its job and change nothing else of the job while the sum
    stays below 100; from the run that reaches 100 on, the job is
    'completed' at progress 100 and the interval is cleared, so that
    further runs do nothing. *)
Theorem ticks_drive_the_job n s i j job :
  intervals s !! i = Some j → jobs s !! j = Some job →
  (progress job < 100)%Z →
  let s' := run s (replicate n (Tick i)) in
  jobs s' !! j = Some (ticked n job) ∧
  (intervals s' !! i = if decide (progress job + 10 * Z.of_nat n < 100)%Z
                       then Some j else None) ∧
  (intervals s' !! i = None → ∀ m, run s' (replicate m (Tick i)) = s').
Proof.
  intros Hi Hj Hlt. cbv zeta. pose proof (ticks_spec n s i j job Hi Hj Hlt) as Hn.
  cbv zeta in Hn. unfold ticked.
  destruct (decide (progress job + 10 * Z.of_nat n < 100)%Z); destruct Hn as [Hjob Hint].
  - split_and!; [done|done|]. intros Hdead m. by apply ticks_of_dead_interval.
  - split_and!; [done|done|]. intros Hdead m. by apply ticks_of_dead_interval.
Qed.

Lemma ticks_drive_the_job_witness :
  jobs (run (submit 0 "a" 0 init) (replicate 10 (Tick 0))) !! "a" =
    Some (mkJob "a" 100 completed 0) ∧
  intervals (run (submit 0 "a" 0 init) (replicate 10 (Tick 0))) !! 0 = None.
Proof.
  destruct (ticks_drive_the_job 10 (submit 0 "a" 0 init) 0 "a" (mkJob "a" 0 processing 0))
    as (Hjob & Hint & _).
  - vm_compute. reflexivity.
  - vm_compute. reflexivity.
  - cbn. lia.
  - split; [exact Hjob|exact Hint].
Defined.

(** X24: what a client that polls sees of a job it submitted: after [n]
    runs of the job's interval the status check reports the progress
    [10 * n], capped at 100, with status 'processing' and
    [isComplete = false] before the tenth run and 'completed' and
    [isComplete = true] from the tenth run on. *)
Theorem submitted_job_progress s r j now n r' :
  j ≠ "" →
  let s' := run (submit r j now s) (replicate n (Tick (nextInterval s))) in
  checkStatus r' j s' =
    json r' 200
      (JobStatus j (Z.min (10 * Z.of_nat n) 100)
                 (if decide (10 ≤ n)%nat then completed else processing) now
                 (bool_decide (10 ≤ n)%nat)) s'.
Proof.
  intros Hj. cbv zeta.
  assert (intervals (submit r j now s) !! nextInterval s = Some j ∧
          jobs (submit r j now s) !! j = Some (mkJob j 0 processing now)) as [Hi Hjob].
  { unfold submit, startJobProcessing. cbn [jobs set_jobs json intervals].
    rewrite lookup_insert_eq. cbn [intervals jobs]. by rewrite !lookup_insert_eq. }
  pose proof (ticks_spec n (submit r j now s) (nextInterval s) j
                (mkJob j 0 processing now) Hi Hjob) as Hn.
  cbv zeta in Hn. cbn [progress id status createdAt] in Hn.
  unfold checkStatus, JsObject.get. rewrite decide_False by done.
  destruct (decide (0 + 10 * Z.of_nat n < 100)%Z) as [Hlt|Hge];
    destruct Hn as [-> _]; [lia| |lia|];
    cbn [id progress status createdAt finished].
  - rewrite decide_False by lia. rewrite (bool_decide_eq_false_2 (10 ≤ n)%nat) by lia.
    rewrite Z.min_l by lia. do 3 f_equal; lia.
  - rewrite decide_True by lia. rewrite (bool_decide_eq_true_2 (10 ≤ n)%nat) by lia.
    rewrite Z.min_r by lia. done.
Qed.

Lemma submitted_job_progress_witness :
  checkStatus 1 "a" (run (submit 0 "a" 0 init) (replicate 3 (Tick 0))) =
    json 1 200 (JobStatus "a" 30 processing 0 false)
         (run (submit 0 "a" 0 init) (replicate 3 (Tick 0))).
Proof. apply (submitted_job_progress init 0 "a" 0 3 1). done. Defined.

Lemma expired_mono now now' job :
  (now ≤ now')%Z → expired now job = true → expired now' job = true.
Proof.
  unfold expired. intros Hle Hexp. apply andb_true_iff in Hexp as [Hf Hage].
  apply andb_true_iff. split; [done|]. apply bool_decide_eq_true in Hage.
  apply bool_decide_eq_true. lia.
Qed.

(** X11: a cleanup run makes every earlier cleanup run redundant: the
    run at a later time leaves the same store whether or not a run at an
    earlier time came before it.  In particular a second run at the same
    time removes nothing more.  Cleanup touches nothing but the store. *)
Theorem cleanup_absorbs_earlier_run now now' s :
  (now ≤ now')%Z → cleanup now' (cleanup now s) = cleanup now' s.
Proof.
  intros Hle. unfold cleanup, set_jobs. cbn. f_equal.
  apply map_eq. intros j. apply option_eq. intros job.
  rewrite !map_lookup_filter_Some. cbn. split; [by intros [[? _] ?]|].
  intros [Hj Hexp]. split_and!; [done| |done].
  destruct (expired now job) eqn:Hn; [|done].
  apply (expired_mono now now') in Hn; [|done]. congruence.
Qed.

Lemma cleanup_absorbs_earlier_run_witness :
  cleanup 700000 (cleanup 600001 finished_state) = cleanup 700000 finished_state.
Proof. apply cleanup_absorbs_earlier_run. lia. Defined.

End ShortPollingExtra.

(** ** Push server: leaving and silence *)
Module PushServerExtra.
Import PushServer PushServerFacts.

Definition leftText (s : State) (c : nat) : string :=
  user (portOf s c) +:+ " has left the chat".

(** [splice(indexOf(c), 1)] on an array without repetitions. *)
Lemma splice_indexOf c l :
  NoDup l →
  match indexOf c l with Some i => delete i l | None => l end = filter (λ x, x ≠ c) l.
Proof.
  induction l as [|x l IH]; intros Hnd; [done|].
  apply NoDup_cons in Hnd as [Hx Hnd]. cbn [indexOf]. case_decide as Hxc.
  - subst x. cbn [delete]. rewrite filter_cons_False by naive_solver.
    symmetry. apply filter_all. intros y Hy ->. done.
  - rewrite filter_cons_True by done. specialize (IH Hnd).
    destruct (indexOf c l) as [i|]; simpl in IH |- *; by f_equal.
Qed.

(** What the 'close' listener leaves behind. *)
Lemma onClose_spec s c :
  NoDup (connections s) →
  let s' := onClose c s in
  connections s' = filter (λ x, x ≠ c) (connections s) ∧
  nextConn s' = nextConn s ∧
  ∀ c', heap s' !! c' =
    if bool_decide (c' ∈ connections s) && bool_decide (c' ≠ c) && isConnected s c'
    then deliver (leftText s c) <$> heap s !! c'
    else heap s !! c'.
Proof.
  intros Hnd. cbv zeta. unfold onClose.
  set (s1 := match indexOf c (connections s) with
             | Some index => mkState (delete index (connections s)) (heap s) (nextConn s)
             | None => s
             end).
  assert (connections s1 = filter (λ x, x ≠ c) (connections s)) as Hconns.
  { rewrite <-splice_indexOf by done. unfold s1.
    by destruct (indexOf c (connections s)). }
  assert (heap s1 = heap s) as Hheap
    by (unfold s1; by destruct (indexOf c (connections s))).
  assert (nextConn s1 = nextConn s) as Hnext
    by (unfold s1; by destruct (indexOf c (connections s))).
  rewrite sendWhere_connections, sendWhere_nextConn. split_and!; [done|done|].
  intros c'. rewrite sendWhere_heap; [|apply stable_isConnected|].
  2:{ rewrite Hconns. eapply sublist_NoDup; [done|apply sublist_filter]. }
  unfold isConnected. rewrite Hheap, Hconns. fold (leftText s c).
  assert (bool_decide (c' ∈ filter (λ x, x ≠ c) (connections s)) =
          bool_decide (c' ∈ connections s) && bool_decide (c' ≠ c)) as ->; [|done].
  rewrite <-bool_decide_and. apply bool_decide_ext. rewrite list_elem_of_filter. tauto.
Qed.

(** X12: when a connection closes, it leaves the array (the order of the
    others is kept) and the notice "User<port> has left the chat" is
    pushed to every remaining member that is connected; the closed
    connection itself and connections outside the array receive
    nothing. *)
Theorem leave_notice_reaches_the_others s c :
  wf s →
  let s' := onClose c s in
  connections s' = filter (λ x, x ≠ c) (connections s) ∧
  (∀ c' conn,
     c' ∈ connections s → c' ≠ c → heap s !! c' = Some conn → connected conn = true →
     heap s' !! c' = Some (deliver (leftText s c) conn)) ∧
  heap s' !! c = heap s !! c ∧
  (∀ c', c' ∉ connections s → heap s' !! c' = heap s !! c').
Proof.
  intros [Hnd _]. cbv zeta. destruct (onClose_spec s c Hnd) as (Hconns & _ & Hheap).
  split_and!; [done| | |].
  - intros c' conn Hin Hne Hc' Hconn. rewrite Hheap.
    rewrite !bool_decide_eq_true_2 by done.
    rewrite (isConnected_true s c' conn) by done. cbn. by rewrite Hc'.
  - rewrite Hheap. rewrite (bool_decide_eq_false_2 (c ≠ c)) by naive_solver.
    by rewrite andb_false_r.
  - intros c' Hnot. rewrite Hheap. by rewrite (bool_decide_eq_false_2 _ Hnot).
Qed.

Lemma leave_notice_reaches_the_others_witness :
  connections (onClose 0 two_online) = [1%nat] ∧
  outbox <$> heap (onClose 0 two_online) !! 1%nat =
    Some ["Welcome! You are User5002. There are 2 users online.";
          "User5001 has left the chat"].
Proof.
  assert (wf two_online) as Hwf.
  { apply reachable_connections_wf.
    by exists [Request "http://localhost:8080" 5001; Request "" 5002]. }
  destruct (leave_notice_reaches_the_others two_online 0 Hwf) as (Hconns & Hothers & _).
  split.
  - rewrite Hconns. vm_compute. reflexivity.
  - rewrite (Hothers 1%nat
               (mkConnection true 5002
                  ["Welcome! You are User5002. There are 2 users online."])).
    + vm_compute. reflexivity.
    + vm_compute. constructor. constructor.
    + done.
    + vm_compute. reflexivity.
    + reflexivity.
Defined.

(** X13: a peer that joins and then closes leaves the array as it was,
    and every member that was connected all along has received the two
    notices, "has joined" and then "has left", with the newcomer's
    port. *)
Theorem join_then_leave s origin port :
  wf s → originIsAllowed origin = true →
  let new := nextConn s in
  let s' := onClose new (onRequest origin port s) in
  connections s' = connections s ∧
  ∀ c' conn,
    c' ∈ connections s → heap s !! c' = Some conn → connected conn = true →
    heap s' !! c' =
      Some (mkConnection true (remotePort conn)
              (outbox conn ++ [user port +:+ " has joined the chat";
                               user port +:+ " has left the chat"])).
Proof.
  intros Hwf Hallowed. cbv zeta. pose proof Hwf as [Hnd Hlt].
  destruct (onRequest_spec s origin port Hwf Hallowed) as (Hconns & Hnew & Hold).
  cbv zeta in Hconns, Hnew, Hold.
  assert (wf (onRequest origin port s)) as [Hnd' _] by (by apply wf_onRequest).
  destruct (onClose_spec (onRequest origin port s) (nextConn s) Hnd')
    as (Hconns' & _ & Hheap').
  split.
  - rewrite Hconns', Hconns, filter_app, filter_cons_False, filter_nil, app_nil_r
      by naive_solver.
    apply filter_all. intros c Hc. apply Hlt in Hc. lia.
  - intros c' conn Hin Hc' Hconn.
    assert (c' ≠ nextConn s) as Hne by (apply Hlt in Hin; lia).
    assert (heap (onRequest origin port s) !! c' = Some (deliver (joinedText port) conn))
      as Hjoined.
    { rewrite Hold by done. rewrite (isConnected_true s c' conn) by done.
      by rewrite Hc'. }
    rewrite Hheap'. rewrite bool_decide_eq_true_2
      by (rewrite Hconns; apply elem_of_app; by left).
    rewrite bool_decide_eq_true_2 by done.
    rewrite (isConnected_true _ c' (deliver (joinedText port) conn)) by done.
    rewrite Hjoined. cbn. unfold deliver, leftText, portOf, joinedText. cbn.
    rewrite Hnew. cbn. rewrite Hconn. by rewrite <-app_assoc.
Qed.

Lemma join_then_leave_witness :
  connections (onClose 2 (onRequest "null" 5003 two_online)) = [0; 1]%nat.
Proof.
  assert (wf two_online) as Hwf.
  { apply reachable_connections_wf.
    by exists [Request "http://localhost:8080" 5001; Request "" 5002]. }
  apply (join_then_leave two_online "null" 5003 Hwf). vm_compute. reflexivity.
Defined.

(** Connection objects are created by [req.accept] only. *)
Definition allocated (s : State) : Prop :=
  ∀ c, is_Some (heap s !! c) → (c < nextConn s)%nat.

Lemma sendWhere_dom guard text s c :
  is_Some (heap (sendWhere guard text s) !! c) ↔ is_Some (heap s !! c).
Proof.
  unfold sendWhere. generalize (connections s) as l. intros l. revert s.
  induction l as [|x l IH]; intros s; cbn [foldl]; [done|].
  rewrite IH. destruct (guard s x); [|done]. cbn. by rewrite lookup_alter_is_Some.
Qed.

Lemma allocated_step s e : allocated s → allocated (step s e).
Proof.
  intros Hal. destruct e as [origin port|c msg|c|c]; cbn [step].
  - unfold onRequest. destruct (originIsAllowed origin); cbn [negb]; [|done].
    intros c. unfold send. cbn [heap nextConn].
    rewrite sendWhere_nextConn, lookup_alter_is_Some, sendWhere_dom. cbn.
    rewrite lookup_insert_is_Some. intros [<-|[_ Hc]]; [lia|].
    apply Hal in Hc. lia.
  - destruct msg; [|done]. intros c'. unfold onMessage.
    rewrite sendWhere_nextConn, sendWhere_dom. apply Hal.
  - intros c'. unfold disconnected. cbn. rewrite lookup_alter_is_Some. apply Hal.
  - intros c'. unfold onClose. rewrite sendWhere_nextConn, sendWhere_dom.
    destruct (indexOf c (connections s)); apply Hal.
Qed.

Lemma reachable_allocated s : reachable s → allocated s.
Proof.
  intros [es ->]. induction es as [|e es IH] using rev_ind.
  - intros c [x Hx]. cbn in Hx. rewrite lookup_empty in Hx. discriminate.
  - unfold run. rewrite foldl_app. by apply allocated_step.
Qed.

Lemma silent_step s e c conn :
  wf s → allocated s →
  heap s !! c = Some conn → connected conn = false →
  heap (step s e) !! c = Some conn.
Proof.
  intros Hwf Hal Hc Hoff. pose proof Hwf as [Hnd Hlt].
  assert (isConnected s c = false) as Hic by (unfold isConnected; by rewrite Hc).
  destruct e as [origin port|c0 msg|c0|c0]; cbn [step].
  - unfold onRequest. destruct (originIsAllowed origin); cbn [negb]; [|done].
    assert (c ≠ nextConn s) as Hne.
    { assert (c < nextConn s)%nat by (apply Hal; eauto). lia. }
    unfold send. cbn [heap connections nextConn].
    rewrite lookup_alter_ne by done.
    rewrite sendWhere_heap; [|apply stable_isConnected_except|].
    2:{ cbn. apply NoDup_app. split_and!; [done| |apply NoDup_singleton].
        intros x Hx Hin. apply list_elem_of_singleton in Hin as ->.
        apply Hlt in Hx. lia. }
    unfold isConnected. cbn [heap]. rewrite lookup_insert_ne by done.
    rewrite Hc, Hoff. cbn. by rewrite andb_false_r.
  - destruct msg; [|done]. unfold onMessage.
    rewrite sendWhere_heap; [|apply stable_isConnected|done].
    by rewrite Hic, andb_false_r.
  - unfold disconnected. cbn. destruct (decide (c0 = c)) as [->|Hne].
    + rewrite lookup_alter_eq, Hc. cbn. destruct conn; cbn in *. by subst.
    + by rewrite lookup_alter_ne.
  - destruct (onClose_spec s c0 Hnd) as (_ & _ & Hheap). rewrite Hheap.
    by rewrite Hic, andb_false_r.
Qed.

(** X14: once a connection object of a reachable state has
    [connected = false], no later event changes it: the server never
    pushes anything to it again, and it never becomes connected. *)
Theorem disconnected_peer_stays_silent s c conn es :
  reachable s → heap s !! c = Some conn → connected conn = false →
  heap (run s es) !! c = Some conn.
Proof.
  intros Hreach Hc Hoff. induction es as [|e es IH] using rev_ind; [done|].
  unfold run. rewrite foldl_app. cbn [foldl]. fold (run s es).
  assert (reachable (run s es)) as Hreach'.
  { destruct Hreach as [es0 ->]. exists (es0 ++ es). unfold run. by rewrite foldl_app. }
  apply silent_step; [by apply reachable_connections_wf|by apply reachable_allocated|done..].
Qed.

Lemma disconnected_peer_stays_silent_witness :
  outbox <$> heap (run (disconnected 0 two_online)
                     [Incoming 1 (Utf8 "hi"); Request "null" 5003; Close 0]) !! 0%nat =
    Some ["Welcome! You are User5001. There are 1 users online.";
          "User5002 has joined the chat"].
Proof.
  rewrite (disconnected_peer_stays_silent (disconnected 0 two_online) 0
             (mkConnection false 5001
                ["Welcome! You are User5001. There are 1 users online.";
                 "User5002 has joined the chat"])).
  - reflexivity.
  - exists [Request "http://localhost:8080" 5001; Request "" 5002; Disconnected 0].
    vm_compute. reflexivity.
  - vm_compute. reflexivity.
  - reflexivity.
Defined.

End PushServerExtra.

(** ** Server-sent events: who stays subscribed *)
Module SSEExtra.
Import SSE SSEFacts.

Section Extra.
Context {number : Type}.
Implicit Types (s : State number) (event : SSEEvent number).

(** The keys the broadcast loop over [l] deletes: those of the entries
    whose stream does not take the write. *)
Definition dropped s (l : list (string * nat)) : list string :=
  (filter (λ entry, healthy s entry.2 = false) l).*1.

Lemma dropped_broadcastOne event s entry l :
  dropped (broadcastOne event s entry) l = dropped s l.
Proof.
  unfold dropped. f_equal. apply list_filter_iff. intros e.
  by rewrite healthy_broadcastOne.
Qed.

Lemma dropped_cons s k r l :
  dropped s ((k, r) :: l) = if healthy s r then dropped s l else k :: dropped s l.
Proof.
  unfold dropped. destruct (healthy s r) eqn:Hr.
  - by rewrite filter_cons_False by (cbn; by rewrite Hr).
  - by rewrite filter_cons_True by (cbn; by rewrite Hr).
Qed.

Lemma broadcast_loop_clients event l s :
  connectedClients (foldl (broadcastOne event) s l) =
    filter (λ kv, kv.1 ∉ dropped s l) (connectedClients s).
Proof.
  revert s. induction l as [|[k r] l IH]; intros s; cbn [foldl].
  - symmetry. apply filter_all. intros kv _ Hin. inversion Hin.
  - rewrite IH, dropped_broadcastOne, broadcastOne_spec, dropped_cons.
    destruct (healthy s r) eqn:Hr; [done|].
    cbn [connectedClients set_connectedClients]. unfold map_delete, JsMap.
    rewrite list_filter_filter. apply list_filter_iff. intros kv.
    cbn. rewrite not_elem_of_cons. tauto.
Qed.

Lemma broadcast_loop_stores event l s :
  stockPrices (foldl (broadcastOne event) s l) = stockPrices s ∧
  jobProgresses (foldl (broadcastOne event) s l) = jobProgresses s ∧
  nextRes (foldl (broadcastOne event) s l) = nextRes s ∧
  heartbeats (foldl (broadcastOne event) s l) = heartbeats s.
Proof.
  revert s. induction l as [|[k r] l IH]; intros s; cbn [foldl]; [done|].
  destruct (IH (broadcastOne event s (k, r))) as (-> & -> & -> & ->).
  rewrite broadcastOne_spec. by destruct (healthy s r).
Qed.

Lemma healthy_loop event l s r :
  healthy (foldl (broadcastOne event) s l) r = healthy s r.
Proof.
  revert s. induction l as [|entry l IH]; intros s; cbn [foldl]; [done|].
  by rewrite IH, healthy_broadcastOne.
Qed.

Lemma broadcast_clients event s :
  NoDup (connectedClients s).*1 →
  connectedClients (broadcastToAllClients event s) =
    filter (λ kv, healthy s kv.2 = true) (connectedClients s).
Proof.
  intros Hnd. unfold broadcastToAllClients. rewrite broadcast_loop_clients.
  apply filter_ext_in. intros [k r] Hin. cbn. unfold dropped. split.
  - intros Hnot. destruct (healthy s r) eqn:Hr; [done|]. destruct Hnot.
    apply (list_elem_of_fmap_2 fst _ (k, r)). by apply list_elem_of_filter.
  - intros Hr Hbad. apply list_elem_of_fmap in Hbad as ([k' r'] & Hk & Hbad).
    cbn in Hk. subst k'. apply list_elem_of_filter in Hbad as [Hbad Hin'].
    cbn in Hbad. assert (r' = r) as -> by (by eapply NoDup_fst_agree). congruence.
Qed.

(** X15: a broadcast leaves registered exactly the clients whose stream
    takes the write, in the order they had; it changes neither store;
    and a broadcast that follows at once drops nobody. *)
Theorem broadcast_keeps_exactly_the_healthy s event :
  NoDup (connectedClients s).*1 →
  let s' := broadcastToAllClients event s in
  connectedClients s' = filter (λ kv, healthy s kv.2 = true) (connectedClients s) ∧
  stockPrices s' = stockPrices s ∧
  jobProgresses s' = jobProgresses s ∧
  ∀ event', connectedClients (broadcastToAllClients event' s') = connectedClients s'.
Proof.
  intros Hnd. cbv zeta.
  destruct (broadcast_loop_stores event (connectedClients s) s) as (Hst & Hjobs & _).
  split_and!; [by apply broadcast_clients|done|done|].
  intros event'. rewrite (broadcast_clients event').
  - apply filter_all. intros [k r] Hin. cbn. unfold broadcastToAllClients at 1.
    rewrite healthy_loop. rewrite broadcast_clients in Hin by done.
    by apply list_elem_of_filter in Hin as [Hr _].
  - eapply sublist_NoDup; [exact Hnd|]. apply fmap_sublist.
    apply broadcast_clients_sublist.
Qed.

(** *** A stream whose request has closed *)

(** The stream [r] was handed out, no client is registered with it and
    its heartbeat is stopped. *)
Definition retired s (r : nat) : Prop :=
  (r < nextRes s)%nat ∧ (r ∉ (connectedClients s).*2) ∧ (r ∉ heartbeats s).

Lemma writtenTo_broadcast event s r :
  NoDup (connectedClients s).*2 → r ∉ (connectedClients s).*2 →
  heap (broadcastToAllClients event s) !! r = heap s !! r.
Proof.
  intros Hnd Hr. unfold broadcastToAllClients.
  destruct (broadcast_loop event (connectedClients s) s Hnd) as [_ ->].
  by rewrite (bool_decide_eq_false_2 _ Hr).
Qed.

Lemma retired_broadcast event s r :
  retired s r → retired (broadcastToAllClients event s) r.
Proof.
  intros (Hlt & Hcc & Hhb). unfold broadcastToAllClients.
  destruct (broadcast_loop_stores event (connectedClients s) s) as (_ & _ & Hn & Hh).
  unfold retired. rewrite Hn, Hh. split_and!; [done| |done].
  intros Hin. apply Hcc. eapply elem_of_sublist; [exact Hin|].
  apply fmap_sublist, broadcast_clients_sublist.
Qed.

Lemma retired_step s e r :
  inv s → retired s r →
  retired (step s e) r ∧ writtenTo (step s e) r = writtenTo s r.
Proof.
  intros [[Hk Hv] Hlt] Hret. pose proof Hret as (Hr & Hcc & Hhb).
  destruct e as [clientId iso now|clientId r0|r0|event|idPrefix u now|evId job|r0|r0];
    cbn [step].
  - rewrite events_spec. cbn [state_of]. unfold retired, writtenTo.
    cbn [nextRes connectedClients heartbeats heap].
    rewrite lookup_insert_ne by lia. split_and!; [lia| | |done].
    + intros Hin. apply map_set_values in Hin as [->|Hin]; [lia|done].
    + intros Hin. apply elem_of_union in Hin as [Hin|Hin]; [|done].
      apply elem_of_singleton in Hin. lia.
  - unfold retired, onClose, writtenTo. cbn. split_and!; [done| | |done].
    + intros Hin. apply Hcc. eapply elem_of_sublist; [exact Hin|].
      apply fmap_sublist, sublist_filter.
    + intros Hin. by apply elem_of_difference in Hin as [Hin _].
  - unfold heartbeat. case_bool_decide as Hin; [|done].
    destruct (ended s r0).
    + unfold retired, writtenTo. cbn. split_and!; [done|done| |done].
      intros Hin'. by apply elem_of_difference in Hin' as [Hin' _].
    + assert (r0 ≠ r) as Hne by (intros ->; done).
      unfold write. destruct (heap s !! r0) as [resp|]; [|done].
      destruct (writeThrows resp); [done|]. cbn [state_of].
      unfold retired, writtenTo. cbn. by rewrite lookup_insert_ne.
  - split; [by apply retired_broadcast|].
    unfold writtenTo. by rewrite writtenTo_broadcast.
  - unfold stockUpdate. split; [by apply retired_broadcast|].
    unfold writtenTo. by rewrite writtenTo_broadcast.
  - unfold jobUpdate. split; [by apply retired_broadcast|].
    unfold writtenTo. by rewrite writtenTo_broadcast.
  - split; [done|]. unfold writtenTo, endStream. cbn.
    destruct (decide (r0 = r)) as [->|Hne].
    + rewrite lookup_alter_eq. by destruct (heap s !! r).
    + by rewrite lookup_alter_ne.
  - split; [done|]. unfold writtenTo, breakStream. cbn.
    destruct (decide (r0 = r)) as [->|Hne].
    + rewrite lookup_alter_eq. by destruct (heap s !! r).
    + by rewrite lookup_alter_ne.
Qed.

Lemma reachable_inv s : reachable s → inv s.
Proof.
  intros [es ->]. induction es as [|e es IH] using rev_ind.
  - split; [split; constructor|]. intros kv Hin. by apply elem_of_nil in Hin.
  - unfold run. rewrite foldl_app. by apply inv_step.
Qed.

Lemma reachable_run s es : reachable s → reachable (run s es).
Proof. intros [es0 ->]. exists (es0 ++ es). unfold run. by rewrite foldl_app. Qed.

(** X16: once the 'close' listeners of a request have run (its stream is
    registered under no client id and its heartbeat is stopped), nothing
    is ever written to that stream again, whatever happens later:
    broadcasts, updates, heartbeats of any stream, new subscribers. *)
Theorem closed_stream_gets_nothing_more s r es :
  reachable s →
  (r < nextRes s)%nat → (r ∉ (connectedClients s).*2) → (r ∉ heartbeats s) →
  writtenTo (run s es) r = writtenTo s r.
Proof.
  intros Hreach Hlt Hcc Hhb.
  cut (retired (run s es) r ∧ writtenTo (run s es) r = writtenTo s r); [by intros [_ ?]|].
  induction es as [|e es [IHr IHw]] using rev_ind; [done|].
  unfold run. rewrite foldl_app. cbn [foldl]. fold (run s es).
  destruct (retired_step (run s es) e r) as [Hret Hw];
    [by apply reachable_inv, reachable_run|done|].
  split; [done|]. by rewrite Hw.
Qed.

(** X17: the handler of [/events] always runs to its end.  It creates
    one response object and writes only to it; it leaves every other
    stream and both stores as they were, keeps every client registered
    under another id, and starts the heartbeat of the new stream. *)
Theorem subscribe_touches_only_the_new_stream s clientId iso now :
  let r := nextRes s in
  ∃ s', events clientId iso now s = Done s' ∧
    (∀ r', r' ≠ r → heap s' !! r' = heap s !! r') ∧
    stockPrices s' = stockPrices s ∧
    jobProgresses s' = jobProgresses s ∧
    nextRes s' = S r ∧
    heartbeats s' = {[r]} ∪ heartbeats s ∧
    (connectedClients s').*1 =
      (if bool_decide (clientId ∈ (connectedClients s).*1)
       then (connectedClients s).*1 else (connectedClients s).*1 ++ [clientId]) ∧
    ∀ kv, kv ∈ connectedClients s → kv.1 ≠ clientId → kv ∈ connectedClients s'.
Proof.
  cbv zeta. eexists. split; [apply events_spec|].
  cbn [heap stockPrices jobProgresses nextRes heartbeats connectedClients].
  split_and!; [|done|done|done|done| |].
  - intros r' Hne. by rewrite lookup_insert_ne.
  - unfold map_set. case_bool_decide as Hin; [by apply map_set_keys|].
    by rewrite fmap_app.
  - intros kv Hin Hne. unfold map_set. case_bool_decide.
    + apply list_elem_of_fmap. exists kv. by rewrite decide_False.
    + apply elem_of_app. by left.
Qed.

End Extra.

Lemma broadcast_keeps_exactly_the_healthy_witness :
  connectedClients
    (broadcastToAllClients (mkEvent None (Some "x") (DString "hello")) three_listeners) =
    [("client_3", 2%nat)].
Proof.
  destruct (broadcast_keeps_exactly_the_healthy three_listeners
              (mkEvent None (Some "x") (DString "hello"))) as [-> _].
  - by_decide.
  - vm_compute. reflexivity.
Defined.

Lemma closed_stream_gets_nothing_more_witness :
  writtenTo (run (run (init (number := Z))
                    [Connect "client_1" "iso" 1%Z; ReqClose "client_1" 0])
               [Broadcast (mkEvent None (Some "x") (DString "hello"));
                HeartbeatDue 0; Connect "client_2" "iso" 2%Z]) 0%nat =
    welcomeFrames "client_1" "iso".
Proof.
  rewrite (closed_stream_gets_nothing_more
             (run init [Connect "client_1" "iso" 1%Z; ReqClose "client_1" 0]) 0).
  - vm_compute. reflexivity.
  - by eexists.
  - vm_compute. lia.
  - vm_compute. intros Hin. inversion Hin.
  - by_decide.
Defined.

Lemma subscribe_touches_only_the_new_stream_witness :
  ∃ s', events "client_2" "iso" 9%Z one_listener = Done s' ∧
    (∀ r', r' ≠ 1%nat → heap s' !! r' = heap one_listener !! r') ∧
    stockPrices s' = stockPrices one_listener ∧
    jobProgresses s' = jobProgresses one_listener ∧
    nextRes s' = 2%nat ∧
    heartbeats s' = {[1%nat]} ∪ heartbeats one_listener ∧
    (connectedClients s').*1 = ["client_1"; "client_2"] ∧
    ∀ kv, kv ∈ connectedClients one_listener → kv.1 ≠ "client_2" →
          kv ∈ connectedClients s'.
Proof. apply (subscribe_touches_only_the_new_stream one_listener "client_2" "iso" 9%Z). Defined.

End SSEExtra.

(** ** Server-sent events: the stock table *)
Module SSESimulationFacts.
Import SSE SSEFacts SSEExtra SSESimulation.

Section Facts.
Context {number : Type}.
Implicit Types (s : State number) (quote : Quote number).

Lemma map_get_replace {V} k (v : V) (m : JsMap V) :
  k ∈ m.*1 →
  map_get k ((λ kv, if decide (kv.1 = k) then (k, v) else kv) <$> m) = Some v.
Proof.
  induction m as [|[k0 v0] m IH]; cbn; intros Hin; [by apply elem_of_nil in Hin|].
  destruct (decide (k0 = k)) as [->|Hne]; cbn.
  - by rewrite decide_True.
  - rewrite decide_False by done. apply IH.
    apply elem_of_cons in Hin as [?|?]; [congruence|done].
Qed.

Lemma map_get_snoc {V} k (v : V) (m : JsMap V) :
  k ∉ m.*1 → map_get k (m ++ [(k, v)]) = Some v.
Proof.
  induction m as [|[k0 v0] m IH]; cbn; intros Hnot; [by rewrite decide_True|].
  apply not_elem_of_cons in Hnot as [Hne Hnot].
  rewrite decide_False by done. by apply IH.
Qed.

Lemma map_get_set_eq {V} k (v : V) (m : JsMap V) : map_get k (map_set k v m) = Some v.
Proof.
  unfold map_set. case_bool_decide; [by apply map_get_replace|by apply map_get_snoc].
Qed.

Lemma map_get_set_ne {V} k k' (v : V) (m : JsMap V) :
  k' ≠ k → map_get k' (map_set k v m) = map_get k' m.
Proof.
  intros Hne. unfold map_set. case_bool_decide as Hin; clear Hin.
  - induction m as [|[k0 v0] m IH]; cbn; [done|].
    destruct (decide (k0 = k)) as [->|Hk0]; cbn.
    + rewrite !decide_False by done. apply IH.
    + destruct (decide (k0 = k')); [done|apply IH].
  - induction m as [|[k0 v0] m IH]; cbn; [by rewrite decide_False|].
    destruct (decide (k0 = k')); [done|apply IH].
Qed.

Lemma map_get_is_Some {V} k (m : JsMap V) : k ∈ m.*1 → is_Some (map_get k m).
Proof.
  induction m as [|[k0 v0] m IH]; cbn; intros Hin; [by apply elem_of_nil in Hin|].
  destruct (decide (k0 = k)); [by eexists|]. apply IH.
  apply elem_of_cons in Hin as [?|?]; [congruence|done].
Qed.

Lemma stockUpdate_stores idPrefix u now s :
  stockPrices (stockUpdate idPrefix u now s) = map_set (symbol u) u (stockPrices s) ∧
  jobProgresses (stockUpdate idPrefix u now s) = jobProgresses s.
Proof.
  unfold stockUpdate, broadcastToAllClients.
  match goal with |- context [foldl (broadcastOne ?ev) ?s1 ?l] =>
    destruct (broadcast_loop_stores ev l s1) as (-> & -> & _) end.
  done.
Qed.

Lemma pickStock_Some pick s randomSymbol currentStock :
  pickStock pick s = Some (randomSymbol, currentStock) →
  (stockPrices s).*1 !! pick = Some randomSymbol ∧
  map_get randomSymbol (stockPrices s) = Some currentStock.
Proof.
  unfold pickStock. destruct ((stockPrices s).*1 !! pick) as [k|]; [|done].
  destruct (map_get k (stockPrices s)) as [v|] eqn:Hv; [|done]. by intros [= <- <-].
Qed.

Lemma pickStock_None pick s :
  pickStock pick s = None → (length (stockPrices s) ≤ pick)%nat.
Proof.
  unfold pickStock. destruct ((stockPrices s).*1 !! pick) as [k|] eqn:Hk.
  - destruct (map_get_is_Some k (stockPrices s)) as [v ->]; [|done].
    by eapply list_elem_of_lookup_2.
  - intros _. apply lookup_ge_None in Hk. by rewrite length_fmap in Hk.
Qed.

Lemma symbol_updatedStock quote k cur stamp : symbol (updatedStock quote k cur stamp) = k.
Proof. unfold updatedStock. by destruct (quote cur) as [[? ?] ?]. Qed.

Lemma stockUpdate_symbols idPrefix quote k cur stamp now s :
  k ∈ (stockPrices s).*1 →
  (stockPrices (stockUpdate idPrefix (updatedStock quote k cur stamp) now s)).*1 =
    (stockPrices s).*1.
Proof.
  intros Hin. destruct (stockUpdate_stores idPrefix (updatedStock quote k cur stamp) now s)
    as [-> _].
  rewrite symbol_updatedStock. unfold map_set. rewrite bool_decide_eq_true_2 by done.
  by apply map_set_keys.
Qed.

(** X18: the stock table is filled once, with the five symbols of
    [initializeStocks]; neither the manual stock update nor the
    automatic one adds, removes or reorders a symbol, and the automatic
    one does nothing at all while no client is connected. *)
Theorem stock_updates_keep_the_symbols pick quote stamp now s :
  (stockPrices (simulateStockUpdate pick quote stamp now s).1).*1 = (stockPrices s).*1 ∧
  (stockPrices (autoStockUpdate pick quote stamp now s)).*1 = (stockPrices s).*1 ∧
  (connectedClients s = [] → autoStockUpdate pick quote stamp now s = s) ∧
  ∀ price zero t,
    stockPrices s = [] →
    (stockPrices (initializeStocks price zero t s)).*1 =
      ["AAPL"; "GOOGL"; "MSFT"; "TSLA"; "AMZN"].
Proof.
  split_and!.
  - unfold simulateStockUpdate.
    destruct (pickStock pick s) as [[k cur]|] eqn:Hpick; [|done].
    apply pickStock_Some in Hpick as [Hk _]. cbn [fst].
    apply stockUpdate_symbols. by eapply list_elem_of_lookup_2.
  - unfold autoStockUpdate. destruct (connectedClients s); [done|].
    destruct (pickStock pick s) as [[k cur]|] eqn:Hpick; [|done].
    apply pickStock_Some in Hpick as [Hk _].
    apply stockUpdate_symbols. by eapply list_elem_of_lookup_2.
  - intros Hcc. unfold autoStockUpdate. by rewrite Hcc.
  - intros price zero t Hempty. unfold initializeStocks, set_stockPrices.
    cbn. rewrite Hempty. vm_compute. reflexivity.
Qed.

(** X19: [/simulate/stock-update] answers 404 only when the index drawn
    is out of range, and then changes nothing.  Otherwise it replies
    with the quote it has just stored under the symbol drawn: the quote
    computed from the one stored before; every other symbol and the job
    table keep what they had. *)
Theorem stock_update_reply pick quote stamp now s :
  match simulateStockUpdate pick quote stamp now s with
  | (s', StockNotFound) => s' = s ∧ (length (stockPrices s) ≤ pick)%nat
  | (s', Success updated) =>
      (stockPrices s).*1 !! pick = Some (symbol updated) ∧
      (∃ current, map_get (symbol updated) (stockPrices s) = Some current ∧
                  updated = updatedStock quote (symbol updated) current stamp) ∧
      map_get (symbol updated) (stockPrices s') = Some updated ∧
      (∀ k, k ≠ symbol updated →
            map_get k (stockPrices s') = map_get k (stockPrices s)) ∧
      jobProgresses s' = jobProgresses s
  end.
Proof.
  unfold simulateStockUpdate.
  destruct (pickStock pick s) as [[k cur]|] eqn:Hpick.
  - apply pickStock_Some in Hpick as [Hk Hcur].
    destruct (stockUpdate_stores "stock_" (updatedStock quote k cur stamp) now s)
      as [Hst Hjobs].
    rewrite Hst. split_and!; [by rewrite symbol_updatedStock| | | |done].
    + exists cur. by rewrite symbol_updatedStock.
    + apply map_get_set_eq.
    + intros k' Hne. by apply map_get_set_ne.
  - split; [done|]. by apply pickStock_None.
Qed.

End Facts.

Lemma stock_updates_keep_the_symbols_witness :
  (stockPrices (initializeStocks (λ _, 100%Z) 0%Z 0%Z init)).*1 =
    ["AAPL"; "GOOGL"; "MSFT"; "TSLA"; "AMZN"].
Proof.
  destruct (stock_updates_keep_the_symbols 0 (λ _, (1, 2, 3)%Z) 0 0 (init (number := Z)))
    as (_ & _ & _ & Hinit).
  apply Hinit. reflexivity.
Defined.

Lemma stock_update_reply_witness :
  match simulateStockUpdate 0 (λ _, (1, 2, 3)%Z) 8 9 one_listener with
  | (s', StockNotFound) => s' = one_listener ∧ (length (stockPrices one_listener) ≤ 0)%nat
  | (s', Success updated) =>
      (stockPrices one_listener).*1 !! 0%nat = Some (symbol updated) ∧
      (∃ current, map_get (symbol updated) (stockPrices one_listener) = Some current ∧
                  updated = updatedStock (λ _, (1, 2, 3)%Z) (symbol updated) current 8) ∧
      map_get (symbol updated) (stockPrices s') = Some updated ∧
      (∀ k, k ≠ symbol updated →
            map_get k (stockPrices s') = map_get k (stockPrices one_listener)) ∧
      jobProgresses s' = jobProgresses one_listener
  end.
Proof. apply (stock_update_reply 0 (λ _, (1, 2, 3)%Z) 8 9 one_listener). Defined.

End SSESimulationFacts.

(** ** Server-sent events: what the page holds *)
Module SSEClientFacts.
Import SSE SSEFacts SSEExtra SSESimulation SSEClient.

Section Facts.
Context {number : Type}.
Implicit Types (s : State number) (p : Page number).

(** *** The notification list *)

Lemma keepTen_take {A} (fuel : nat) (children : list A) :
  (length children ≤ 10 + fuel)%nat → keepTen fuel children = take 10 children.
Proof.
  revert children. induction fuel as [|fuel IH]; intros children Hlen; cbn [keepTen].
  - by rewrite take_ge by lia.
  - case_decide as Hlong; [|by rewrite take_ge by lia].
    rewrite removelast_firstn_len. rewrite IH by (rewrite length_take; lia).
    rewrite take_take. f_equal. lia.
Qed.

(** X20: [addNotification] puts the new notification first and keeps
    the ten newest: the list afterwards is the first ten of the new
    notification followed by the old.  So it never holds more than ten,
    and the counter and the two tables are left alone. *)
Theorem addNotification_keeps_ten_newest message type p :
  let p' := addNotification message type p in
  notifications p' = take 10 ((message, type) :: notifications p) ∧
  (length (notifications p') ≤ 10)%nat ∧
  eventCount p' = eventCount p ∧ stocks p' = stocks p ∧ jobs p' = jobs p.
Proof.
  cbv zeta. unfold addNotification. cbn [notifications eventCount stocks jobs].
  rewrite keepTen_take by lia. split_and!; [done| |done|done|done].
  rewrite length_take. lia.
Qed.

(** *** Reading a stream *)

Lemma receiveAll_app chunks1 chunks2 (st : option string * Page number) :
  receiveAll (chunks1 ++ chunks2) st =
    match receiveAll chunks1 st with
    | Some st' => receiveAll chunks2 st'
    | None => None
    end.
Proof.
  unfold receiveAll. rewrite foldl_app.
  destruct (foldl _ (Some st) chunks1) as [st'|]; [done|].
  induction chunks2 as [|c chunks2 IH]; [done|]. apply IH.
Qed.

(** The frames of an event with a type reach the listener of that type. *)
Lemma receiveAll_frames evId t d p :
  t ≠ "" →
  receiveAll (frames (mkEvent evId (Some t) d)) (None, p) =
    match listen (Some t) d p with
    | Some p' => Some (None, p')
    | None => None
    end.
Proof.
  intros Ht. unfold frames. cbn [id type data truthy].
  rewrite decide_False by done.
  by destruct (truthy evId).
Qed.

Definition stockSeen (stock : StockPrice number) p : Page number :=
  mkPage (S (eventCount p)) (map_set (symbol stock) stock (stocks p))
         (jobs p) (notifications p).

Definition jobSeen (job : JobProgress number) p : Page number :=
  mkPage (S (eventCount p)) (stocks p)
         (map_set (jobId job) job (jobs p)) (notifications p).

Lemma listen_stock_price (u : StockPrice number) p :
  listen (Some "stock_price") (DStock u) p = Some (stockSeen u p).
Proof. reflexivity. Qed.

Lemma listen_job_progress (job : JobProgress number) p :
  listen (Some "job_progress") (DJob job) p = Some (jobSeen job p).
Proof. reflexivity. Qed.

Lemma receiveAll_welcome clientId iso p :
  receiveAll (welcomeFrames clientId iso) (None, p) = Some (None, updateEventCount p).
Proof. unfold welcomeFrames, idFrame. by case_decide. Qed.

Lemma receiveAll_stockFrames now (stock : StockPrice number) p :
  receiveAll (stockFrames now stock) (None, p) = Some (None, stockSeen stock p).
Proof. reflexivity. Qed.

Lemma receiveAll_jobFrames now (job : JobProgress number) p :
  receiveAll (jobFrames now job) (None, p) = Some (None, jobSeen job p).
Proof. reflexivity. Qed.

Lemma receiveAll_stocks now (l : list (StockPrice number)) p :
  receiveAll (concat (stockFrames now <$> l)) (None, p) =
    Some (None, foldl (λ acc stock, stockSeen stock acc) p l).
Proof.
  revert p. induction l as [|stock l IH]; intros p; [done|].
  cbn [fmap list_fmap concat foldl]. rewrite receiveAll_app.
  rewrite receiveAll_stockFrames. apply IH.
Qed.

Lemma receiveAll_jobs now (l : list (JobProgress number)) p :
  receiveAll (concat (jobFrames now <$> l)) (None, p) =
    Some (None, foldl (λ acc job, jobSeen job acc) p l).
Proof.
  revert p. induction l as [|job l IH]; intros p; [done|].
  cbn [fmap list_fmap concat foldl]. rewrite receiveAll_app.
  rewrite receiveAll_jobFrames. apply IH.
Qed.

Lemma stocksSeen_fields (l : list (StockPrice number)) p :
  let p' := foldl (λ acc stock, stockSeen stock acc) p l in
  eventCount p' = (eventCount p + length l)%nat ∧
  stocks p' = foldl (λ m stock, map_set (symbol stock) stock m) (stocks p) l ∧
  jobs p' = jobs p ∧ notifications p' = notifications p.
Proof.
  revert p. induction l as [|stock l IH]; intros p; cbn [foldl length].
  - cbv zeta. split_and!; [lia|done..].
  - destruct (IH (stockSeen stock p)) as (-> & -> & -> & ->). cbn.
    split_and!; [lia|done..].
Qed.

Lemma jobsSeen_fields (l : list (JobProgress number)) p :
  let p' := foldl (λ acc job, jobSeen job acc) p l in
  eventCount p' = (eventCount p + length l)%nat ∧
  stocks p' = stocks p ∧
  jobs p' = foldl (λ m job, map_set (jobId job) job m) (jobs p) l ∧
  notifications p' = notifications p.
Proof.
  revert p. induction l as [|job l IH]; intros p; cbn [foldl length].
  - cbv zeta. split_and!; [lia|done..].
  - destruct (IH (jobSeen job p)) as (-> & -> & -> & ->). cbn.
    split_and!; [lia|done..].
Qed.

(** *** Tables keyed by a field of their entries *)

(** Every entry of the map sits under the key that its own [key] field
    names, and no key occurs twice. *)
Definition keyedBy {V} (key : V → string) (m : JsMap V) : Prop :=
  NoDup m.*1 ∧ ∀ kv, kv ∈ m → key kv.2 = kv.1.

Lemma map_set_elem_inv {V} k (v : V) (m : JsMap V) kv :
  kv ∈ map_set k v m → kv = (k, v) ∨ kv ∈ m.
Proof.
  unfold map_set. case_bool_decide.
  - intros Hin. apply list_elem_of_fmap in Hin as (kv' & -> & Hin).
    case_decide; [by left|by right].
  - intros Hin. apply elem_of_app in Hin as [Hin|Hin]; [by right|].
    apply list_elem_of_singleton in Hin. by left.
Qed.

Lemma map_set_other_elem {V} k (v : V) (m : JsMap V) kv :
  kv ∈ m → kv.1 ≠ k → kv ∈ map_set k v m.
Proof.
  intros Hin Hne. unfold map_set. case_bool_decide.
  - apply list_elem_of_fmap. exists kv. by rewrite decide_False.
  - apply elem_of_app. by left.
Qed.

Lemma keyedBy_set {V} (key : V → string) v (m : JsMap V) :
  keyedBy key m → keyedBy key (map_set (key v) v m).
Proof.
  intros [Hnd Hkey]. split; [by apply map_set_NoDup_keys|].
  intros kv Hin. apply map_set_elem_inv in Hin as [->|Hin]; [done|by apply Hkey].
Qed.

(** Setting the entries of a keyed map one by one, in map order, builds
    the same map again. *)
Lemma rebuild {V} (key : V → string) (m1 m2 : JsMap V) :
  keyedBy key (m1 ++ m2) →
  foldl (λ m v, map_set (key v) v m) m1 m2.*2 = m1 ++ m2.
Proof.
  revert m1. induction m2 as [|[k v] m2 IH]; intros m1 Hkeyed; cbn [fmap list_fmap foldl].
  - by rewrite app_nil_r.
  - pose proof Hkeyed as [Hnd Hkey].
    assert (key v = k) as Hk.
    { apply (Hkey (k, v)). apply elem_of_app. right. by left. }
    assert (k ∉ m1.*1) as Hfresh.
    { rewrite fmap_app in Hnd. apply NoDup_app in Hnd as (_ & Hdisj & _).
      intros Hin. apply (Hdisj k Hin). cbn. by left. }
    cbn [snd]. rewrite Hk. unfold map_set at 2.
    rewrite bool_decide_eq_false_2 by done.
    rewrite IH; [by rewrite <-app_assoc|]. by rewrite <-app_assoc.
Qed.

(** Both stores of the server are keyed: stocks by symbol, jobs by id. *)
Definition keyed s : Prop :=
  keyedBy symbol (stockPrices s) ∧ keyedBy jobId (jobProgresses s).

Lemma keyed_stores s s' :
  stockPrices s' = stockPrices s → jobProgresses s' = jobProgresses s →
  keyed s → keyed s'.
Proof. unfold keyed. by intros -> ->. Qed.

Lemma broadcast_stores event s :
  stockPrices (broadcastToAllClients event s) = stockPrices s ∧
  jobProgresses (broadcastToAllClients event s) = jobProgresses s.
Proof.
  unfold broadcastToAllClients.
  by destruct (broadcast_loop_stores event (connectedClients s) s) as (-> & -> & _).
Qed.

Lemma heartbeat_stores r s :
  stockPrices (heartbeat r s) = stockPrices s ∧
  jobProgresses (heartbeat r s) = jobProgresses s.
Proof.
  unfold heartbeat. case_bool_decide; [|done]. destruct (ended s r); [done|].
  unfold write. destruct (heap s !! r) as [resp|]; [|done].
  by destruct (writeThrows resp).
Qed.

Lemma keyed_step s e : keyed s → keyed (step s e).
Proof.
  intros Hkeyed.
  destruct e as [clientId iso now|clientId r0|r0|event|idPrefix u now|evId job|r0|r0];
    cbn [step].
  - rewrite events_spec. by cbn [state_of].
  - done.
  - destruct (heartbeat_stores r0 s). by eapply keyed_stores.
  - destruct (broadcast_stores event s). by eapply keyed_stores.
  - unfold stockUpdate.
    match goal with |- keyed (broadcastToAllClients ?ev ?s1) =>
      destruct (broadcast_stores ev s1) as [Hst Hjobs];
      apply (keyed_stores s1); [done|done|] end.
    destruct Hkeyed as [Hs Hj]. split; [|done]. by apply keyedBy_set.
  - unfold jobUpdate.
    match goal with |- keyed (broadcastToAllClients ?ev ?s1) =>
      destruct (broadcast_stores ev s1) as [Hst Hjobs];
      apply (keyed_stores s1); [done|done|] end.
    destruct Hkeyed as [Hs Hj]. split; [done|]. by apply (keyedBy_set jobId).
  - done.
  - done.
Qed.

Lemma reachable_keyed s : reachable s → keyed s.
Proof.
  intros [es ->]. induction es as [|e es IH] using rev_ind.
  - split; (split; [constructor|]); intros kv Hin; by apply elem_of_nil in Hin.
  - unfold run. rewrite foldl_app. by apply keyed_step.
Qed.

(** What the page holds once it has read the snapshot of [/events]. *)
Lemma snapshot_read s clientId iso now :
  keyed s →
  receiveAll (snapshot s clientId iso now) (None, blank) =
    Some (None, mkPage (1 + length (stockPrices s) + length (jobProgresses s))
                       (stockPrices s) (jobProgresses s) []).
Proof.
  intros [Hstocks Hjobs]. unfold snapshot.
  rewrite receiveAll_app, receiveAll_welcome.
  rewrite receiveAll_app, receiveAll_stocks, receiveAll_jobs. do 2 f_equal.
  set (p1 := foldl (λ acc stock, stockSeen stock acc) (updateEventCount blank)
               (stockPrices s).*2).
  destruct (stocksSeen_fields (stockPrices s).*2 (updateEventCount blank))
    as (Hc1 & Hs1 & Hj1 & Hn1). fold p1 in Hc1, Hs1, Hj1, Hn1.
  destruct (jobsSeen_fields (jobProgresses s).*2 p1) as (Hc2 & Hs2 & Hj2 & Hn2).
  cbv zeta in Hc2, Hs2, Hj2, Hn2.
  destruct (foldl (λ acc job, jobSeen job acc) p1 (jobProgresses s).*2)
    as [count st jb nt].
  cbn in Hc2, Hs2, Hj2, Hn2. subst count st jb nt.
  rewrite Hc1, Hs1, Hj1, Hn1. cbn [eventCount stocks jobs notifications blank updateEventCount].
  rewrite (rebuild symbol [] (stockPrices s)) by done.
  rewrite (rebuild jobId [] (jobProgresses s)) by done.
  rewrite !length_fmap. done.
Qed.

(** X21: a page that opens the stream with empty tables and reads what
    the handler of [/events] wrote holds, after the last chunk, the
    server's stock table and job table, entry for entry and in the same
    order, and has counted one event for the welcome and one for every
    entry. *)
Theorem page_holds_the_snapshot s clientId iso now :
  reachable s →
  receiveAll (writtenTo (state_of (events clientId iso now s)) (nextRes s)) (None, blank) =
    Some (None, mkPage (1 + length (stockPrices s) + length (jobProgresses s))
                       (stockPrices s) (jobProgresses s) []).
Proof.
  intros Hreach. rewrite events_spec. cbn [state_of]. unfold writtenTo. cbn [heap].
  rewrite lookup_insert_eq. cbn [written]. by apply snapshot_read, reachable_keyed.
Qed.

(** *** The page keeps up with the server *)

(** The page that has read the stream [r] holds the server's tables. *)
Definition mirrors s (r : nat) : Prop :=
  ∃ p, receiveAll (writtenTo s r) (None, blank) = Some (None, p) ∧
       stocks p = stockPrices s ∧ jobs p = jobProgresses s.

(** The events that the notification endpoints broadcast: one of the
    three notification types, with a record of strings as payload. *)
Definition notice (event : SSEEvent number) : Prop :=
  (type event = Some "user_login" ∨ type event = Some "new_message" ∨
   type event = Some "system_alert") ∧
  ∃ fields, data event = DRecord fields.

(** Events that neither break the stream of the client [clientId] nor
    broadcast anything but a notification. *)
Definition quiet (clientId : string) (e : Event number) : Prop :=
  match e with
  | StockUpdate _ _ _ | JobUpdate _ _ | HeartbeatDue _ => True
  | Connect clientId' _ _ | ReqClose clientId' _ => clientId' ≠ clientId
  | Broadcast event => notice event
  | StreamEnds _ | StreamBreaks _ => False
  end.

(** The client [clientId] listens on the healthy stream [r], and its
    page mirrors the server. *)
Definition listening (clientId : string) (r : nat) s : Prop :=
  inv s ∧ keyed s ∧ (clientId, r) ∈ connectedClients s ∧ healthy s r = true ∧
  mirrors s r.

Lemma healthy_same_heap s s' r : heap s' = heap s → healthy s' r = healthy s r.
Proof. unfold healthy. by intros ->. Qed.

Lemma writtenTo_same_heap s s' r : heap s' = heap s → writtenTo s' r = writtenTo s r.
Proof. unfold writtenTo. by intros ->. Qed.

(** A broadcast of a typed event to a listening client: the frames are
    appended to its stream and it stays registered and healthy. *)
Lemma listening_broadcast clientId r evId t d s :
  inv s → (clientId, r) ∈ connectedClients s → healthy s r = true →
  let s' := broadcastToAllClients (mkEvent evId (Some t) d) s in
  inv s' ∧ (clientId, r) ∈ connectedClients s' ∧ healthy s' r = true ∧
  writtenTo s' r = writtenTo s r ++ frames (mkEvent evId (Some t) d).
Proof.
  intros Hinv Hin Hh. cbv zeta. pose proof Hinv as [Hwf _].
  destruct (broadcastToAllClients_spec (mkEvent evId (Some t) d) s clientId r Hwf Hin)
    as [Hgood _].
  destruct (Hgood Hh) as [Hin' Hw].
  split_and!; [by apply inv_broadcast|done| |done].
  unfold broadcastToAllClients. by rewrite healthy_loop.
Qed.

Lemma listening_step clientId r s e :
  quiet clientId e → listening clientId r s → listening clientId r (step s e).
Proof.
  intros Hquiet (Hinv & Hkeyed & Hin & Hh & p & Hread & Hstocks & Hjobs).
  assert (inv (step s e)) as Hinv' by (by apply inv_step).
  assert (keyed (step s e)) as Hkeyed' by (by apply keyed_step).
  assert (r < nextRes s)%nat as Hlt by (destruct Hinv as [_ Hlt]; apply (Hlt _ Hin)).
  split; [done|]. split; [done|]. clear Hinv' Hkeyed'.
  destruct e as [clientId' iso now|clientId' r0|r0|event|idPrefix u now|evId job|r0|r0];
    cbn [step quiet] in *; try done.
  - rewrite events_spec. cbn [state_of connectedClients].
    split_and!.
    + by apply map_set_other_elem.
    + unfold healthy. cbn [heap]. rewrite lookup_insert_ne by lia. exact Hh.
    + exists p. unfold writtenTo. cbn [heap stockPrices jobProgresses].
      rewrite lookup_insert_ne by lia. done.
  - unfold onClose. cbn [connectedClients]. split_and!.
    + by apply map_delete_other.
    + done.
    + by exists p.
  - unfold heartbeat. case_bool_decide as Hhb; [|split_and!; [done|done|by exists p]].
    destruct (ended s r0) eqn:Hended; [split_and!; [done|done|by exists p]|].
    unfold write. destruct (heap s !! r0) as [resp|] eqn:Hr0;
      [|split_and!; [done|done|by exists p]].
    destruct (writeThrows resp) eqn:Hthrows; [split_and!; [done|done|by exists p]|].
    cbn [state_of set_heap connectedClients]. split; [done|].
    destruct (decide (r0 = r)) as [->|Hne].
    + split.
      * unfold healthy in *. cbn [heap set_heap]. rewrite lookup_insert_eq.
        rewrite Hr0, Hthrows in Hh. exact Hh.
      * exists p. unfold writtenTo in *.
        cbn [heap set_heap stockPrices jobProgresses].
        rewrite lookup_insert_eq. rewrite Hr0 in Hread. cbn [written].
        rewrite receiveAll_app, Hread. done.
    + split.
      * unfold healthy in *. cbn [heap set_heap]. by rewrite lookup_insert_ne.
      * exists p. unfold writtenTo in *.
        cbn [heap set_heap stockPrices jobProgresses].
        by rewrite lookup_insert_ne.
  - destruct Hquiet as [Htype [fields Hdata]]. destruct event as [evId ty d].
    cbn [type data] in Htype, Hdata. subst d.
    assert (∃ t p', ty = Some t ∧ t ≠ "" ∧
                    listen (Some t) (DRecord fields) p = Some p' ∧
                    stocks p' = stocks p ∧ jobs p' = jobs p)
      as (t & q & Hty & Ht & Hlisten & Hstq & Hjbq).
    { destruct Htype as [-> | [-> | ->]]; eexists _, _;
        (split; [reflexivity|]); (split; [done|]); (split; [reflexivity|]); done. }
    subst ty.
    destruct (listening_broadcast clientId r evId t (DRecord fields) s)
      as (_ & Hin' & Hh' & Hw); [done|done|done|].
    destruct (broadcast_stores (mkEvent evId (Some t) (DRecord fields)) s) as [Hst Hjb].
    split_and!; [done|done|].
    exists q. rewrite Hw, receiveAll_app, Hread.
    rewrite receiveAll_frames by done. rewrite Hlisten, Hst, Hjb.
    by rewrite Hstq, Hjbq.
  - unfold stockUpdate.
    set (s1 := mkState (connectedClients s) (map_set (symbol u) u (stockPrices s))
                       (jobProgresses s) (heap s) (nextRes s) (heartbeats s)).
    set (evId := Some (idPrefix +:+ symbol u +:+ "_" +:+ pretty now)).
    destruct (listening_broadcast clientId r evId "stock_price" (DStock u) s1)
      as (_ & Hin' & Hh' & Hw); [done|done|done|].
    destruct (broadcast_stores (mkEvent evId (Some "stock_price") (DStock u)) s1)
      as [Hst Hjb].
    split_and!; [done|done|].
    exists (stockSeen u p). rewrite Hw, receiveAll_app.
    rewrite (writtenTo_same_heap s s1) by done. rewrite Hread.
    rewrite receiveAll_frames by done. rewrite listen_stock_price, Hst, Hjb.
    unfold s1. cbn [stockSeen stocks jobs stockPrices jobProgresses].
    by rewrite Hstocks.
  - unfold jobUpdate.
    set (s1 := mkState (connectedClients s) (stockPrices s)
                       (map_set (jobId job) job (jobProgresses s))
                       (heap s) (nextRes s) (heartbeats s)).
    destruct (listening_broadcast clientId r (Some evId) "job_progress" (DJob job) s1)
      as (_ & Hin' & Hh' & Hw); [done|done|done|].
    destruct (broadcast_stores (mkEvent (Some evId) (Some "job_progress") (DJob job)) s1)
      as [Hst Hjb].
    split_and!; [done|done|].
    exists (jobSeen job p). rewrite Hw, receiveAll_app.
    rewrite (writtenTo_same_heap s s1) by done. rewrite Hread.
    rewrite receiveAll_frames by done. rewrite listen_job_progress, Hst, Hjb.
    unfold s1. cbn [jobSeen stocks jobs stockPrices jobProgresses].
    by rewrite Hjobs.
Qed.

Lemma listening_connect s clientId iso now :
  reachable s → listening clientId (nextRes s) (state_of (events clientId iso now s)).
Proof.
  intros Hreach. unfold listening.
  assert (inv (step s (Connect clientId iso now))) as Hinv
    by (by apply inv_step, reachable_inv).
  assert (keyed (step s (Connect clientId iso now))) as Hkeyed
    by (by apply keyed_step, reachable_keyed).
  cbn [step] in Hinv, Hkeyed. split; [done|]. split; [done|]. clear Hinv Hkeyed.
  rewrite events_spec. cbn [state_of connectedClients]. split_and!.
  - apply map_set_elem.
  - unfold healthy. cbn [heap]. by rewrite lookup_insert_eq.
  - eexists. unfold writtenTo. cbn [heap stockPrices jobProgresses].
    rewrite lookup_insert_eq. cbn [written].
    rewrite snapshot_read by (by apply reachable_keyed). done.
Qed.

(** X22: a page that subscribed with empty tables keeps holding the
    server's stock and job tables, entry for entry and in order, after
    any number of stock updates, job updates, notifications, heartbeats
    and arrivals and departures of other clients: whenever it has read
    its stream to the end, its tables are the server's. *)
Theorem page_mirrors_the_server s clientId iso now es :
  reachable s → Forall (quiet clientId) es →
  let s' := run (state_of (events clientId iso now s)) es in
  ∃ p, receiveAll (writtenTo s' (nextRes s)) (None, blank) = Some (None, p) ∧
       stocks p = stockPrices s' ∧ jobs p = jobProgresses s'.
Proof.
  intros Hreach Hquiet. cbv zeta.
  cut (listening clientId (nextRes s) (run (state_of (events clientId iso now s)) es)).
  { by intros (_ & _ & _ & _ & Hm). }
  induction es as [|e es IH] using rev_ind; [by apply listening_connect|].
  rewrite Forall_app, Forall_singleton in Hquiet. destruct Hquiet as [Hes He].
  unfold run. rewrite foldl_app. cbn [foldl]. apply listening_step; [done|].
  by apply IH.
Qed.

(** *** Notifications *)

(** What the page shows for the entries of the table of
    [/simulate/notification]: the text and the class of the item. *)
Definition shown : list (string * string) :=
  [ ("👤 Alice logged in", "user");
    ("💬 Bob: Hello everyone!", "message");
    ("⚠️ System maintenance in 1 hour", "alert");
    ("👤 Charlie logged out", "user") ].

Lemma notice_read s clientId r p evId t fields :
  inv s → (clientId, r) ∈ connectedClients s → healthy s r = true →
  receiveAll (writtenTo s r) (None, blank) = Some (None, p) →
  t ≠ "" →
  receiveAll (writtenTo (broadcastToAllClients (mkEvent evId (Some t) (DRecord fields)) s) r)
             (None, blank) =
    match listen (Some t) (DRecord fields) p with
    | Some p' => Some (None, p')
    | None => None
    end.
Proof.
  intros Hinv Hin Hh Hread Ht.
  destruct (listening_broadcast clientId r evId t (DRecord fields) s)
    as (_ & _ & _ & ->); [done|done|done|].
  rewrite receiveAll_app, Hread. by apply receiveAll_frames.
Qed.

(** What the page shows for the entries of the table of the automatic
    notifications, when [n] was drawn for the user name. *)
Definition autoShown (n : nat) : list (string * string) :=
  [ ("⚠️ Auto-generated system update", "alert");
    ("👤 User_" +:+ pretty n +:+ " logged in", "user") ].

(** X23: a notification, of [/simulate/notification] or of the automatic
    simulation, reaches the page of every listening client as a new item
    on top of its notification list, with the text the page builds from
    the fields the server sent: the field names of the two sides agree,
    so no 'undefined' appears.  The page counts one more event, and the
    stores of the server are left as they were. *)
Theorem notification_reaches_the_page s clientId r p iso now :
  inv s → (clientId, r) ∈ connectedClients s → healthy s r = true →
  receiveAll (writtenTo s r) (None, blank) = Some (None, p) →
  (∀ pick message class,
     shown !! pick = Some (message, class) →
     ∃ s' event,
       simulateNotification pick iso now s = Some (s', event) ∧
       receiveAll (writtenTo s' r) (None, blank) =
         Some (None, updateEventCount (addNotification message class p)) ∧
       stockPrices s' = stockPrices s ∧ jobProgresses s' = jobProgresses s) ∧
  (∀ pick n message class,
     autoShown n !! pick = Some (message, class) →
     ∃ s',
       autoNotification pick n iso now s = Some s' ∧
       receiveAll (writtenTo s' r) (None, blank) =
         Some (None, updateEventCount (addNotification message class p)) ∧
       stockPrices s' = stockPrices s ∧ jobProgresses s' = jobProgresses s).
Proof.
  intros Hinv Hin Hh Hread. split.
  - intros pick message class Hshown. unfold simulateNotification.
    destruct pick as [|[|[|[|pick]]]]; cbn in Hshown; try discriminate;
      injection Hshown as <- <-; cbn [notificationTable lookup list_lookup];
      eexists _, _; (split; [reflexivity|]); unfold notificationEvent; cbn [fst snd app];
      (split; [|apply broadcast_stores]);
      by rewrite (notice_read s clientId r p).
  - intros pick n message class Hshown. unfold autoNotification.
    destruct (connectedClients s) as [|entry rest] eqn:Hcc; [by apply elem_of_nil in Hin|].
    rewrite <-Hcc in Hin. clear Hcc entry rest.
    destruct pick as [|[|pick]]; cbn in Hshown; try discriminate;
      injection Hshown as <- <-; cbn [autoTable lookup list_lookup];
      eexists; (split; [reflexivity|]); unfold notificationEvent; cbn [fst snd app];
      (split; [|apply broadcast_stores]);
      by rewrite (notice_read s clientId r p).
Qed.

End Facts.

Lemma addNotification_keeps_ten_newest_witness :
  notifications (addNotification "m" "user"
                   (mkPage (number := Z) 0 [] [] (replicate 10 ("old", "alert")))) =
    ("m", "user") :: replicate 9 ("old", "alert").
Proof.
  destruct (addNotification_keeps_ten_newest "m" "user"
              (mkPage (number := Z) 0 [] [] (replicate 10 ("old", "alert")))) as [-> _].
  reflexivity.
Defined.

Lemma page_holds_the_snapshot_witness :
  receiveAll (writtenTo (state_of (events "client_2" "iso" 9%Z one_listener))
                (nextRes one_listener)) (None, blank) =
    Some (None, mkPage (1 + length (stockPrices one_listener) +
                        length (jobProgresses one_listener))
                       (stockPrices one_listener) (jobProgresses one_listener) []).
Proof.
  apply (page_holds_the_snapshot one_listener "client_2" "iso" 9%Z).
  by eexists.
Defined.

Lemma page_mirrors_the_server_witness :
  let s' := run (state_of (events "client_2" "iso" 9%Z one_listener))
              [StockUpdate "stock_" (mkStock "MSFT" 4%Z 5%Z 6%Z 10%Z) 11%Z;
               HeartbeatDue 1;
               JobUpdate "job_a_created" (mkJobProgress "a" 0%Z running "Job started...");
               ReqClose "client_1" 0;
               Broadcast (mkEvent (Some "notification_12") (Some "new_message")
                            (DRecord [("from", "Bob"); ("message", "Hello everyone!");
                                      ("timestamp", "iso")]));
               StockUpdate "auto_stock_" (mkStock "AAPL" 7%Z 8%Z 9%Z 12%Z) 13%Z] in
  ∃ p, receiveAll (writtenTo s' (nextRes one_listener)) (None, blank) = Some (None, p) ∧
       stocks p = stockPrices s' ∧ jobs p = jobProgresses s'.
Proof.
  apply (page_mirrors_the_server one_listener "client_2" "iso" 9%Z).
  - by eexists.
  - repeat first [apply Forall_cons; split | apply Forall_nil];
      first [exact I | discriminate | idtac].
    split; [right; left; reflexivity|by eexists].
Defined.

Lemma notification_reaches_the_page_witness :
  ∃ s' event,
    simulateNotification 1 "later" 10%Z
      (state_of (events "client_2" "iso" 9%Z one_listener)) = Some (s', event) ∧
    receiveAll (writtenTo s' 1) (None, blank) =
      Some (None, updateEventCount
                    (addNotification "💬 Bob: Hello everyone!" "message"
                       (mkPage 2 (stockPrices one_listener) [] []))) ∧
    stockPrices s' = stockPrices (state_of (events "client_2" "iso" 9%Z one_listener)) ∧
    jobProgresses s' = jobProgresses (state_of (events "client_2" "iso" 9%Z one_listener)).
Proof.
  destruct (notification_reaches_the_page
              (state_of (events "client_2" "iso" 9%Z one_listener)) "client_2" 1
              (mkPage 2 (stockPrices one_listener) [] []) "later" 10%Z)
    as [Hmanual _].
  - apply reachable_inv.
    exists [StockUpdate "stock_" (mkStock "AAPL" 1%Z 2%Z 3%Z 0%Z) 5%Z;
            Connect "client_1" "iso" 7%Z; Connect "client_2" "iso" 9%Z].
    reflexivity.
  - vm_compute. right. left.
  - vm_compute. reflexivity.
  - vm_compute. reflexivity.
  - apply (Hmanual 1%nat). reflexivity.
Defined.

End SSEClientFacts.

(** ** Debounce *)
Module DebounceFacts.
Import Debounce.

Section Facts.
Context {Args : Type}.
Implicit Types (s : State Args) (es : list (Event Args)).

(** The arguments of the calls of the debounced function, oldest first. *)
Definition calls es : list Args :=
  omap (λ e, match e with Call args => Some args | Fire _ => None end) es.

(** Either no timer is armed, or exactly one is: the one [timeout] names,
    armed by the latest call, whose arguments [func] has not yet seen. *)
Definition pending_last s (cs : list Args) : Prop :=
  (timers s = ∅ ∧ invoked s `sublist_of` cs) ∨
  (∃ t args before,
     timers s = {[t := args]} ∧ timeout s = Some t ∧
     cs = before ++ [args] ∧ invoked s `sublist_of` before).

Lemma debounced_timers s cs args :
  pending_last s cs →
  timers (debounced args s) = {[nextTimer s := args]} ∧
  timeout (debounced args s) = Some (nextTimer s) ∧
  invoked (debounced args s) = invoked s ∧
  invoked s `sublist_of` cs.
Proof.
  destruct s as [handle armed next done_]. unfold pending_last, debounced.
  cbn [timers timeout invoked nextTimer clearTimeout].
  intros [[-> Hsub]|(t & a & before & -> & -> & -> & Hsub)].
  - destruct handle as [t|]; cbn [timers timeout invoked nextTimer clearTimeout];
      rewrite ?delete_empty, insert_empty; done.
  - cbn [timers timeout invoked nextTimer clearTimeout].
    rewrite delete_singleton_eq, insert_empty.
    split_and!; [done..|]. by apply sublist_inserts_r.
Qed.

Lemma pending_last_step s es e :
  pending_last s (calls es) → pending_last (step s e) (calls (es ++ [e])).
Proof.
  intros Hinv. unfold calls. rewrite omap_app. fold (calls es).
  destruct e as [args|t']; cbn [step omap list_omap].
  - destruct (debounced_timers s (calls es) args Hinv) as (Htimers & Ht & Hinvoked & Hsub).
    right. exists (nextTimer s), args, (calls es). by rewrite Hinvoked.
  - rewrite app_nil_r. unfold fire.
    destruct Hinv as [[Hempty Hsub]|(t & a & before & Hone & Ht & Hcs & Hsub)].
    + rewrite Hempty, lookup_empty. by left.
    + rewrite Hone. destruct (decide (t' = t)) as [->|Hne].
      * rewrite lookup_singleton_eq. left. cbn. rewrite delete_singleton_eq.
        split; [done|]. rewrite Hcs. by apply sublist_app.
      * rewrite lookup_singleton_ne by done. right. by exists t, a, before.
Qed.

Lemma pending_last_run es : pending_last (run init es) (calls es).
Proof.
  induction es as [|e es IH] using rev_ind; [by left|].
  unfold run. rewrite foldl_app. by apply pending_last_step.
Qed.

(** X25: however calls of a debounced function and expiries of its
    timers interleave, at most one timer is armed: the one armed by the
    latest call, holding that call's arguments.  [func] is invoked at
    most once per call, in call order; and a burst of calls followed by
    the expiry of the armed timer invokes [func] exactly once, with the
    arguments of the last call of the burst. *)
Theorem debounce_runs_the_last_call es :
  let s := run init es in
  (∀ t args, timers s !! t = Some args →
             timeout s = Some t ∧ last (calls es) = Some args) ∧
  invoked s `sublist_of` calls es ∧
  ∀ burst args,
    let s' := run s (Call <$> (burst ++ [args])) in
    ∃ t, timers s' = {[t := args]} ∧
         invoked (step s' (Fire t)) = invoked s ++ [args].
Proof.
  cbv zeta. pose proof (pending_last_run es) as Hinv. split_and!.
  - intros t args Harmed.
    destruct Hinv as [[Hempty _]|(t0 & a & before & Hone & Ht & Hcs & _)].
    + rewrite Hempty, lookup_empty in Harmed. discriminate.
    + rewrite Hone in Harmed. apply lookup_singleton_Some in Harmed as [<- <-].
      split; [done|]. rewrite Hcs. apply last_snoc.
  - destruct Hinv as [[_ Hsub]|(t0 & a & before & _ & _ & Hcs & Hsub)]; [done|].
    rewrite Hcs. by apply sublist_inserts_r.
  - intros burst args.
    assert (run (run init es) (Call <$> burst ++ [args]) =
            debounced args (foldl step (run init es) (Call <$> burst))) as ->
      by (unfold run at 1; by rewrite fmap_app, foldl_app).
    set (s1 := foldl step (run init es) (Call <$> burst)).
    assert (pending_last s1 (calls (es ++ (Call <$> burst))) ∧
            invoked s1 = invoked (run init es)) as [Hinv1 Hsame].
    { unfold s1. clear Hinv. induction burst as [|a burst IH] using rev_ind.
      - cbn. rewrite app_nil_r. split; [apply pending_last_run|done].
      - rewrite fmap_app, foldl_app. cbn [fmap list_fmap foldl step].
        destruct IH as [IH1 IH2]. rewrite app_assoc. split.
        + by apply (pending_last_step _ (es ++ (Call <$> burst)) (Call a)).
        + destruct (debounced_timers _ _ a IH1) as (_ & _ & -> & _). done. }
    destruct (debounced_timers s1 _ args Hinv1) as (Htimers & _ & Hinvoked & _).
    exists (nextTimer s1). split; [done|]. cbn [step]. unfold fire.
    rewrite Htimers, lookup_singleton_eq. cbn [invoked].
    by rewrite Hinvoked, Hsame.
Qed.

End Facts.

End DebounceFacts.

(** ** The most frequent number *)
Module MostFrequentFacts.
Import MostFrequent.

(** How often [x] occurs in [l]. *)
Definition occurrences (x : Z) (l : list Z) : nat :=
  length (filter (λ y, y = x) l).

Lemma occurrences_snoc x l y :
  occurrences x (l ++ [y]) =
    if decide (y = x) then S (occurrences x l) else occurrences x l.
Proof.
  unfold occurrences. rewrite filter_app, length_app.
  case_decide.
  - rewrite filter_cons_True by done. cbn. lia.
  - rewrite filter_cons_False by done. cbn. lia.
Qed.

Lemma occurrences_elem x l : (0 < occurrences x l)%nat → x ∈ l.
Proof.
  unfold occurrences. intros Hpos.
  destruct (filter (λ y, y = x) l) as [|y rest] eqn:Hf; [cbn in Hpos; lia|].
  assert (y ∈ filter (λ y, y = x) l) as Hin by (rewrite Hf; left).
  by apply list_elem_of_filter in Hin as [-> Hin].
Qed.

(** The variables after the loop has read the prefix [l] of [nums]. *)
Definition counted (nums l : list Z) (v : Vars) : Prop :=
  (∀ x, default 0%nat (frequency v !! x) = occurrences x l) ∧
  (∀ x, (occurrences x l ≤ maxCount v)%nat) ∧
  match l with
  | [] => maxCount v = 0%nat ∧ mostFrequentNum v = head nums
  | _ :: _ => ∃ r, mostFrequentNum v = Some r ∧ occurrences r l = maxCount v
  end.

Lemma turn_spec v x :
  turn v x =
    let count := S (default 0%nat (frequency v !! x)) in
    let frequency' := <[x := count]> (frequency v) in
    if decide (maxCount v < count)%nat
    then mkVars frequency' count (Some x)
    else mkVars frequency' (maxCount v) (mostFrequentNum v).
Proof.
  unfold turn. destruct (frequency v !! x) as [[|c]|]; cbn;
    by rewrite lookup_insert_eq.
Qed.

Lemma counted_snoc nums l x frequency' count best :
  (∀ y, default 0%nat (frequency' !! y) = occurrences y (l ++ [x])) →
  (∀ y, (occurrences y (l ++ [x]) ≤ count)%nat) →
  (∃ r, best = Some r ∧ occurrences r (l ++ [x]) = count) →
  counted nums (l ++ [x]) (mkVars frequency' count best).
Proof.
  intros Hfreq Hmax Hbest. split_and!; [done|done|]. by destruct l.
Qed.

Lemma turn_counted nums l v x :
  counted nums l v → counted nums (l ++ [x]) (turn v x).
Proof.
  intros (Hfreq & Hmax & Hbest). rewrite turn_spec. cbv zeta. rewrite Hfreq.
  assert (∀ y, default 0%nat (<[x := S (occurrences x l)]> (frequency v) !! y) =
               occurrences y (l ++ [x])) as Hfreq'.
  { intros y. rewrite occurrences_snoc. case_decide as Hxy.
    - subst y. by rewrite lookup_insert_eq.
    - rewrite lookup_insert_ne by done. apply Hfreq. }
  case_decide as Hlt; apply counted_snoc; try done.
  - intros y. rewrite occurrences_snoc. case_decide; [by subst|].
    specialize (Hmax y). lia.
  - exists x. split; [done|]. rewrite occurrences_snoc. by rewrite decide_True.
  - intros y. rewrite occurrences_snoc. case_decide; [subst; lia|apply Hmax].
  - destruct l as [|z l'].
    + destruct Hbest as [Hzero _]. cbn in Hlt. lia.
    + destruct Hbest as (r & Hr & Hcount). exists r. split; [done|].
      rewrite occurrences_snoc. case_decide; [subst; lia|done].
Qed.

Lemma loop_counted nums rest : ∀ l v,
  counted nums l v → counted nums (l ++ rest) (foldl turn v rest).
Proof.
  induction rest as [|x rest IH]; intros l v Hv; cbn [foldl].
  - by rewrite app_nil_r.
  - replace (l ++ x :: rest) with ((l ++ [x]) ++ rest) by (by rewrite <-app_assoc).
    apply IH. by apply turn_counted.
Qed.

(** X26: on a non-empty array [findMostFrequentNumber] returns a number
    of the array that no other number of the array occurs more often
    than; on the empty array it returns [undefined]. *)
Theorem findMostFrequentNumber_is_a_mode nums :
  match nums with
  | [] => findMostFrequentNumber nums = None
  | _ :: _ =>
      ∃ r, findMostFrequentNumber nums = Some r ∧ r ∈ nums ∧
           ∀ x, (occurrences x nums ≤ occurrences r nums)%nat
  end.
Proof.
  destruct nums as [|n nums]; [done|].
  assert (counted (n :: nums) [] (mkVars ∅ 0 (head (n :: nums)))) as Hinit.
  { split_and!; [|intros x; cbn; lia|done|done].
    intros x. cbn [frequency]. by rewrite lookup_empty. }
  apply (loop_counted (n :: nums) (n :: nums)) in Hinit.
  rewrite app_nil_l in Hinit. destruct Hinit as (_ & Hmax & r & Hr & Hcount).
  exists r. split; [done|]. split.
  - apply occurrences_elem. rewrite Hcount. specialize (Hmax n).
    assert (0 < occurrences n (n :: nums))%nat; [|lia].
    unfold occurrences. rewrite filter_cons_True by done. cbn. lia.
  - intros x. rewrite Hcount. apply Hmax.
Qed.

End MostFrequentFacts.
